(** * Chef's Compass: the realtime audio adapter

    A shallow embedding of the audio glue of the application:
    - [src/services/geminiService.ts]: [encode], [decode], [decodeAudioData],
      the dispatch of inbound messages in [connectCoach], and the fallbacks of
      [getSuggestions], [getFullRecipe] and [generateDishImage];
    - [src/App.tsx]: the refs [nextStartTime], [activeSources],
      [audioContextOut], [sessionPromise] and the handlers [onAudio],
      [onInterrupted], [onaudioprocess], [stopCoach]; the handlers of the
      planner, [handleFetchSuggestions], [handleSelectDish] and [reset].

    The platform functions the code calls ([btoa], [atob], typed arrays,
    [AudioContext.createBuffer], [AudioBufferSourceNode]) are modelled after
    their standards (HTML, Infra, ECMAScript, WebIDL, Web Audio); each model
    says which clause it renders. *)

From Stdlib Require Import ZArith NArith QArith Qminmax Qround Qabs Qpower Lia Lqa.
From Stdlib.Strings Require Import Byte Ascii String.
From stdpp Require Import base option list.

Set Default Proof Using "Type".
Set Warnings "-register-all,-abstract-large-number".
Local Open Scope N_scope.

(** ** JavaScript values used by the adapter *)
Module JS.

(** Exceptions the modelled code can raise. *)
Inductive exn : Type :=
| InvalidCharacterError   (* DOMException of btoa / atob *)
| RangeError              (* typed array over a misaligned buffer *)
| NotSupportedError       (* DOMException of createBuffer *)
| InvalidStateError       (* DOMException of AudioScheduledSourceNode *)
| TypeError               (* property access on undefined *)
| SyntaxError             (* JSON.parse *)
| NotAllowedError.        (* DOMException of getUserMedia *)

(** Completion of a call: a value, or a thrown exception.  For an [async]
    function [Throw] is the rejection of the promise it returns. *)
Inductive completion (A : Type) : Type :=
| Normal (a : A)
| Throw (e : exn).
Arguments Normal {A} a.
Arguments Throw {A} e.

#[global] Instance completion_ret : MRet completion := fun A a => Normal a.
#[global] Instance completion_bind : MBind completion := fun A B k c =>
  match c with
  | Normal a => k a
  | Throw e => Throw e
  end.

Definition is_Normal {A} (c : completion A) : bool :=
  match c with Normal _ => true | Throw _ => false end.

(** A string is its sequence of UTF-16 code units. *)
Abbreviation string16 := (list N).

Definition of_ascii_string (s : String.string) : string16 :=
  map N_of_ascii (list_ascii_of_string s).

(** [String.fromCharCode(n)]: the code unit [n mod 2^16]. *)
Definition fromCharCode (n : N) : N := n mod 65536.

(** A [Uint8Array] that covers its whole [ArrayBuffer]. *)
Abbreviation Uint8Array := (list byte).

(** Storing a number into a [Uint8Array] element (ToUint8): modulo 256. *)
Definition ToUint8 (n : N) : byte :=
  default x00 (Byte.of_N (n mod 256)).

(** [for (let i = 0; i < n; i++) acc = body(acc, i)]. *)
Definition for_loop {A} (n : nat) (body : A -> nat -> A) (init : A) : A :=
  fold_left body (seq 0 n) init.

(** *** Numbers

    A number is an IEEE-754 double.  The model keeps the finite values as
    exact rationals and the three special values; the sign of zero is not
    kept.  Each arithmetic step the adapter performs is exact on the values
    it meets: samples come out of a [Float32Array] (24-bit significands),
    [0x7FFF] has 15 bits, so [clamp(x) * 0x7FFF] fits the 53 bits of a
    double, and a 16-bit integer divided by [32768] (a power of two) is a
    [Float32] value.  Times are where rounding shows: the quotient of
    [buffer.duration] and the sum of [nextStartTime += duration] are rounded
    to the nearest double, see the module [Double]. *)
Inductive number : Type :=
| Fin (q : Q)
| PosInf
| NegInf
| NaN.

Definition num_of_Z (z : Z) : number := Fin (inject_Z z).
Definition num_of_nat (n : nat) : number := num_of_Z (Z.of_nat n).

(** [Math.min] and [Math.max] of two arguments. *)
Definition Math_min (x y : number) : number :=
  match x, y with
  | NaN, _ | _, NaN => NaN
  | NegInf, _ | _, NegInf => NegInf
  | PosInf, z | z, PosInf => z
  | Fin a, Fin b => Fin (Qmin a b)
  end.

Definition Math_max (x y : number) : number :=
  match x, y with
  | NaN, _ | _, NaN => NaN
  | PosInf, _ | _, PosInf => PosInf
  | NegInf, z | z, NegInf => z
  | Fin a, Fin b => Fin (Qmax a b)
  end.

(** The infinity of the sign of [a * b], NaN when the product has none. *)
Definition signed_inf (a b : Q) : number :=
  match (a * b ?= 0)%Q with
  | Gt => PosInf
  | Lt => NegInf
  | Eq => NaN
  end.

(** [x * y]. *)
Definition num_mul (x y : number) : number :=
  match x, y with
  | NaN, _ | _, NaN => NaN
  | Fin a, Fin b => Fin (a * b)
  | Fin a, PosInf | PosInf, Fin a => signed_inf a 1
  | Fin a, NegInf | NegInf, Fin a => signed_inf a (-1)
  | PosInf, PosInf | NegInf, NegInf => PosInf
  | PosInf, NegInf | NegInf, PosInf => NegInf
  end.

(** [x / y]; a finite non-zero number over zero is an infinity, [0 / 0]
    is NaN. *)
Definition num_div (x y : number) : number :=
  match x, y with
  | NaN, _ | _, NaN => NaN
  | Fin a, Fin b =>
      if Qeq_bool b 0 then signed_inf a 1 else Fin (a / b)
  | Fin _, (PosInf | NegInf) => Fin 0
  | PosInf, Fin b => if Qle_bool 0 b then PosInf else NegInf
  | NegInf, Fin b => if Qle_bool 0 b then NegInf else PosInf
  | (PosInf | NegInf), (PosInf | NegInf) => NaN
  end.

(** [x < y]; false when either side is NaN. *)
Definition num_lt (x y : number) : bool :=
  match x, y with
  | NaN, _ | _, NaN => false
  | _, NegInf | PosInf, _ => false
  | NegInf, _ | _, PosInf => true
  | Fin a, Fin b => negb (Qle_bool b a)
  end.

(** The integer part of a rational, rounding toward zero. *)
Definition Qtruncate (q : Q) : Z := Z.quot (Qnum q) (Z.pos (Qden q)).

(** ToInt16, the conversion of a store into an [Int16Array]: NaN and the
    infinities give 0; a finite number is truncated toward zero and wrapped
    modulo 2^16 into [-2^15, 2^15). *)
Definition ToInt16 (x : number) : Z :=
  match x with
  | Fin q =>
      let int16bit := (Qtruncate q mod 65536)%Z in
      if (32768 <=? int16bit)%Z then (int16bit - 65536)%Z else int16bit
  | _ => 0%Z
  end.

(** The WebIDL conversion to [unsigned long]: NaN and the infinities give
    0; a finite number is truncated toward zero and taken modulo 2^32. *)
Definition ToUint32 (x : number) : nat :=
  match x with
  | Fin q => Z.to_nat (Qtruncate q mod 4294967296)
  | _ => 0%nat
  end.

(** The number of iterations of [for (let i = 0; i < x; i++)]: the
    naturals below [x].  The loops of the adapter run on finite bounds. *)
Definition count_below (x : number) : nat :=
  match x with
  | Fin q => Z.to_nat (Qceiling q)
  | _ => 0%nat
  end.

(** *** Typed arrays over one buffer (little-endian platforms) *)

(** Elements of an [Int16Array] are integers of [-2^15, 2^15); elements of
    a [Float32Array] are numbers. *)
Abbreviation Int16Array := (list Z).
Abbreviation Float32Array := (list number).

Definition int16_of_le (lo hi : byte) : Z :=
  let u := (Z.of_N (Byte.to_N lo) + 256 * Z.of_N (Byte.to_N hi))%Z in
  if (32768 <=? u)%Z then (u - 65536)%Z else u.

Fixpoint int16s_of_bytes (bs : list byte) : Int16Array :=
  match bs with
  | lo :: hi :: rest => int16_of_le lo hi :: int16s_of_bytes rest
  | _ => []
  end.

(** [new Int16Array(buffer)]: RangeError when the byte length of the
    buffer is not a multiple of 2. *)
Definition new_Int16Array (buffer : Uint8Array) : completion Int16Array :=
  if Nat.even (length buffer)
  then Normal (int16s_of_bytes buffer)
  else Throw RangeError.

Definition le_of_int16 (z : Z) : list byte :=
  let u := (z mod 65536)%Z in
  [ToUint8 (Z.to_N (u mod 256)); ToUint8 (Z.to_N (u / 256))].

(** [new Uint8Array(pcm16.buffer)]: the bytes of the elements, low byte
    first. *)
Definition bytes_of_int16s (a : Int16Array) : Uint8Array :=
  flat_map le_of_int16 a.

End JS.

(** ** Rounding to a double (IEEE 754 binary64)

    The finite doubles are the rationals [m * 2^e] with [|m| < 2^53] and
    [e >= -1074].  An arithmetic operation returns the double nearest to the
    exact result, a tie going to the one with an even significand.  The
    exponent is bounded below, as for the subnormal numbers; it is not
    bounded above, so a result beyond [2^1024], where a double becomes
    [Infinity], is outside the model: no time in seconds comes near it. *)
Module Double.

(** [2^e], for any integer [e]. *)
Definition pow2 (e : Z) : Q := Qpower 2 e.

(** [floor (log2 |q|)], for [q] other than zero. *)
Definition ilog2 (q : Q) : Z :=
  let c := (Z.log2 (Z.abs (Qnum q)) - Z.log2 (Zpos (Qden q)))%Z in
  if Qle_bool (pow2 c) (Qabs q) then c else (c - 1)%Z.

(** The exponent of the last place of the doubles next to [q]: 52 binary
    places below its leading bit, and never below the last place of the
    subnormal numbers. *)
Definition quantum_exponent (q : Q) : Z := Z.max (ilog2 q - 52) (-1074).

(** The integer nearest to [x], a tie going to the even one. *)
Definition round_half_even (x : Q) : Z :=
  let f := Qfloor x in
  match Qcompare (x - inject_Z f) (1 # 2) with
  | Lt => f
  | Gt => (f + 1)%Z
  | Eq => if Z.even f then f else (f + 1)%Z
  end.

(** The double nearest to [q]. *)
Definition nearest (q : Q) : Q :=
  if Qeq_bool q 0 then 0%Q
  else
    let e := quantum_exponent q in
    (inject_Z (round_half_even (q / pow2 e)) * pow2 e)%Q.

(** Whether [q] is the value of a double. *)
Definition is_double (q : Q) : bool := Qeq_bool (nearest q) q.

(** Rounding: a value that is a double stays as it is. *)
Definition round (q : Q) : Q := if is_double q then q else nearest q.

(** [x + y] and [x / y] on doubles. *)
Definition add (x y : Q) : Q := round (x + y).
Definition div (x y : Q) : Q := round (x / y).

End Double.

(** ** Base64 of the HTML and Infra standards ([btoa], [atob]) *)
Module Base64.
Import JS.

(** Table 1 of RFC 4648. *)
Definition alphabet : string16 :=
  of_ascii_string
    "ABCDEFGHIJKLMNOPQRSTUVWXYZabcdefghijklmnopqrstuvwxyz0123456789+/".

Definition pad : N := 61.   (* U+003D = *)

(** The character of a 6-bit group. *)
Definition sextet_char (i : N) : N := default 0 (alphabet !! N.to_nat i).

(** The 6-bit group of a character of the alphabet. *)
Definition char_sextet (c : N) : option N :=
  (fun p => N.of_nat (fst p)) <$> list_find (fun x => x = c) alphabet.

(** Forgiving-base64 encode of a byte sequence: three bytes give four
    characters; one or two remaining bytes are padded with [=]. *)
Fixpoint b64_encode (bs : list N) : string16 :=
  match bs with
  | [] => []
  | [a] =>
      [sextet_char (a / 4); sextet_char ((a mod 4) * 16); pad; pad]
  | [a; b] =>
      [sextet_char (a / 4); sextet_char ((a mod 4) * 16 + b / 16);
       sextet_char ((b mod 16) * 4); pad]
  | a :: b :: c :: rest =>
      sextet_char (a / 4) :: sextet_char ((a mod 4) * 16 + b / 16)
      :: sextet_char ((b mod 16) * 4 + c / 64) :: sextet_char (c mod 64)
      :: b64_encode rest
  end.

(** [btoa(data)]: InvalidCharacterError when [data] has a code unit above
    U+00FF; otherwise the encoding of the bytes the code units stand for. *)
Definition btoa (data : string16) : completion string16 :=
  if forallb (fun c => c <=? 255) data
  then Normal (b64_encode data)
  else Throw InvalidCharacterError.

(** ASCII whitespace: TAB, LF, FF, CR, SPACE. *)
Definition is_ascii_whitespace (c : N) : bool :=
  (c =? 9) || (c =? 10) || (c =? 12) || (c =? 13) || (c =? 32).

Definition remove_whitespace (data : string16) : string16 :=
  List.filter (fun c => negb (is_ascii_whitespace c)) data.

(** ASCII alphanumeric, U+002B (+) or U+002F (/). *)
Definition is_base64_char (c : N) : bool :=
  ((65 <=? c) && (c <=? 90)) || ((97 <=? c) && (c <=? 122))
  || ((48 <=? c) && (c <=? 57)) || (c =? 43) || (c =? 47).

(** Step 2 of forgiving-base64 decode: when the length is a multiple of
    four, one or two trailing [=] are removed. *)
Definition strip_padding (data : string16) : string16 :=
  if (N.of_nat (length data) mod 4 =? 0)
  then match rev data with
       | p1 :: p2 :: r =>
           if p1 =? pad
           then if p2 =? pad then rev r else rev (p2 :: r)
           else data
       | [p1] => if p1 =? pad then [] else data
       | [] => data
       end
  else data.

(** The three bytes of a full 24-bit buffer. *)
Definition bytes_of_24 (buf : N) : list N :=
  [buf / 65536; (buf / 256) mod 256; buf mod 256].

(** Steps 6 to 9: the characters are read six bits at a time into a buffer
    that is flushed as three bytes whenever it holds 24 bits; 12 remaining
    bits give one byte (four bits dropped), 18 give two (two dropped). *)
Fixpoint decode_loop (cs : string16) (buf nbits : N) : list N :=
  match cs with
  | [] =>
      if nbits =? 12 then [buf / 16]
      else if nbits =? 18 then [buf / 1024; (buf / 4) mod 256]
      else []
  | c :: cs' =>
      let buf' := buf * 64 + default 0 (char_sextet c) in
      let nbits' := nbits + 6 in
      if nbits' =? 24
      then bytes_of_24 buf' ++ decode_loop cs' 0 0
      else decode_loop cs' buf' nbits'
  end.

(** Forgiving-base64 decode; [None] is the standard's failure. *)
Definition forgiving_base64_decode (data : string16) : option (list N) :=
  let data := strip_padding (remove_whitespace data) in
  if N.of_nat (length data) mod 4 =? 1 then None
  else if negb (forallb is_base64_char data) then None
  else Some (decode_loop data 0 0).

(** [atob(data)]: the decoded bytes as a string of code units below 256,
    InvalidCharacterError on failure. *)
Definition atob (data : string16) : completion string16 :=
  match forgiving_base64_decode data with
  | Some bytes => Normal bytes
  | None => Throw InvalidCharacterError
  end.

End Base64.

(** ** The Web Audio objects the adapter uses *)
Module WebAudio.
Import JS.

(** An [AudioBuffer]: [channelData] holds one [Float32Array] of
    [buffer_length] frames per channel. *)
Record AudioBuffer : Type := {
  numberOfChannels : nat;
  buffer_length : nat;
  sampleRate : Q;
  channelData : list Float32Array;
}.

(** [buffer.duration], in seconds: the length divided by the sample rate,
    as a double. *)
Definition duration (b : AudioBuffer) : Q :=
  Double.div (inject_Z (Z.of_nat (buffer_length b))) (sampleRate b).

(** [createBuffer(numberOfChannels, length, sampleRate)]: the length is
    converted to [unsigned long]; NotSupportedError when an argument is
    zero or outside its nominal range.  The ranges are the ones every
    implementation supports: 1 to 32 channels, 8000 to 96000 Hz.  An
    implementation may accept more channels or other rates, which the model
    refuses: what is stated of a refusal is stated within these ranges.
    The buffer starts silent. *)
Definition createBuffer (channels : nat) (length : number) (rate : Q)
  : completion AudioBuffer :=
  let frames := ToUint32 length in
  if (1 <=? channels)%nat && (channels <=? 32)%nat && (1 <=? frames)%nat
     && Qle_bool 8000 rate && Qle_bool rate 96000
  then Normal {| numberOfChannels := channels;
                 buffer_length := frames;
                 sampleRate := rate;
                 channelData := replicate channels (replicate frames (Fin 0)) |}
  else Throw NotSupportedError.

(** [buffer.getChannelData(channel)[i] = v]: a store outside the array is
    ignored. *)
Definition set_sample (b : AudioBuffer) (channel i : nat) (v : number)
  : AudioBuffer :=
  {| numberOfChannels := numberOfChannels b;
     buffer_length := buffer_length b;
     sampleRate := sampleRate b;
     channelData := alter (fun channelData => <[i := v]> channelData)
                      channel (channelData b) |}.

End WebAudio.

(** ** The codec adapter of [services/geminiService.ts] *)
Module Codec.
Import JS Base64 WebAudio.

(** [bytes[i]] read as a number; an index out of range reads [undefined],
    which [String.fromCharCode] turns into code unit 0. *)
Definition byte_at (bytes : Uint8Array) (i : nat) : N :=
  default 0 (Byte.to_N <$> bytes !! i).

(** [charCodeAt(i)]; out of range it is NaN, stored as 0 by ToUint8. *)
Definition charCodeAt (s : string16) (i : nat) : N := default 0 (s !! i).

(** [encode]: the bytes become a binary string, one code unit per byte,
    which [btoa] encodes. *)
Definition encode (bytes : Uint8Array) : completion string16 :=
  let len := length bytes in
  let binary :=
    for_loop len (fun binary i => binary ++ [fromCharCode (byte_at bytes i)]) [] in
  btoa binary.

(** [decode]: [atob], then each code unit is stored into a fresh
    [Uint8Array] of the same length. *)
Definition decode (base64 : string16) : completion Uint8Array :=
  binaryString ← atob base64;
  let len := length binaryString in
  let bytes : Uint8Array := replicate len x00 in
  mret (for_loop len
          (fun bytes i => <[i := ToUint8 (charCodeAt binaryString i)]> bytes)
          bytes).

(** [dataInt16[k]] as a number; [undefined] (out of range) is NaN in the
    division that follows. *)
Definition int16_at (dataInt16 : Int16Array) (k : nat) : number :=
  match dataInt16 !! k with
  | Some s => num_of_Z s
  | None => NaN
  end.

(** [decodeAudioData(data, ctx, sampleRate, numChannels)]: the bytes are
    viewed as 16-bit samples, de-interleaved channel by channel and scaled
    by [1 / 32768].  [data] covers its whole buffer, as the array [decode]
    returns does. *)
Definition decodeAudioData (data : Uint8Array) (sampleRate : Q)
  (numChannels : nat) : completion AudioBuffer :=
  dataInt16 ← new_Int16Array data;
  let frameCount := num_div (num_of_nat (length dataInt16)) (num_of_nat numChannels) in
  buffer ← createBuffer numChannels frameCount sampleRate;
  mret (for_loop numChannels
          (fun buffer channel =>
             for_loop (count_below frameCount)
               (fun buffer i =>
                  set_sample buffer channel i
                    (num_div (int16_at dataInt16 (i * numChannels + channel))
                       (Fin 32768)))
               buffer)
          buffer).

End Codec.

(** ** The capture callback of [App.tsx] *)
Module Capture.
Import JS Codec.

(** [inputData[i]]. *)
Definition sample_at (inputData : Float32Array) (i : nat) : number :=
  default NaN (inputData !! i).

(** [Math.max(-1, Math.min(1, x)) * 0x7FFF] as stored into an element of
    [pcm16]. *)
Definition quantize (x : number) : Z :=
  ToInt16 (num_mul (Math_max (Fin (-1)) (Math_min (Fin 1) x)) (Fin 32767)).

(** The loop of [onaudioprocess] that fills [pcm16]. *)
Definition pcm16_of_block (inputData : Float32Array) : Int16Array :=
  let pcm16 := replicate (length inputData) 0%Z in
  for_loop (length inputData)
    (fun pcm16 i => <[i := quantize (sample_at inputData i)]> pcm16)
    pcm16.

(** [encode(new Uint8Array(pcm16.buffer))], the payload sent to the
    session. *)
Definition capture_payload (inputData : Float32Array) : completion string16 :=
  encode (bytes_of_int16s (pcm16_of_block inputData)).

End Capture.


(** ** The voice coach of [App.tsx] and the dispatch of [connectCoach] *)
Module App.
Import JS WebAudio Codec Capture.

(** An [AudioContext], reduced to its clock (seconds). *)
Record AudioContext : Type := { currentTime : Q }.

(** An [AudioBufferSourceNode]: its buffer, whether it is connected to the
    destination, the time given to [start] and whether [stop] was called. *)
Record SourceNode : Type := {
  node_buffer : option AudioBuffer;
  connected : bool;
  startTime : option Q;
  stopped : bool;
}.

(** A live session: whether [close] was called and the frames handed to
    [sendRealtimeInput], oldest first.  What the service does with a frame
    sent after [close] is outside the model. *)
Record Session : Type := {
  closed : bool;
  outbound : list string16;
}.

(** A callback registered with [then] on the promise of a session. *)
Inductive reaction : Type :=
| CloseSession
| SendRealtimeInput (data : string16).

(** The promise [connectCoach] returns. *)
Inductive Promise : Type :=
| Pending (reactions : list reaction)
| Fulfilled (session : Session)
| Rejected.

(** React display state. *)
Record Display : Type := {
  coachActive : bool;
  isListening : bool;
  transcription : string16;
}.

(** The refs of the component and the objects they point to.  Source
    nodes and promises are objects: [nodes] and [promises] hold them by
    identity, [activeSources] (a JavaScript [Set], in insertion order) and
    [sessionPromise] hold identities. *)
Record Refs : Type := {
  audioContextIn : option AudioContext;
  audioContextOut : option AudioContext;
  sessionPromise : option nat;
  nextStartTime : Q;
  activeSources : list nat;
  nodes : list SourceNode;
  promises : list Promise;
  display : Display;
}.

Definition set_contexts (i o : option AudioContext) (st : Refs) : Refs :=
  {| audioContextIn := i; audioContextOut := o;
     sessionPromise := sessionPromise st; nextStartTime := nextStartTime st;
     activeSources := activeSources st; nodes := nodes st;
     promises := promises st; display := display st |}.

Definition set_sessionPromise (p : option nat) (st : Refs) : Refs :=
  {| audioContextIn := audioContextIn st; audioContextOut := audioContextOut st;
     sessionPromise := p; nextStartTime := nextStartTime st;
     activeSources := activeSources st; nodes := nodes st;
     promises := promises st; display := display st |}.

Definition set_nextStartTime (t : Q) (st : Refs) : Refs :=
  {| audioContextIn := audioContextIn st; audioContextOut := audioContextOut st;
     sessionPromise := sessionPromise st; nextStartTime := t;
     activeSources := activeSources st; nodes := nodes st;
     promises := promises st; display := display st |}.

Definition set_activeSources (s : list nat) (st : Refs) : Refs :=
  {| audioContextIn := audioContextIn st; audioContextOut := audioContextOut st;
     sessionPromise := sessionPromise st; nextStartTime := nextStartTime st;
     activeSources := s; nodes := nodes st;
     promises := promises st; display := display st |}.

Definition set_nodes (ns : list SourceNode) (st : Refs) : Refs :=
  {| audioContextIn := audioContextIn st; audioContextOut := audioContextOut st;
     sessionPromise := sessionPromise st; nextStartTime := nextStartTime st;
     activeSources := activeSources st; nodes := ns;
     promises := promises st; display := display st |}.

Definition set_promises (ps : list Promise) (st : Refs) : Refs :=
  {| audioContextIn := audioContextIn st; audioContextOut := audioContextOut st;
     sessionPromise := sessionPromise st; nextStartTime := nextStartTime st;
     activeSources := activeSources st; nodes := nodes st;
     promises := ps; display := display st |}.

Definition set_display (d : Display) (st : Refs) : Refs :=
  {| audioContextIn := audioContextIn st; audioContextOut := audioContextOut st;
     sessionPromise := sessionPromise st; nextStartTime := nextStartTime st;
     activeSources := activeSources st; nodes := nodes st;
     promises := promises st; display := d |}.

(** The state at mount: [useRef(null)], [useRef(0)], [useRef(new Set())]. *)
Definition initial : Refs :=
  {| audioContextIn := None; audioContextOut := None;
     sessionPromise := None; nextStartTime := 0;
     activeSources := []; nodes := []; promises := [];
     display := {| coachActive := false; isListening := false;
                   transcription := [] |} |}.

(** *** Handlers: state and exceptions

    A handler runs on the refs and completes normally or throws; what it
    stored before throwing stays stored. *)
Definition handler (A : Type) : Type := Refs -> completion A * Refs.

#[global] Instance handler_ret : MRet handler := fun A a st => (Normal a, st).
#[global] Instance handler_bind : MBind handler := fun A B k m st =>
  match m st with
  | (Normal a, st') => k a st'
  | (Throw e, st') => (Throw e, st')
  end.

Definition get : handler Refs := fun st => (Normal st, st).
Definition modify (f : Refs -> Refs) : handler unit := fun st => (Normal tt, f st).
Definition lift {A} (c : completion A) : handler A := fun st => (c, st).

(** [try { m } catch (e) { }], keeping the completion. *)
Definition attempt {A} (m : handler A) : handler (completion A) := fun st =>
  let (c, st') := m st in (Normal c, st').

(** [set.forEach(f)], in insertion order. *)
Fixpoint forEach (ids : list nat) (f : nat -> handler unit) : handler unit :=
  match ids with
  | [] => mret tt
  | id :: rest => f id;; forEach rest f
  end.

(** [set.add(x)] and [set.delete(x)]. *)
Definition Set_add (x : nat) (s : list nat) : list nat :=
  if decide (x ∈ s) then s else s ++ [x].
Definition Set_delete (x : nat) (s : list nat) : list nat :=
  List.filter (fun y => negb (Nat.eqb y x)) s.

(** *** Source nodes *)

(** [ctx.createBufferSource()], [source.buffer = buffer] and
    [source.connect(ctx.destination)]: a new node, identified by its
    position in [nodes]. *)
Definition createBufferSource (buffer : AudioBuffer) : handler nat := fun st =>
  (Normal (length (nodes st)),
   set_nodes (nodes st ++ [{| node_buffer := Some buffer; connected := true;
                              startTime := None; stopped := false |}]) st).

(** [source.start(when)]: InvalidStateError on a second call, RangeError
    on a negative time.  The node keeps the time it was given; a time that
    is already past makes the source play at once, which is a fact of the
    clock at the call and not of the node. *)
Definition source_start (id : nat) (when : Q) : handler unit := fun st =>
  match nodes st !! id with
  | None => (Throw TypeError, st)
  | Some node =>
      match startTime node with
      | Some _ => (Throw InvalidStateError, st)
      | None =>
          if Qle_bool 0 when
          then (Normal tt,
                set_nodes (<[id := {| node_buffer := node_buffer node;
                                      connected := connected node;
                                      startTime := Some when;
                                      stopped := stopped node |}]> (nodes st)) st)
          else (Throw RangeError, st)
      end
  end.

Definition mark_stopped (node : SourceNode) : SourceNode :=
  {| node_buffer := node_buffer node; connected := connected node;
     startTime := startTime node; stopped := true |}.

(** [source.stop()]: InvalidStateError before [start]. *)
Definition source_stop (id : nat) : handler unit := fun st =>
  match nodes st !! id with
  | None => (Throw TypeError, st)
  | Some node =>
      match startTime node with
      | None => (Throw InvalidStateError, st)
      | Some _ => (Normal tt, set_nodes (<[id := mark_stopped node]> (nodes st)) st)
      end
  end.

(** *** The callbacks given to [connectCoach] *)

(** [onAudio] up to its [await]: without an output context it returns;
    otherwise the cursor is raised to the clock and the payload decoded. *)
Definition onAudio_sync (base64 : string16) : handler (option AudioBuffer) :=
  st ← get;
  match audioContextOut st with
  | None => mret None
  | Some ctx =>
      modify (set_nextStartTime (Qmax (nextStartTime st) (currentTime ctx)));;
      bytes ← lift (decode base64);
      buffer ← lift (decodeAudioData bytes 24000 1);
      mret (Some buffer)
  end.

(** [onAudio] after its [await]: the chunk starts at the cursor, the
    cursor advances by its duration, the source joins the active set.  Its
    [onended] callback is {!onended} below. *)
Definition onAudio_resume (buffer : AudioBuffer) : handler unit :=
  st ← get;
  match audioContextOut st with
  | None => lift (Throw TypeError)
  | Some _ =>
      source ← createBufferSource buffer;
      st ← get;
      source_start source (nextStartTime st);;
      modify (fun st =>
        set_nextStartTime (Double.add (nextStartTime st) (duration buffer)) st);;
      modify (fun st => set_activeSources (Set_add source (activeSources st)) st)
  end.

(** [onAudio] when nothing runs between its two halves. *)
Definition onAudio (base64 : string16) : handler unit :=
  pending ← onAudio_sync base64;
  match pending with
  | None => mret tt
  | Some buffer => onAudio_resume buffer
  end.

(** [source.onended = () => activeSources.current.delete(source)]. *)
Definition onended (source : nat) : handler unit :=
  modify (fun st => set_activeSources (Set_delete source (activeSources st)) st).

Definition onInterrupted : handler unit :=
  st ← get;
  forEach (activeSources st) source_stop;;
  modify (set_activeSources []);;
  modify (set_nextStartTime 0).

Definition onTranscription (text : string16) (isInput : bool) : handler unit :=
  modify (fun st =>
    set_display {| coachActive := coachActive (display st);
                   isListening := if isInput then false else isListening (display st);
                   transcription := text |} st).

(** The model turn of a message: its [parts], each reduced to
    [inlineData?.data]; [None] is a turn without the property [parts]. *)
Record ModelTurn : Type := { parts : option (list (option string16)) }.

(** The fields of a [LiveServerMessage] that [onmessage] reads, all under
    [serverContent]: a message without [serverContent] has none of them. *)
Record LiveServerMessage : Type := {
  modelTurn : option ModelTurn;
  interrupted : bool;
  inputAudioTranscription : option string16;
  outputTranscription : option string16;
}.

(** [message.serverContent?.modelTurn?.parts[0]?.inlineData?.data]:
    [undefined] without a model turn, without a first part or without
    data in it; a TypeError when the turn has no [parts], whose element is
    read without a guard. *)
Definition first_payload (message : LiveServerMessage)
  : completion (option string16) :=
  match modelTurn message with
  | None => Normal None
  | Some turn =>
      match parts turn with
      | None => Throw TypeError
      | Some parts => Normal (mjoin (head parts))
      end
  end.

(** The data the chain yields, when it yields some; an empty [data] is
    falsy. *)
Definition inlineData (message : LiveServerMessage) : option string16 :=
  match first_payload message with
  | Normal data => data
  | Throw _ => None
  end.

Definition when_some {A} (o : option A) (f : A -> handler unit) : handler unit :=
  match o with
  | Some a => f a
  | None => mret tt
  end.

(** The first exception among completions, if any. *)
Definition first_throw (cs : list (completion unit)) : completion unit :=
  default (Normal tt) (head (List.filter (fun c => negb (is_Normal c)) cs)).

(** The statements of [onmessage] after the call of [onAudio]. *)
Definition onmessage_rest (message : LiveServerMessage) : handler unit :=
  (if interrupted message then onInterrupted else mret tt);;
  when_some (inputAudioTranscription message) (fun text => onTranscription text true);;
  when_some (outputTranscription message) (fun text => onTranscription text false).

(** [onmessage].  The condition of its first [if] is evaluated; a
    TypeError there ends [onmessage] before anything is handled.  [onAudio]
    is called, not awaited: it runs to its [await] and, whatever it does,
    the rest of [onmessage] follows; the second half of [onAudio] runs once
    [onmessage] has returned, before the next inbound event.  The
    completion is the first exception raised on the way. *)
Definition onmessage (message : LiveServerMessage) : handler unit :=
  payload ← lift (first_payload message);
  pending ←
    match payload with
    | Some (c :: data) => attempt (onAudio_sync (c :: data))
    | _ => mret (Normal None)
    end;
  rest ← attempt (onmessage_rest message);
  resumed ←
    match pending with
    | Normal (Some buffer) => attempt (onAudio_resume buffer)
    | _ => mret (Normal tt)
    end;
  lift (first_throw [pending ≫= (fun _ => Normal tt); rest; resumed]).

(** *** The session promise *)

Definition react_to (r : reaction) (s : Session) : Session :=
  match r with
  | CloseSession => {| closed := true; outbound := outbound s |}
  | SendRealtimeInput data =>
      {| closed := closed s; outbound := outbound s ++ [data] |}
  end.

(** [promise.then(r)]: on a fulfilled promise the callback runs as soon as
    the current handler returns; on a pending one it waits. *)
Definition promise_then (r : reaction) (p : Promise) : Promise :=
  match p with
  | Pending rs => Pending (rs ++ [r])
  | Fulfilled s => Fulfilled (react_to r s)
  | Rejected => Rejected
  end.

(** The session opens: the waiting callbacks run in order. *)
Definition promise_fulfil (p : Promise) : Promise :=
  match p with
  | Pending rs =>
      Fulfilled (fold_left (fun s r => react_to r s) rs
                   {| closed := false; outbound := [] |})
  | _ => p
  end.

Definition promise_reject (p : Promise) : Promise :=
  match p with
  | Pending _ => Rejected
  | _ => p
  end.

(** [sessionPromise.current?.then(r)]. *)
Definition sessionPromise_then (r : reaction) : handler unit :=
  modify (fun st =>
    match sessionPromise st with
    | Some p => set_promises (alter (promise_then r) p (promises st)) st
    | None => st
    end).

(** *** The component *)

Definition initAudio : handler unit :=
  modify (fun st =>
    match audioContextOut st with
    | None => set_contexts (Some {| currentTime := 0 |})
                (Some {| currentTime := 0 |}) st
    | Some _ => st
    end).

(** [startCoach] up to its [await] of the microphone: the contexts exist,
    the coach is active, [sessionPromise] holds the new promise. *)
Definition startCoach : handler unit :=
  initAudio;;
  modify (fun st =>
    set_display {| coachActive := true;
                   isListening := isListening (display st);
                   transcription := transcription (display st) |} st);;
  modify (fun st =>
    set_sessionPromise (Some (length (promises st)))
      (set_promises (promises st ++ [Pending []]) st)).

(** [startCoach] from its [await] on, given the completion of
    [getUserMedia]: with a stream the capture graph is built on the input
    context and the listening indicator is set; a refusal, or a missing
    input context, is caught and logged. *)
Definition startCoach_microphone (stream : completion unit) : handler unit :=
  st ← get;
  match stream, audioContextIn st with
  | Normal _, Some _ =>
      modify (fun st =>
        set_display {| coachActive := coachActive (display st);
                       isListening := true;
                       transcription := transcription (display st) |} st)
  | _, _ => mret tt
  end.

(** [processor.onaudioprocess]. *)
Definition onaudioprocess (inputData : Float32Array) : handler unit :=
  b64 ← lift (capture_payload inputData);
  sessionPromise_then (SendRealtimeInput b64).

Definition stopCoach : handler unit :=
  modify (fun st =>
    set_display {| coachActive := false;
                   isListening := isListening (display st);
                   transcription := transcription (display st) |} st);;
  sessionPromise_then CloseSession;;
  modify (set_sessionPromise None);;
  st ← get;
  forEach (activeSources st) source_stop;;
  modify (set_activeSources []).

(** *** Events

    What can happen to the component: a user action, an inbound message,
    the end of a source, a capture block, the outcome of a connection, the
    passing of time on the output clock, and the outcome of the request
    for the microphone. *)
Inductive event : Type :=
| StartCoach
| StopCoach
| Message (message : LiveServerMessage)
| Ended (source : nat)
| AudioProcess (inputData : Float32Array)
| SessionOpened (p : nat)
| SessionFailed (p : nat)
| ClockAdvance (dt : Q)
| MicrophoneOpened
| MicrophoneRefused.

(** The output clock moves on by [dt]; its reading is a double. *)
Definition advance_clock (dt : Q) (st : Refs) : Refs :=
  match audioContextOut st with
  | Some ctx =>
      set_contexts (audioContextIn st)
        (Some {| currentTime := Double.round (currentTime ctx + dt) |}) st
  | None => st
  end.

Definition run (ev : event) : handler unit :=
  match ev with
  | StartCoach => startCoach
  | StopCoach => stopCoach
  | Message message => onmessage message
  | Ended source => onended source
  | AudioProcess inputData => onaudioprocess inputData
  | SessionOpened p =>
      modify (fun st => set_promises (alter promise_fulfil p (promises st)) st)
  | SessionFailed p =>
      modify (fun st => set_promises (alter promise_reject p (promises st)) st)
  | ClockAdvance dt => modify (advance_clock dt)
  | MicrophoneOpened => startCoach_microphone (Normal tt)
  | MicrophoneRefused => startCoach_microphone (Throw NotAllowedError)
  end.

(** The refs after an event. *)
Definition after (ev : event) (st : Refs) : Refs := snd (run ev st).

(** The clock never rewinds. *)
Definition possible (ev : event) : Prop :=
  match ev with
  | ClockAdvance dt => (0 <= dt)%Q
  | _ => True
  end.

Inductive reachable : Refs -> Prop :=
| reachable_initial : reachable initial
| reachable_after ev st :
    reachable st -> possible ev -> reachable (after ev st).

(** A message with only an audio chunk. *)
Definition audio_message (base64 : string16) : LiveServerMessage :=
  {| modelTurn := Some {| parts := Some [Some base64] |};
     interrupted := false;
     inputAudioTranscription := None; outputTranscription := None |}.

(** A message with only the interruption flag. *)
Definition interruption_message : LiveServerMessage :=
  {| modelTurn := None; interrupted := true;
     inputAudioTranscription := None; outputTranscription := None |}.

End App.

(** ** The generation calls of [services/geminiService.ts] *)
Module Generation.
Import JS.

(** A parsed JSON value. *)
Inductive JSON : Type :=
| JNull
| JBool (b : bool)
| JNumber (x : number)
| JString (s : string16)
| JArray (items : list JSON)
| JObject (properties : list (string16 * JSON)).

(** The fields of a [GenerateContentResponse] the code reads; [None] is
    [undefined]. *)
Record Blob : Type := { data : option string16 }.
Record Part : Type := { inlineData : option Blob }.
Record Content : Type := { parts : option (list Part) }.
Record Candidate : Type := { content : option Content }.
Record GenerateContentResponse : Type := {
  text : option string16;
  candidates : option (list Candidate);
}.

(** [value.name] on a parsed value: TypeError on [null], [undefined]
    ([None]) when the property is missing. *)
Definition get_property (value : JSON) (name : string16) : completion (option JSON) :=
  match value with
  | JNull => Throw TypeError
  | JObject properties =>
      Normal (snd <$> List.find (fun p => bool_decide (fst p = name)) properties)
  | _ => Normal None
  end.

(** [text || fallback]: [undefined] and the empty string are falsy. *)
Definition or_else (text : option string16) (fallback : string16) : string16 :=
  match text with
  | Some (c :: s) => c :: s
  | _ => fallback
  end.

Definition quote : string16 := [34].   (* U+0022 *)

(** The literal [{"dishes":[]}]. *)
Definition no_dishes : string16 :=
  of_ascii_string "{" ++ quote ++ of_ascii_string "dishes" ++ quote
  ++ of_ascii_string ":[]}".

Definition placeholder : string16 :=
  of_ascii_string
    "https://images.unsplash.com/photo-1546069901-ba9599a7e63c?w=1200&q=80".

(** [x.p] where [x] may be [undefined]: TypeError when it is. *)
Definition defined {A} (x : option A) : completion A :=
  match x with
  | Some a => Normal a
  | None => Throw TypeError
  end.

(** The loop of [generateDishImage]: the first part with [inlineData]
    decides; with none the placeholder is returned. *)
Fixpoint first_image (parts : list Part) : string16 :=
  match parts with
  | [] => placeholder
  | part :: rest =>
      match inlineData part with
      | Some blob =>
          of_ascii_string "data:image/png;base64,"
          ++ default (of_ascii_string "undefined") (data blob)
      | None => first_image rest
      end
  end.

(** [generateDishImage] once the remote call has completed with
    [remote]: [response.candidates[0].content.parts] is read without a
    guard, then iterated. *)
Definition generateDishImage (remote : completion GenerateContentResponse)
  : completion string16 :=
  response ← remote;
  candidates ← defined (candidates response);
  candidate ← defined (candidates !! 0%nat);
  content ← defined (content candidate);
  parts ← defined (parts content);
  mret (first_image parts).

Section Parse.
(** [JSON.parse], a function of the platform. *)
Variable JSON_parse : string16 -> completion JSON.

(** [getSuggestions] once the remote call has completed. *)
Definition getSuggestions (remote : completion GenerateContentResponse)
  : completion (option JSON) :=
  response ← remote;
  value ← JSON_parse (or_else (text response) no_dishes);
  get_property value (of_ascii_string "dishes").

(** [getFullRecipe] once the remote call has completed. *)
Definition getFullRecipe (remote : completion GenerateContentResponse)
  : completion JSON :=
  response ← remote;
  JSON_parse (or_else (text response) (of_ascii_string "{}")).
End Parse.

End Generation.

(** ** The planner of [App.tsx]: the screens and their handlers *)
Module Planner.
Import JS App Generation.

(** The enumeration [AppState] of [types.ts]. *)
Inductive AppState : Type := ONBOARDING | SUGGESTING | PLANNING | COOKING.

(** The loading message, as its template and the value spliced into it:
    the initial empty string, the message of [handleFetchSuggestions], and
    the message of [handleSelectDish] with [dish.name]. *)
Inductive LoadingMsg : Type :=
| NoMessage
| CheckingPantry
| MasteringPlan (name : option JSON).

(** The [useState] values the handlers set, and what [console.error] was
    given, oldest first.  Values that come from a generation call are kept
    as received: [None] in [suggestions] is [undefined], [JNull] is
    [null]. *)
Record View : Type := {
  appState : AppState;
  suggestions : option JSON;
  selectedDish : JSON;
  recipe : JSON;
  recipeImage : option string16;
  loading : bool;
  loadingMsg : LoadingMsg;
  logged : list exn;
}.

Definition set_appState (a : AppState) (v : View) : View :=
  {| appState := a; suggestions := suggestions v;
     selectedDish := selectedDish v; recipe := recipe v;
     recipeImage := recipeImage v; loading := loading v;
     loadingMsg := loadingMsg v; logged := logged v |}.

Definition set_suggestions (s : option JSON) (v : View) : View :=
  {| appState := appState v; suggestions := s;
     selectedDish := selectedDish v; recipe := recipe v;
     recipeImage := recipeImage v; loading := loading v;
     loadingMsg := loadingMsg v; logged := logged v |}.

Definition set_selectedDish (d : JSON) (v : View) : View :=
  {| appState := appState v; suggestions := suggestions v;
     selectedDish := d; recipe := recipe v;
     recipeImage := recipeImage v; loading := loading v;
     loadingMsg := loadingMsg v; logged := logged v |}.

Definition set_recipe (r : JSON) (v : View) : View :=
  {| appState := appState v; suggestions := suggestions v;
     selectedDish := selectedDish v; recipe := r;
     recipeImage := recipeImage v; loading := loading v;
     loadingMsg := loadingMsg v; logged := logged v |}.

Definition set_recipeImage (i : option string16) (v : View) : View :=
  {| appState := appState v; suggestions := suggestions v;
     selectedDish := selectedDish v; recipe := recipe v;
     recipeImage := i; loading := loading v;
     loadingMsg := loadingMsg v; logged := logged v |}.

Definition set_loading (b : bool) (v : View) : View :=
  {| appState := appState v; suggestions := suggestions v;
     selectedDish := selectedDish v; recipe := recipe v;
     recipeImage := recipeImage v; loading := b;
     loadingMsg := loadingMsg v; logged := logged v |}.

Definition set_loadingMsg (m : LoadingMsg) (v : View) : View :=
  {| appState := appState v; suggestions := suggestions v;
     selectedDish := selectedDish v; recipe := recipe v;
     recipeImage := recipeImage v; loading := loading v;
     loadingMsg := m; logged := logged v |}.

(** [console.error(err)]. *)
Definition console_error (e : exn) (v : View) : View :=
  {| appState := appState v; suggestions := suggestions v;
     selectedDish := selectedDish v; recipe := recipe v;
     recipeImage := recipeImage v; loading := loading v;
     loadingMsg := loadingMsg v; logged := logged v ++ [e] |}.

(** The view at mount. *)
Definition initial_view : View :=
  {| appState := ONBOARDING; suggestions := Some (JArray []);
     selectedDish := JNull; recipe := JNull; recipeImage := None;
     loading := false; loadingMsg := NoMessage; logged := [] |}.

(** [handleFetchSuggestions] up to its [await]. *)
Definition handleFetchSuggestions_begin (v : View) : View :=
  set_loadingMsg CheckingPantry (set_loading true v).

(** [handleFetchSuggestions] from its [await] on, given the completion of
    [getSuggestions]: the [try] block, [catch] and [finally]. *)
Definition handleFetchSuggestions_resume (results : completion (option JSON))
  (v : View) : View :=
  set_loading false
    match results with
    | Normal results => set_appState SUGGESTING (set_suggestions results v)
    | Throw err => console_error err v
    end.

(** [handleSelectDish] up to its first [await].  [dish.name] is read for
    the message before the [try] block is entered. *)
Definition handleSelectDish_begin (dish : JSON) (v : View)
  : completion unit * View :=
  let v := set_loading true (set_selectedDish dish v) in
  match get_property dish (of_ascii_string "name") with
  | Normal name => (Normal tt, set_loadingMsg (MasteringPlan name) v)
  | Throw e => (Throw e, v)
  end.

(** [handleSelectDish] from its first [await] on, given the completion of
    [getFullRecipe]: either the handler is over, or the image call is made
    with [full.imagePrompt]. *)
Definition handleSelectDish_recipe (full : completion JSON) (v : View)
  : View * option (option JSON) :=
  match full with
  | Normal full =>
      let v := set_appState PLANNING (set_recipe full v) in
      match get_property full (of_ascii_string "imagePrompt") with
      | Normal prompt => (v, Some prompt)
      | Throw err => (set_loading false (console_error err v), None)
      end
  | Throw err => (set_loading false (console_error err v), None)
  end.

(** [handleSelectDish] from its second [await] on, given the completion of
    [generateDishImage]. *)
Definition handleSelectDish_image (img : completion string16) (v : View) : View :=
  set_loading false
    match img with
    | Normal img => set_recipeImage (Some img) v
    | Throw err => console_error err v
    end.

(** The click on "Let's Cook Together". *)
Definition startCooking (v : View) : View := set_appState COOKING v.

(** [reset]: the five setters, then [stopCoach] on the refs. *)
Definition reset (v : View) (st : Refs) : completion unit * (View * Refs) :=
  let v :=
    set_recipeImage None
      (set_recipe JNull
         (set_selectedDish JNull
            (set_suggestions (Some (JArray []))
               (set_appState ONBOARDING v)))) in
  let (c, st) := stopCoach st in
  (c, (v, st)).

Section Calls.
(** [JSON.parse], a function of the platform. *)
Variable JSON_parse : string16 -> completion JSON.

(** [handleFetchSuggestions] when nothing runs during its [await];
    [remote] is the completion of the call [getSuggestions] makes. *)
Definition handleFetchSuggestions (remote : completion GenerateContentResponse)
  (v : View) : View :=
  handleFetchSuggestions_resume (getSuggestions JSON_parse remote)
    (handleFetchSuggestions_begin v).

(** [handleSelectDish] when nothing runs during its [await]s;
    [recipe_remote] is the completion of the call [getFullRecipe] makes,
    [image_remote] that of the call [generateDishImage] makes for a
    prompt. *)
Definition handleSelectDish (recipe_remote : completion GenerateContentResponse)
  (image_remote : option JSON -> completion GenerateContentResponse)
  (dish : JSON) (v : View) : completion unit * View :=
  match handleSelectDish_begin dish v with
  | (Normal _, v) =>
      match handleSelectDish_recipe (getFullRecipe JSON_parse recipe_remote) v with
      | (v, Some prompt) =>
          (Normal tt,
           handleSelectDish_image (generateDishImage (image_remote prompt)) v)
      | (v, None) => (Normal tt, v)
      end
  | (Throw e, v) => (Throw e, v)
  end.
End Calls.

End Planner.

(** ** Auxiliary view of the doubles, used to state the lemmas on rounding *)
Module DoubleViews.
Import Double.

(** The values of the doubles, as a set: [m * 2^e] with [|m| <= 2^53]
    and [e >= -1074].  ([2^53 * 2^e] is [2^52 * 2^(e+1)].) *)
Definition representable (q : Q) : Prop :=
  exists m e : Z,
    (Z.abs m <= 2 ^ 53)%Z /\ (-1074 <= e)%Z
    /\ (q == inject_Z m * pow2 e)%Q.

End DoubleViews.

(** ** Auxiliary views of the encoder, used to state its lemmas *)
Module Base64Views.
Import JS Base64.

(** The characters of [b64_encode] without the trailing padding. *)
Fixpoint b64_body (bs : list N) : string16 :=
  match bs with
  | [] => []
  | [a] => [sextet_char (a / 4); sextet_char ((a mod 4) * 16)]
  | [a; b] =>
      [sextet_char (a / 4); sextet_char ((a mod 4) * 16 + b / 16);
       sextet_char ((b mod 16) * 4)]
  | a :: b :: c :: rest =>
      sextet_char (a / 4) :: sextet_char ((a mod 4) * 16 + b / 16)
      :: sextet_char ((b mod 16) * 4 + c / 64) :: sextet_char (c mod 64)
      :: b64_body rest
  end.

(** The padding [b64_encode] appends. *)
Fixpoint b64_padding (bs : list N) : string16 :=
  match bs with
  | [] => []
  | [_] => [pad; pad]
  | [_; _] => [pad]
  | _ :: _ :: _ :: rest => b64_padding rest
  end.

End Base64Views.

(** ** Auxiliary views of the audio buffer, used to state its lemmas *)
Module BufferViews.
Import JS WebAudio.

(** A buffer with its channel data replaced. *)
Definition with_channels (b : AudioBuffer) (cd : list Float32Array) : AudioBuffer :=
  {| numberOfChannels := numberOfChannels b;
     buffer_length := buffer_length b;
     sampleRate := sampleRate b;
     channelData := cd |}.

(** Sample [i] of channel [c], when there is one. *)
Definition sample (b : AudioBuffer) (c i : nat) : option number :=
  channelData b !! c ≫= fun ch => ch !! i.

End BufferViews.

(** ** The claims in the words of the specification

    These predicates follow the specification, not the code; they are what
    the code is compared with. *)
Module Spec.
Import JS Base64 WebAudio Codec.

(** "input length is not a multiple of 4 or contains characters outside the
    alphabet". *)
Definition malformed_payload (text : string16) : Prop :=
  N.of_nat (length text) mod 4 <> 0
  \/ Exists (fun c => is_base64_char c = false) text.

(** "byteLength is not evenly divisible by 2 * channelCount". *)
Definition invalid_audio_payload (data : Uint8Array) (channelCount : nat) : Prop :=
  (length data mod (2 * channelCount) <> 0)%nat.

(** "round(clamp(x) * 32767)", with [Math.round]: the nearest integer, a
    tie going up. *)
Definition clamp (x : Q) : Q := Qmax (-1) (Qmin 1 x).
Definition round (q : Q) : Z := Qfloor (q + (1 # 2)).
Definition pcm16_of_sample (x : Q) : Z := round (clamp x * 32767).

(** "one quantization step". *)
Definition quantization_step : Q := 1 # 32768.

End Spec.

(** ** Auxiliary views of the component, used to state its lemmas *)
Module AppViews.
Import JS WebAudio App.

(** The nodes after [stop] was called on each of [ids]. *)
Definition stopped_nodes (ids : list nat) (ns : list SourceNode) : list SourceNode :=
  fold_left (fun ns id => alter mark_stopped id ns) ids ns.

(** Every source of the active set is a node on which [start] was called. *)
Definition started_sources (st : Refs) : Prop :=
  forall id, id ∈ activeSources st ->
    exists node, nodes st !! id = Some node /\ is_Some (startTime node).

(** The cursor and the output clock hold doubles. *)
Definition timed (st : Refs) : Prop :=
  Double.is_double (nextStartTime st) = true
  /\ forall ctx, audioContextOut st = Some ctx ->
       Double.is_double (currentTime ctx) = true.

(** The invariant of the scheduler, with a lower bound [c] on the cursor:
    the cursor is at least [c] and not negative, the active sources are
    started, the output clock is not negative, and both times are
    doubles. *)
Definition above (c : Q) (st : Refs) : Prop :=
  (c <= nextStartTime st)%Q
  /\ (0 <= nextStartTime st)%Q
  /\ started_sources st
  /\ (forall ctx, audioContextOut st = Some ctx -> (0 <= currentTime ctx)%Q)
  /\ timed st.

(** The bound on the cursor once a handler has raised it to the clock. *)
Definition raised (c : Q) (st : Refs) : Q :=
  match audioContextOut st with
  | Some ctx => Qmax c (currentTime ctx)
  | None => c
  end.

(** The bound on the cursor after a message: zero after an interruption,
    the clock after an audio chunk. *)
Definition bound_after (c : Q) (message : LiveServerMessage) (st : Refs) : Q :=
  if interrupted message then 0
  else match inlineData message with
       | Some (_ :: _) => raised c st
       | _ => c
       end.

(** The node [onAudio] creates for a buffer started at [when]. *)
Definition scheduled_node (buffer : AudioBuffer) (when : Q) : SourceNode :=
  {| node_buffer := Some buffer; connected := true;
     startTime := Some when; stopped := false |}.

(** An event whose message carries the interruption flag. *)
Definition interrupts (ev : event) : Prop :=
  match ev with
  | Message message => interrupted message = true
  | _ => False
  end.

(** The refs after a sequence of events, from the initial state. *)
Definition after_all (evs : list event) : Refs :=
  fold_left (fun st ev => after ev st) evs initial.

End AppViews.

(** ** Auxiliary views of the schedule, used to state its lemmas *)
Module SchedulerViews.
Import JS WebAudio App.

(** Source [id] was started at [s] on a buffer that lasts [d]. *)
Definition scheduled (ns : list SourceNode) (id : nat) (s d : Q) : Prop :=
  exists node buffer,
    ns !! id = Some node
    /\ startTime node = Some s
    /\ node_buffer node = Some buffer
    /\ duration buffer = d.

(** Source [a] was given an end, its start plus its duration as the code
    adds them, that is not after the start given to source [b]. *)
Definition before (ns : list SourceNode) (a b : nat) : Prop :=
  forall sa da sb db,
    scheduled ns a sa da -> scheduled ns b sb db ->
    (Double.add sa da <= sb)%Q.

(** Every element is related to all the later ones. *)
Fixpoint pairwise {A} (R : A -> A -> Prop) (l : list A) : Prop :=
  match l with
  | [] => True
  | x :: rest => Forall (R x) rest /\ pairwise R rest
  end.

(** The schedule held by a cursor, an active set and the nodes: the set
    has no duplicate, each of its sources was given a start that is not
    negative and an end that is not after the cursor, and the sources
    follow one another in the order of the set. *)
Definition orderly_of (cursor : Q) (active : list nat) (ns : list SourceNode)
  : Prop :=
  NoDup active
  /\ (forall id, id ∈ active ->
        exists s d,
          scheduled ns id s d
          /\ (0 <= s)%Q /\ (0 <= d)%Q /\ (Double.add s d <= cursor)%Q)
  /\ pairwise (before ns) active.

Definition orderly (st : Refs) : Prop :=
  orderly_of (nextStartTime st) (activeSources st) (nodes st).

(** Two states with the same contexts and the same session promise. *)
Definition same_session (st st' : Refs) : Prop :=
  audioContextIn st' = audioContextIn st
  /\ audioContextOut st' = audioContextOut st
  /\ sessionPromise st' = sessionPromise st
  /\ promises st' = promises st.

(** The frames a reaction list sends, oldest first. *)
Definition sent_by (rs : list reaction) : list string16 :=
  flat_map (fun r => match r with
                     | SendRealtimeInput data => [data]
                     | CloseSession => []
                     end) rs.

(** The refs after a run of capture blocks. *)
Definition after_blocks (blocks : list Float32Array) (st : Refs) : Refs :=
  fold_left (fun st inputData => after (AudioProcess inputData) st) blocks st.

End SchedulerViews.

(** ** Lemmas on the platform models *)

(** ** Rounding to a double *)
Section DoubleLemmas.
Import Double DoubleViews.
Local Open Scope Q_scope.

Lemma Qabs_cases (x : Q) :
  (0 <= x /\ Qabs x == x) \/ (x <= 0 /\ Qabs x == - x).
Proof.
destruct (Qlt_le_dec x 0) as [H|H].
- right. split; [lra|]. apply Qabs_neg. lra.
- left. split; [exact H|]. now apply Qabs_pos.
Qed.

Lemma pow2_pos (e : Z) : 0 < pow2 e.
Proof. apply Qpower_0_lt. reflexivity. Qed.

Lemma pow2_add (a b : Z) : pow2 (a + b) == pow2 a * pow2 b.
Proof. apply Qpower_plus. discriminate. Qed.

Lemma pow2_le (a b : Z) : (a <= b)%Z -> pow2 a <= pow2 b.
Proof. intros H. apply Qpower_le_compat_l; [exact H|discriminate]. Qed.

Lemma pow2_lt (a b : Z) : (a < b)%Z -> pow2 a < pow2 b.
Proof. intros H. apply Qpower_lt_compat_l; [exact H|reflexivity]. Qed.

Lemma pow2_succ (a : Z) : pow2 (a + 1) == 2 * pow2 a.
Proof. rewrite pow2_add. change (pow2 1) with 2. ring. Qed.

Lemma pow2_Z (e : Z) : (0 <= e)%Z -> pow2 e == inject_Z (2 ^ e).
Proof. intros H. unfold pow2. now rewrite Zpower_Qpower. Qed.

Lemma ilog2_spec (q : Q) :
  ~ q == 0 -> pow2 (ilog2 q) <= Qabs q /\ Qabs q < pow2 (ilog2 q + 1).
Proof.
intros Hq. unfold ilog2.
set (n := Z.abs (Qnum q)). set (d := Zpos (Qden q)).
assert (Hn : (0 < n)%Z).
{ unfold n. destruct q as [[|p|p] dq]; cbn; try lia.
  exfalso. apply Hq. reflexivity. }
assert (Hd : (0 < d)%Z) by (unfold d; lia).
destruct (Z.log2_spec n Hn) as [Ha1 Ha2].
destruct (Z.log2_spec d Hd) as [Hb1 Hb2].
set (a := Z.log2 n) in *. set (b := Z.log2 d) in *.
assert (Ha0 : (0 <= a)%Z) by apply Z.log2_nonneg.
assert (Hb0 : (0 <= b)%Z) by apply Z.log2_nonneg.
assert (Habs : Qabs q * inject_Z d == inject_Z n).
{ destruct q as [nq dq]. unfold n, d, Qabs, Qeq, Qmult, inject_Z. cbn. lia. }
assert (HD : 0 < inject_Z d) by (change 0 with (inject_Z 0); now rewrite <- Zlt_Qlt).
rewrite Zle_Qle, <- pow2_Z in Ha1, Hb1 by assumption.
rewrite Zlt_Qlt, <- pow2_Z in Ha2, Hb2 by lia.
replace (Z.succ a) with (a + 1)%Z in Ha2 by lia.
replace (Z.succ b) with (b + 1)%Z in Hb2 by lia.
rewrite pow2_succ in Ha2, Hb2.
assert (Hc : pow2 a == pow2 (a - b) * pow2 b)
  by (rewrite <- pow2_add; apply Qpower_comp; [reflexivity|lia]).
pose proof (pow2_pos (a - b)) as Hp.
pose proof (pow2_pos b) as Hpb.
assert (Hlo : pow2 (a - b - 1) <= Qabs q).
{ assert (E : pow2 (a - b) == 2 * pow2 (a - b - 1))
    by (rewrite <- pow2_succ; apply Qpower_comp; [reflexivity|lia]).
  pose proof (pow2_pos (a - b - 1)) as Hp1.
  destruct (Qlt_le_dec (Qabs q) (pow2 (a - b - 1))) as [H|H]; [|exact H].
  exfalso.
  assert (Qabs q * inject_Z d < pow2 (a - b - 1) * inject_Z d)
    by (apply Qmult_lt_compat_r; assumption).
  assert (pow2 (a - b - 1) * inject_Z d <= pow2 (a - b - 1) * (2 * pow2 b))
    by (apply Qmult_le_l; [assumption|lra]).
  nra. }
assert (Hhi : Qabs q < pow2 (a - b + 1)).
{ rewrite pow2_succ.
  destruct (Qlt_le_dec (Qabs q) (2 * pow2 (a - b))) as [H|H]; [exact H|].
  exfalso.
  assert (2 * pow2 (a - b) * inject_Z d <= Qabs q * inject_Z d)
    by (apply Qmult_le_compat_r; lra).
  assert (2 * pow2 (a - b) * pow2 b <= 2 * pow2 (a - b) * inject_Z d)
    by (apply Qmult_le_l; lra).
  nra. }
destruct (Qle_bool (pow2 (a - b)) (Qabs q)) eqn:E.
- apply Qle_bool_iff in E. split; assumption.
- split; [exact Hlo|].
  replace (a - b - 1 + 1)%Z with (a - b)%Z by lia.
  destruct (Qlt_le_dec (Qabs q) (pow2 (a - b))) as [H|H]; [exact H|].
  apply Qle_bool_iff in H. congruence.
Qed.

(** [ilog2] is determined by the value. *)
Lemma ilog2_unique (q : Q) (c : Z) :
  pow2 c <= Qabs q -> Qabs q < pow2 (c + 1) -> ilog2 q = c.
Proof.
intros H1 H2.
assert (Hq : ~ q == 0).
{ intros E. rewrite E in H1. pose proof (pow2_pos c).
  change (Qabs 0) with 0 in H1. lra. }
destruct (ilog2_spec q Hq) as [H3 H4].
assert (pow2 c < pow2 (ilog2 q + 1)) by lra.
assert (pow2 (ilog2 q) < pow2 (c + 1)) by lra.
apply Qpower_lt_compat_l_inv in H, H0; try reflexivity. lia.
Qed.

Lemma ilog2_comp (x y : Q) : x == y -> ~ x == 0 -> ilog2 x = ilog2 y.
Proof.
intros E Hx. symmetry. destruct (ilog2_spec x Hx) as [H1 H2].
apply ilog2_unique; now rewrite <- E.
Qed.

Lemma round_half_even_near (x : Q) :
  Qabs (inject_Z (round_half_even x) - x) <= 1 # 2.
Proof.
unfold round_half_even.
pose proof (Qfloor_le x) as H1. pose proof (Qlt_floor x) as H2.
rewrite inject_Z_plus in H2. change (inject_Z 1) with 1 in H2.
set (f := Qfloor x) in *.
destruct (Qcompare_spec (x - inject_Z f) (1 # 2)) as [E|E|E].
- destruct (Z.even f); [|rewrite inject_Z_plus; change (inject_Z 1) with 1];
    apply Qabs_Qle_condition; split; lra.
- apply Qabs_Qle_condition; split; lra.
- rewrite inject_Z_plus. change (inject_Z 1) with 1.
  apply Qabs_Qle_condition; split; lra.
Qed.

Lemma round_half_even_comp (x y : Q) :
  x == y -> round_half_even x = round_half_even y.
Proof.
intros E. unfold round_half_even.
rewrite (Qfloor_comp x y E).
replace (Qcompare (x - inject_Z (Qfloor y)) (1 # 2))
  with (Qcompare (y - inject_Z (Qfloor y)) (1 # 2)); [reflexivity|].
apply Qcompare_comp; [now rewrite E|reflexivity].
Qed.

(** The nearest integer is at least as near as any other. *)
Lemma round_half_even_optimal (x : Q) (k : Z) :
  Qabs (inject_Z (round_half_even x) - x) <= Qabs (inject_Z k - x).
Proof.
pose proof (round_half_even_near x) as Hn.
set (n := round_half_even x) in *.
destruct (Z.eq_dec k n) as [->|Hk]; [apply Qle_refl|].
apply Qle_trans with (1 # 2); [exact Hn|].
apply Qabs_Qle_condition in Hn.
assert (Hcase : (k + 1 <= n)%Z \/ (n + 1 <= k)%Z) by lia.
destruct Hcase as [H|H]; rewrite Zle_Qle, inject_Z_plus in H;
  change (inject_Z 1) with 1 in H;
  destruct (Qabs_cases (inject_Z k - x)) as [[? ->]|[? ->]]; lra.
Qed.

Lemma quantum_exponent_comp (x y : Q) :
  x == y -> ~ x == 0 -> quantum_exponent x = quantum_exponent y.
Proof. intros E Hx. unfold quantum_exponent. now rewrite (ilog2_comp x y E Hx). Qed.

Lemma nearest_zero (q : Q) : q == 0 -> nearest q = 0.
Proof.
intros E. unfold nearest. apply Qeq_bool_iff in E. now rewrite E.
Qed.

Lemma nearest_unfold (q : Q) :
  ~ q == 0 ->
  nearest q
  = inject_Z (round_half_even (q / pow2 (quantum_exponent q)))
    * pow2 (quantum_exponent q).
Proof.
intros Hq. unfold nearest.
destruct (Qeq_bool q 0) eqn:E; [|reflexivity].
apply Qeq_bool_iff in E. contradiction.
Qed.

Lemma nearest_comp (x y : Q) : x == y -> nearest x == nearest y.
Proof.
intros E. destruct (Qeq_dec x 0) as [Hx|Hx].
- rewrite (nearest_zero x Hx), (nearest_zero y); [reflexivity|].
  now rewrite <- E.
- assert (Hy : ~ y == 0) by now rewrite <- E.
  rewrite (nearest_unfold x Hx), (nearest_unfold y Hy).
  rewrite <- (quantum_exponent_comp x y E Hx).
  rewrite (round_half_even_comp (x / pow2 (quantum_exponent x))
             (y / pow2 (quantum_exponent x))); [reflexivity|].
  apply Qdiv_comp; [exact E|reflexivity].
Qed.

(** On the grid of [q], the rounded value is at least as near as any
    other multiple of the quantum. *)
Lemma nearest_grid (q : Q) (k : Z) :
  ~ q == 0 ->
  Qabs (nearest q - q)
  <= Qabs (inject_Z k * pow2 (quantum_exponent q) - q).
Proof.
intros Hq. rewrite (nearest_unfold q Hq).
set (P := pow2 (quantum_exponent q)).
pose proof (pow2_pos (quantum_exponent q)) as HP. fold P in HP.
pose proof (round_half_even_optimal (q / P) k) as H.
set (n := round_half_even (q / P)) in *.
assert (Escale : forall z : Z,
  Qabs (inject_Z z * P - q) == Qabs (inject_Z z - q / P) * P).
{ intros z.
  transitivity (Qabs ((inject_Z z - q / P) * P)).
  - apply Qabs_wd. field. lra.
  - rewrite Qabs_Qmult. apply Qmult_comp; [reflexivity|]. apply Qabs_pos. lra. }
rewrite !Escale. apply Qmult_le_compat_r; [exact H|lra].
Qed.

(** The rounded value is at least as near as any double. *)
Lemma nearest_optimal (q f : Q) :
  representable f -> Qabs (nearest q - q) <= Qabs (f - q).
Proof.
intros (m & e' & Hm & He' & Ef).
destruct (Qeq_dec q 0) as [Hq|Hq].
{ rewrite (nearest_zero q Hq).
  apply Qle_trans with 0; [|apply Qabs_nonneg].
  destruct (Qabs_cases (0 - q)) as [[? ->]|[? ->]]; lra. }
set (e := quantum_exponent q).
destruct (Z.le_gt_cases e e') as [Hle|Hgt].
- (* [f] is on the grid *)
  assert (Ek : f == inject_Z (m * 2 ^ (e' - e)) * pow2 e).
  { rewrite Ef, inject_Z_mult, <- pow2_Z by lia.
    rewrite <- Qmult_assoc, <- pow2_add.
    replace (e' - e + e)%Z with e' by lia. reflexivity. }
  rewrite Ek. apply nearest_grid, Hq.
- (* [f] is below the binade of [q] *)
  assert (He : e = (ilog2 q - 52)%Z) by (unfold e, quantum_exponent in *; lia).
  destruct (ilog2_spec q Hq) as [Hlo _].
  assert (Hf : Qabs f <= pow2 (ilog2 q)).
  { rewrite Ef, Qabs_Qmult, (Qabs_pos (pow2 e')) by (pose proof (pow2_pos e'); lra).
    apply Qle_trans with (pow2 53 * pow2 e').
    - apply Qmult_le_compat_r; [|pose proof (pow2_pos e'); lra].
      rewrite pow2_Z by lia.
      change (Qabs (inject_Z m)) with (inject_Z (Z.abs m)).
      rewrite <- Zle_Qle. exact Hm.
    - rewrite <- pow2_add. apply pow2_le. lia. }
  assert (EG : pow2 (ilog2 q) == inject_Z (2 ^ 52) * pow2 e).
  { rewrite <- pow2_Z, <- pow2_add by lia.
    apply Qpower_comp; [reflexivity|lia]. }
  destruct (Qabs_cases q) as [[Hs Eq]|[Hs Eq]].
  + apply Qle_trans with (Qabs (inject_Z (2 ^ 52) * pow2 e - q)).
    * apply nearest_grid, Hq.
    * rewrite <- EG. rewrite Eq in Hlo.
      destruct (Qabs_cases f) as [[? Ef']|[? Ef']]; rewrite Ef' in Hf;
        destruct (Qabs_cases (pow2 (ilog2 q) - q)) as [[? ->]|[? ->]];
        destruct (Qabs_cases (f - q)) as [[? ->]|[? ->]]; lra.
  + apply Qle_trans with (Qabs (inject_Z (- 2 ^ 52) * pow2 e - q)).
    * apply nearest_grid, Hq.
    * rewrite inject_Z_opp.
      assert (EG' : - inject_Z (2 ^ 52) * pow2 e - q == - pow2 (ilog2 q) - q)
        by (rewrite EG; ring).
      rewrite (Qabs_wd _ _ EG').
      rewrite Eq in Hlo.
      destruct (Qabs_cases f) as [[? Ef']|[? Ef']]; rewrite Ef' in Hf;
        destruct (Qabs_cases (- pow2 (ilog2 q) - q)) as [[? ->]|[? ->]];
        destruct (Qabs_cases (f - q)) as [[? ->]|[? ->]]; lra.
Qed.

Lemma representable_comp (x y : Q) :
  x == y -> representable x -> representable y.
Proof.
intros E (m & e & Hm & He & Ex). exists m, e.
split; [exact Hm|]. split; [exact He|]. now rewrite <- E.
Qed.

Lemma representable_zero : representable 0.
Proof. exists 0%Z, 0%Z. split; [cbn; lia|]. split; [lia|reflexivity]. Qed.

(** Rounding gives a double. *)
Lemma nearest_representable (q : Q) : representable (nearest q).
Proof.
destruct (Qeq_dec q 0) as [Hq|Hq].
{ rewrite (nearest_zero q Hq). apply representable_zero. }
rewrite (nearest_unfold q Hq).
set (e := quantum_exponent q). set (P := pow2 e).
exists (round_half_even (q / P)), e.
split; [|split; [unfold e, quantum_exponent; lia|reflexivity]].
pose proof (pow2_pos e) as HP. fold P in HP.
destruct (ilog2_spec q Hq) as [_ Hhi].
assert (Hx : Qabs (q / P) < pow2 53).
{ assert (Hle : pow2 (ilog2 q + 1) <= pow2 53 * P).
  { unfold P. rewrite <- pow2_add. apply pow2_le.
    unfold e, quantum_exponent. lia. }
  unfold Qdiv. rewrite Qabs_Qmult, (Qabs_pos (/ P))
    by (apply Qlt_le_weak, Qinv_lt_0_compat, HP).
  apply Qlt_shift_div_r; [exact HP|]. lra. }
pose proof (round_half_even_near (q / P)) as Hn.
set (n := round_half_even (q / P)) in *.
rewrite pow2_Z in Hx by lia.
apply Qabs_Qle_condition in Hn.
destruct (Z.le_gt_cases (Z.abs n) (2 ^ 53)) as [H|H]; [exact H|exfalso].
assert (Hcase : (2 ^ 53 + 1 <= n)%Z \/ (n + 1 <= - 2 ^ 53)%Z) by lia.
destruct Hcase as [Hc|Hc]; rewrite Zle_Qle, inject_Z_plus in Hc;
  change (inject_Z 1) with 1 in Hc; try rewrite inject_Z_opp in Hc;
  destruct (Qabs_cases (q / P)) as [[? Ea]|[? Ea]]; rewrite Ea in Hx; lra.
Qed.

(** A double rounds to itself. *)
Lemma nearest_fixed (f : Q) : representable f -> nearest f == f.
Proof.
intros Hf. pose proof (nearest_optimal f f Hf) as H.
assert (E0 : Qabs (f - f) == 0)
  by (destruct (Qabs_cases (f - f)) as [[? ->]|[? ->]]; lra).
rewrite E0 in H.
destruct (Qabs_cases (nearest f - f)) as [[? E]|[? E]]; rewrite E in H; lra.
Qed.

Lemma is_double_spec (q : Q) : is_double q = true <-> representable q.
Proof.
unfold is_double. rewrite Qeq_bool_iff. split.
- intros E. apply (representable_comp (nearest q) q E), nearest_representable.
- apply nearest_fixed.
Qed.

Lemma is_double_comp (x y : Q) : x == y -> is_double x = is_double y.
Proof.
intros E. apply eq_true_iff_eq. rewrite !is_double_spec.
split; apply representable_comp; [exact E|symmetry; exact E].
Qed.

Lemma round_nearest (q : Q) : round q == nearest q.
Proof.
unfold round. destruct (is_double q) eqn:E; [|reflexivity].
symmetry. now apply Qeq_bool_iff.
Qed.

Lemma round_id (q : Q) : is_double q = true -> round q = q.
Proof. intros E. unfold round. now rewrite E. Qed.

Lemma is_double_round (q : Q) : is_double (round q) = true.
Proof.
apply is_double_spec.
apply (representable_comp (nearest q)); [symmetry; apply round_nearest|].
apply nearest_representable.
Qed.

Lemma round_comp (x y : Q) : x == y -> round x == round y.
Proof. intros E. rewrite !round_nearest. now apply nearest_comp. Qed.

(** Rounding is monotone. *)
Lemma round_monotone (x y : Q) : x <= y -> round x <= round y.
Proof.
intros Hxy. rewrite !round_nearest.
destruct (Qlt_le_dec (nearest y) (nearest x)) as [Hlt|Hle]; [exfalso|exact Hle].
destruct (Qeq_dec x y) as [E|Hne].
{ rewrite (nearest_comp x y E) in Hlt. lra. }
assert (Hx : x < y) by (destruct (Qlt_le_dec x y); [assumption|]; exfalso; apply Hne; lra).
pose proof (nearest_optimal x (nearest y) (nearest_representable y)) as H1.
pose proof (nearest_optimal y (nearest x) (nearest_representable x)) as H2.
set (a := nearest x) in *. set (b := nearest y) in *.
destruct (Qabs_cases (a - x)) as [[? E1]|[? E1]]; rewrite E1 in H1;
  destruct (Qabs_cases (b - x)) as [[? E2]|[? E2]]; rewrite E2 in H1;
  destruct (Qabs_cases (b - y)) as [[? E3]|[? E3]]; rewrite E3 in H2;
  destruct (Qabs_cases (a - y)) as [[? E4]|[? E4]]; rewrite E4 in H2; lra.
Qed.

Lemma round_zero : round 0 = 0.
Proof. reflexivity. Qed.

Lemma round_nonneg (q : Q) : 0 <= q -> 0 <= round q.
Proof. intros H. rewrite <- round_zero. now apply round_monotone. Qed.

(** Rounding does not go below a double that is below. *)
Lemma round_ge (f q : Q) : is_double f = true -> f <= q -> f <= round q.
Proof.
intros Hf Hq. rewrite <- (round_id f Hf). now apply round_monotone.
Qed.

Lemma round_le (f q : Q) : is_double f = true -> q <= f -> round q <= f.
Proof.
intros Hf Hq. rewrite <- (round_id f Hf). now apply round_monotone.
Qed.

Lemma is_double_max (x y : Q) :
  is_double x = true -> is_double y = true -> is_double (Qmax x y) = true.
Proof.
intros Hx Hy. destruct (Q.max_spec x y) as [[_ E]|[_ E]];
  rewrite (is_double_comp _ _ E); assumption.
Qed.

(** Adding to zero is exact. *)
Lemma add_zero_l (d : Q) :
  is_double d = true -> Double.add 0 d = (0 + d)%Q.
Proof.
intros Hd. unfold Double.add. apply round_id.
rewrite (is_double_comp (0 + d) d); [exact Hd|ring].
Qed.

(** The relative error of rounding, above the subnormal numbers. *)
Lemma round_error (q : Q) :
  pow2 (-1022) <= Qabs q ->
  Qabs (round q - q) <= Qabs q * pow2 (-53).
Proof.
intros Hnormal.
assert (Hq : ~ q == 0).
{ intros E. rewrite E in Hnormal. pose proof (pow2_pos (-1022)).
  change (Qabs 0) with 0 in Hnormal. lra. }
rewrite (Qabs_wd _ _ (Qplus_comp _ _ (round_nearest q) _ _ (Qeq_refl (- q)))).
destruct (ilog2_spec q Hq) as [Hlo Hhi].
assert (Hl : (-1022 <= ilog2 q)%Z).
{ assert (H : pow2 (-1022) < pow2 (ilog2 q + 1)) by lra.
  apply Qpower_lt_compat_l_inv in H; [lia|reflexivity]. }
assert (He : quantum_exponent q = (ilog2 q - 52)%Z)
  by (unfold quantum_exponent; lia).
rewrite (nearest_unfold q Hq), He.
set (P := pow2 (ilog2 q - 52)).
pose proof (pow2_pos (ilog2 q - 52)) as HP. fold P in HP.
pose proof (round_half_even_near (q / P)) as Hn.
set (n := round_half_even (q / P)) in *.
assert (Escale : Qabs (inject_Z n * P - q) == Qabs (inject_Z n - q / P) * P).
{ transitivity (Qabs ((inject_Z n - q / P) * P)).
  - apply Qabs_wd. field. lra.
  - rewrite Qabs_Qmult. apply Qmult_comp; [reflexivity|]. apply Qabs_pos. lra. }
rewrite Escale.
assert (EP : pow2 (ilog2 q) * pow2 (-53) == (1 # 2) * P).
{ unfold P. rewrite <- pow2_add.
  replace (ilog2 q + -53)%Z with (-1 + (ilog2 q - 52))%Z by lia.
  rewrite pow2_add. reflexivity. }
apply Qle_trans with ((1 # 2) * P).
- apply Qmult_le_compat_r; [exact Hn|lra].
- rewrite <- EP. apply Qmult_le_compat_r; [exact Hlo|].
  apply Qlt_le_weak, pow2_pos.
Qed.
End DoubleLemmas.

Lemma forallb_false_Exists {A} (p : A -> bool) (l : list A) :
  forallb p l = false -> Exists (fun x => p x = false) l.
Proof.
induction l as [|x l IH]; cbn; [discriminate|].
destruct (p x) eqn:Hx; intros H.
- apply Exists_cons_tl. now apply IH.
- now apply Exists_cons_hd.
Qed.

Section CompletionLemmas.
Import JS.
Context {A B : Type}.

Lemma bind_Normal (a : A) (k : A -> completion B) : Normal a ≫= k = k a.
Proof. reflexivity. Qed.

Lemma bind_Throw (e : exn) (k : A -> completion B) : Throw e ≫= k = Throw e.
Proof. reflexivity. Qed.
End CompletionLemmas.

Section LoopLemmas.
Import JS.
Context {A : Type}.

(** A loop that appends [f i] at step [i] builds [map f (seq 0 n)]. *)
Lemma for_loop_snoc (f : nat -> A) (n : nat) :
  for_loop n (fun acc i => acc ++ [f i]) [] = map f (seq 0 n).
Proof.
  unfold for_loop. induction n as [|n IH]; [reflexivity|].
  rewrite seq_S, fold_left_app, IH, map_app. reflexivity.
Qed.

(** A loop that stores [f i] at index [i] of an array of length [n]
    overwrites the whole array. *)
Lemma for_loop_fill_prefix (f : nat -> A) (init : list A) (k : nat) :
  (k <= length init)%nat ->
  for_loop k (fun a i => <[i := f i]> a) init
  = map f (seq 0 k) ++ drop k init.
Proof.
  unfold for_loop. induction k as [|k IH]; intros Hk.
  - simpl. now rewrite drop_0.
  - rewrite seq_S, fold_left_app, IH by lia. simpl.
    rewrite map_app. simpl.
    assert (Hlen : length (map f (seq 0 k)) = k)
      by now rewrite length_map, length_seq.
    destruct (drop k init) as [|x rest] eqn:Hd.
    + apply (f_equal length) in Hd. rewrite length_drop in Hd. simpl in Hd. lia.
    + rewrite insert_app_r_alt by lia. rewrite Hlen, Nat.sub_diag. simpl.
      rewrite <- app_assoc. simpl. do 2 f_equal.
      replace (S k) with (k + 1)%nat by lia.
      rewrite <- drop_drop, Hd. reflexivity.
Qed.

Lemma for_loop_fill (f : nat -> A) (init : list A) :
  for_loop (length init) (fun a i => <[i := f i]> a) init
  = map f (seq 0 (length init)).
Proof.
  rewrite for_loop_fill_prefix by lia.
  now rewrite drop_all, app_nil_r.
Qed.

(** Reading every index of a list visits its elements in order. *)
Lemma map_lookup_seq {B} (g : option A -> B) (h : A -> B) (l : list A) :
  (forall x, g (Some x) = h x) ->
  map (fun i => g (l !! i)) (seq 0 (length l)) = map h l.
Proof.
  intros Hg. apply list_eq. intros i.
  rewrite !list_lookup_fmap.
  destruct (decide (i < length l)%nat) as [Hi|Hi].
  - rewrite lookup_seq_lt by lia. simpl.
    destruct (lookup_lt_is_Some_2 l i Hi) as [x Hx]. now rewrite Hx, Hg.
  - rewrite lookup_seq_ge by lia. simpl.
    rewrite (proj2 (lookup_ge_None l i)) by lia. reflexivity.
Qed.
(** Stores beyond the end of the array are ignored. *)
Lemma for_loop_fill_over (f : nat -> A) (init : list A) (m : nat) :
  (length init <= m)%nat ->
  for_loop m (fun a i => <[i := f i]> a) init
  = map f (seq 0 (length init)).
Proof.
intros Hm. unfold for_loop.
replace m with (length init + (m - length init))%nat by lia.
rewrite seq_app, fold_left_app.
fold (for_loop (length init) (fun a i => <[i := f i]> a) init).
rewrite for_loop_fill. cbn [Nat.add].
assert (Hlen : (length (map f (seq 0 (length init))) <= length init)%nat)
  by now rewrite length_map, length_seq.
revert Hlen. generalize (map f (seq 0 (length init))) as l.
generalize (m - length init)%nat as k. generalize (length init) as n.
intros n k. revert n. induction k as [|k IH]; intros n l Hl; [reflexivity|].
cbn [seq fold_left]. rewrite list_insert_ge by lia. apply IH. lia.
Qed.

Lemma for_loop_ext (n : nat) (f g : A -> nat -> A) (init : A) :
  (forall a i, f a i = g a i) ->
  for_loop n f init = for_loop n g init.
Proof.
intros Hfg. unfold for_loop. generalize 0%nat as start. revert init.
induction n as [|n IH]; intros init start; [reflexivity|].
cbn [seq fold_left]. rewrite Hfg. apply IH.
Qed.

Lemma for_loop_S (n : nat) (f : A -> nat -> A) (init : A) :
  for_loop (S n) f init = f (for_loop n f init) n.
Proof. unfold for_loop. now rewrite seq_S, fold_left_app. Qed.

End LoopLemmas.

(** A loop that alters element [c] at step [c] applies each alteration to
    the initial element. *)
Lemma for_loop_alter_lookup {A} (G : nat -> A -> A) (init : list A) (n c : nat) :
  JS.for_loop n (fun l c => alter (G c) c l) init !! c
  = if (c <? n)%nat then G c <$> init !! c else init !! c.
Proof.
induction n as [|n IH]; [reflexivity|].
rewrite for_loop_S.
destruct (decide (c = n)) as [->|Hne].
- rewrite list_lookup_alter_eq, IH.
  destruct (Nat.ltb_spec n n), (Nat.ltb_spec n (S n)); try reflexivity; lia.
- rewrite list_lookup_alter_ne by congruence. rewrite IH.
  destruct (Nat.ltb_spec c n), (Nat.ltb_spec c (S n)); try reflexivity; lia.
Qed.


Section Base64Lemmas.
Import JS Base64.

(** A property checked on every number below a bound. *)
Lemma N_below_forallb (P : N -> bool) (n : nat) :
  forallb P (map N.of_nat (seq 0 n)) = true ->
  forall i, i < N.of_nat n -> P i = true.
Proof.
  intros H i Hi. rewrite forallb_forall in H. apply H.
  apply in_map_iff. exists (N.to_nat i). split; [lia|].
  apply in_seq. lia.
Qed.

Lemma char_sextet_sextet_char (i : N) :
  i < 64 -> char_sextet (sextet_char i) = Some i.
Proof.
  intros Hi.
  pose proof (N_below_forallb
    (fun i => match char_sextet (sextet_char i) with
              | Some j => j =? i | None => false end) 64) as H.
  specialize (H eq_refl i Hi). simpl in H.
  destruct (char_sextet (sextet_char i)); [|discriminate].
  apply N.eqb_eq in H. now subst.
Qed.

Lemma is_base64_char_sextet_char (i : N) :
  i < 64 -> is_base64_char (sextet_char i) = true.
Proof.
  intros Hi.
  exact (N_below_forallb (fun i => is_base64_char (sextet_char i)) 64
           eq_refl i Hi).
Qed.

(** The characters of the alphabet are exactly those [atob] accepts. *)
Lemma is_base64_char_sextet (c : N) :
  is_base64_char c = true <-> is_Some (char_sextet c).
Proof.
  destruct (N.ltb_spec c 123) as [Hc|Hc].
  - pose proof (N_below_forallb
      (fun c => Bool.eqb (is_base64_char c)
                  (match char_sextet c with Some _ => true | None => false end))
      123 eq_refl c Hc) as H.
    simpl in H. apply Bool.eqb_prop in H. rewrite H.
    destruct (char_sextet c); split; intros H'; done.
  - split.
    + unfold is_base64_char. intros H.
      repeat (apply orb_prop in H; destruct H as [H|H]);
        try (apply andb_prop in H; destruct H as [_ H]);
        try apply N.leb_le in H; try apply N.eqb_eq in H; lia.
    + intros [j Hj]. unfold char_sextet in Hj.
      destruct (list_find (fun x => x = c) alphabet) as [[k x]|] eqn:Hf;
        [|discriminate].
      apply list_find_Some in Hf. destruct Hf as (Hk & -> & _).
      apply list_elem_of_lookup_2 in Hk.
      assert (Hall : Forall (fun x => x < 123) alphabet)
        by (vm_compute; repeat constructor).
      rewrite Forall_forall in Hall. specialize (Hall _ Hk). lia.
Qed.

Lemma is_base64_char_not_whitespace (c : N) :
  is_base64_char c = true -> is_ascii_whitespace c = false.
Proof.
  unfold is_base64_char, is_ascii_whitespace. intros H.
  repeat (apply orb_prop in H; destruct H as [H|H]);
    try (apply andb_prop in H; destruct H as [H1 H]);
    try apply N.leb_le in H; try apply N.leb_le in H1;
    try apply N.eqb_eq in H;
    repeat (apply orb_false_intro); apply N.eqb_neq; lia.
Qed.

Lemma is_base64_char_not_pad (c : N) :
  is_base64_char c = true -> c <> pad.
Proof. intros H ->. discriminate H. Qed.
End Base64Lemmas.

Section Base64RoundTrip.
Import JS Base64 Base64Views.

(** Induction three elements at a time, as the encoder recurses. *)
Lemma list_ind3 {A} (P : list A -> Prop) :
  P [] -> (forall a, P [a]) -> (forall a b, P [a; b]) ->
  (forall a b c rest, P rest -> P (a :: b :: c :: rest)) ->
  forall l, P l.
Proof.
  intros H0 H1 H2 H3.
  fix IH 1. intros [|a [|b [|c rest]]];
    [exact H0 | exact (H1 a) | exact (H2 a b) | exact (H3 a b c rest (IH rest))].
Qed.

Lemma b64_encode_split (bs : list N) :
  b64_encode bs = b64_body bs ++ b64_padding bs.
Proof.
  induction bs as [|a|a b|a b c rest IH] using list_ind3; try reflexivity.
  cbn [b64_encode b64_body b64_padding]. now rewrite IH.
Qed.

Lemma b64_padding_cases (bs : list N) :
  b64_padding bs = [] \/ b64_padding bs = [pad] \/ b64_padding bs = [pad; pad].
Proof.
  induction bs as [|a|a b|a b c rest IH] using list_ind3; cbn; auto.
Qed.

Lemma b64_encode_length (bs : list N) :
  N.of_nat (length (b64_encode bs)) mod 4 = 0.
Proof.
  induction bs as [|a|a b|a b c rest IH] using list_ind3; try reflexivity.
  cbn [b64_encode length].
  replace (N.of_nat (S (S (S (S (length (b64_encode rest)))))))
    with (N.of_nat (length (b64_encode rest)) + 1 * 4) by lia.
  now rewrite N.Div0.mod_add.
Qed.

Ltac sextet_range :=
  match goal with
  | |- _ < 64 => zify; Z.to_euclidean_division_equations; lia
  end.

Lemma b64_body_chars (bs : list N) :
  Forall (fun b => b < 256) bs ->
  forallb is_base64_char (b64_body bs) = true.
Proof.
  induction bs as [|a|a b|a b c rest IH] using list_ind3; intros Hbs;
    repeat match goal with
           | H : Forall _ (_ :: _) |- _ => apply Forall_cons in H; destruct H
           end;
    cbn [b64_body forallb];
    rewrite ?is_base64_char_sextet_char by sextet_range; auto.
Qed.

Lemma b64_body_length (bs : list N) :
  N.of_nat (length (b64_body bs)) mod 4 <> 1.
Proof.
  induction bs as [|a|a b|a b c rest IH] using list_ind3;
    try (vm_compute; discriminate).
  cbn [b64_body length].
  replace (N.of_nat (S (S (S (S (length (b64_body rest)))))))
    with (N.of_nat (length (b64_body rest)) + 1 * 4) by lia.
  now rewrite N.Div0.mod_add.
Qed.

Lemma forallb_base64_not_pad (s : string16) :
  forallb is_base64_char s = true -> Forall (fun c => c <> pad) s.
Proof.
  intros H. apply Forall_forall. intros c Hc.
  rewrite forallb_forall in H.
  apply is_base64_char_not_pad, H. now apply list_elem_of_In.
Qed.

(** Stripping removes exactly the padding the encoder appended. *)
Lemma strip_padding_body (body padding : string16) :
  Forall (fun c => c <> pad) body ->
  padding = [] \/ padding = [pad] \/ padding = [pad; pad] ->
  N.of_nat (length (body ++ padding)) mod 4 = 0 ->
  strip_padding (body ++ padding) = body.
Proof.
  intros Hbody Hpad Hlen. unfold strip_padding.
  rewrite Hlen, N.eqb_refl, rev_app_distr.
  assert (Hrev : Forall (fun c => c <> pad) (rev body))
    by now apply Forall_rev.
  destruct Hpad as [->|[->| ->]]; cbn [rev app].
  - rewrite app_nil_r.
    destruct (rev body) as [|p1 [|p2 r]] eqn:Hr; [done|..];
      apply Forall_cons in Hrev; destruct Hrev as [Hp1 _];
      apply N.eqb_neq in Hp1; now rewrite Hp1.
  - destruct (rev body) as [|p2 r] eqn:Hr; cbn.
    + apply (f_equal (@rev N)) in Hr. rewrite rev_involutive in Hr. now subst.
    + apply Forall_cons in Hrev. destruct Hrev as [Hp2 _].
      apply N.eqb_neq in Hp2. rewrite Hp2.
      change (rev (p2 :: r) = body). rewrite <- Hr. apply rev_involutive.
  - cbn. apply rev_involutive.
Qed.

Lemma remove_whitespace_base64 (body padding : string16) :
  forallb is_base64_char body = true ->
  padding = [] \/ padding = [pad] \/ padding = [pad; pad] ->
  remove_whitespace (body ++ padding) = body ++ padding.
Proof.
  intros Hbody Hpad. unfold remove_whitespace.
  rewrite List.filter_app. f_equal.
  - induction body as [|c body IH]; [done|].
    cbn in Hbody |- *. apply andb_prop in Hbody. destruct Hbody as [Hc Hb].
    rewrite (is_base64_char_not_whitespace c Hc). cbn. now rewrite IH.
  - destruct Hpad as [->|[->| ->]]; reflexivity.
Qed.

Ltac byte_arith :=
  zify; Z.to_euclidean_division_equations; lia.

Ltac eval_closed_eqb :=
  repeat match goal with
         | |- context [N.eqb ?x ?y] =>
             let b := eval vm_compute in (N.eqb x y) in
             change (N.eqb x y) with b
         end.

(** The decoding loop reads the body of an encoding back to the bytes. *)
Lemma decode_loop_body (bs : list N) :
  Forall (fun b => b < 256) bs ->
  decode_loop (b64_body bs) 0 0 = bs.
Proof.
  induction bs as [|a|a b|a b c rest IH] using list_ind3; intros Hbs;
    repeat match goal with
           | H : Forall _ (_ :: _) |- _ => apply Forall_cons in H; destruct H
           end;
    cbn [b64_body decode_loop];
    rewrite ?char_sextet_sextet_char by byte_arith;
    cbn [default from_option id];
    eval_closed_eqb; cbv iota.
  - reflexivity.
  - f_equal. byte_arith.
  - f_equal; [|f_equal]; byte_arith.
  - unfold bytes_of_24. cbn [app]. rewrite IH by assumption.
    f_equal; [|f_equal; [|f_equal]]; byte_arith.
Qed.

(** [atob] undoes [btoa] on code units below 256. *)
Lemma forgiving_base64_decode_encode (bs : list N) :
  Forall (fun b => b < 256) bs ->
  forgiving_base64_decode (b64_encode bs) = Some bs.
Proof.
  intros Hbs. unfold forgiving_base64_decode.
  pose proof (b64_body_chars bs Hbs) as Hchars.
  pose proof (b64_encode_length bs) as Hlen.
  rewrite b64_encode_split in Hlen |- *.
  rewrite remove_whitespace_base64
    by auto using b64_padding_cases.
  rewrite strip_padding_body
    by auto using b64_padding_cases, forallb_base64_not_pad.
  pose proof (b64_body_length bs) as Hne.
  apply N.eqb_neq in Hne. rewrite Hne, Hchars. cbn.
  now rewrite decode_loop_body.
Qed.
End Base64RoundTrip.

Section CodecLemmas.
Import JS Base64 Codec.

Lemma to_N_below_256 (b : byte) : Byte.to_N b < 256.
Proof. pose proof (Byte.to_N_bounded b). lia. Qed.

Lemma ToUint8_to_N (b : byte) : ToUint8 (Byte.to_N b) = b.
Proof.
  unfold ToUint8. rewrite N.mod_small by apply to_N_below_256.
  now rewrite Byte.of_to_N.
Qed.

(** [encode] never throws: its binary string has code units below 256. *)
Lemma encode_spec (bytes : Uint8Array) :
  encode bytes = Normal (b64_encode (map Byte.to_N bytes)).
Proof.
  unfold encode, byte_at. rewrite for_loop_snoc.
  rewrite (map_lookup_seq
             (fun o => fromCharCode (default 0 (Byte.to_N <$> o))) Byte.to_N).
  2:{ intros b. cbn. unfold fromCharCode.
      pose proof (to_N_below_256 b). apply N.mod_small. lia. }
  unfold btoa.
  replace (forallb (fun c => c <=? 255) (map Byte.to_N bytes)) with true;
    [reflexivity|].
  symmetry. apply forallb_forall. intros c Hc.
  apply in_map_iff in Hc. destruct Hc as (b & <- & _).
  pose proof (to_N_below_256 b). apply N.leb_le. lia.
Qed.

(** [decode] stores the code units [atob] returns, modulo 256. *)
Lemma decode_spec (base64 binaryString : string16) :
  atob base64 = Normal binaryString ->
  decode base64 = Normal (map ToUint8 binaryString).
Proof.
  intros Hatob. unfold decode, charCodeAt. rewrite Hatob. cbn. f_equal.
  pose proof (for_loop_fill
                (fun i => ToUint8 (default 0 (binaryString !! i)))
                (replicate (length binaryString) x00)) as Hfill.
  rewrite length_replicate in Hfill. rewrite Hfill.
  apply (map_lookup_seq (fun o => ToUint8 (default 0 o)) ToUint8).
  reflexivity.
Qed.

Lemma decode_throws (base64 : string16) (e : exn) :
  atob base64 = Throw e -> decode base64 = Throw e.
Proof. intros H. unfold decode. now rewrite H. Qed.

(** Decoding the encoding of a byte sequence gives the bytes back. *)
Lemma decode_b64_encode (bytes : Uint8Array) :
  decode (b64_encode (map Byte.to_N bytes)) = Normal bytes.
Proof.
  rewrite (decode_spec _ (map Byte.to_N bytes)).
  - f_equal. rewrite map_map. rewrite <- (map_id bytes) at 2.
    apply map_ext. intros b. apply ToUint8_to_N.
  - unfold atob. rewrite forgiving_base64_decode_encode; [reflexivity|].
    apply Forall_forall. intros c Hc. apply list_elem_of_In in Hc.
    apply in_map_iff in Hc. destruct Hc as (b & <- & _).
    apply to_N_below_256.
Qed.
End CodecLemmas.

Section TypedArrayLemmas.
Import JS.

Lemma to_N_ToUint8 (n : N) : n < 256 -> Byte.to_N (ToUint8 n) = n.
Proof.
intros Hn. unfold ToUint8. rewrite N.mod_small by assumption.
destruct (Byte.of_N n) as [b|] eqn:Hb.
- cbn. now apply Byte.to_of_N.
- apply Byte.of_N_None_iff in Hb. lia.
Qed.

(** The two bytes of a 16-bit integer read back as that integer. *)
Lemma int16_of_le_of_int16 (z : Z) :
  (-32768 <= z < 32768)%Z ->
  exists lo hi, le_of_int16 z = [lo; hi] /\ int16_of_le lo hi = z.
Proof.
intros Hz. unfold le_of_int16. eexists _, _. split; [reflexivity|].
unfold int16_of_le.
rewrite !to_N_ToUint8 by (zify; Z.to_euclidean_division_equations; lia).
rewrite !Z2N.id by (Z.to_euclidean_division_equations; lia).
destruct (Z.leb_spec 32768 ((z mod 65536) mod 256 + 256 * (z mod 65536 / 256)));
  Z.to_euclidean_division_equations; lia.
Qed.

Lemma int16s_of_bytes_of_int16s (a : Int16Array) :
  Forall (fun z => (-32768 <= z < 32768)%Z) a ->
  int16s_of_bytes (bytes_of_int16s a) = a.
Proof.
induction 1 as [|z a Hz _ IH]; [reflexivity|].
unfold bytes_of_int16s. cbn [flat_map].
destruct (int16_of_le_of_int16 z Hz) as (lo & hi & -> & Hlohi).
cbn. fold (bytes_of_int16s a). now rewrite Hlohi, IH.
Qed.

Lemma bytes_of_int16s_length (a : Int16Array) :
  length (bytes_of_int16s a) = (2 * length a)%nat.
Proof.
induction a as [|z a IH]; [reflexivity|].
unfold bytes_of_int16s in *. cbn [flat_map]. rewrite length_app, IH.
cbn. lia.
Qed.

Lemma int16s_of_bytes_length (bs : list byte) (n : nat) :
  length bs = (2 * n)%nat -> length (int16s_of_bytes bs) = n.
Proof.
revert bs. induction n as [|n IH]; intros bs Hlen.
- destruct bs; [reflexivity|discriminate].
- destruct bs as [|lo [|hi rest]]; try (cbn in Hlen; lia).
  cbn. f_equal. apply IH. cbn in Hlen. lia.
Qed.

(** Element [k] of the 16-bit view is made of bytes [2k] and [2k+1]. *)
Lemma int16s_of_bytes_lookup (bs : list byte) (k : nat) (lo hi : byte) :
  bs !! (2 * k)%nat = Some lo -> bs !! (2 * k + 1)%nat = Some hi ->
  int16s_of_bytes bs !! k = Some (int16_of_le lo hi).
Proof.
revert bs. induction k as [|k IH]; intros bs Hlo Hhi.
- destruct bs as [|lo' [|hi' rest]]; cbn in *; congruence.
- replace (2 * S k)%nat with (S (S (2 * k))) in Hlo by lia.
  replace (2 * S k + 1)%nat with (S (S (2 * k + 1))) in Hhi by lia.
  destruct bs as [|lo' [|hi' rest]]; cbn in Hlo; try discriminate.
  cbn in Hhi. cbn [int16s_of_bytes]. rewrite lookup_cons_ne_0 by lia.
  cbn [pred]. now apply IH.
Qed.

Lemma new_Int16Array_odd (buffer : list byte) :
  Nat.odd (length buffer) = true -> new_Int16Array buffer = Throw RangeError.
Proof.
intros H. unfold new_Int16Array. rewrite <- Nat.negb_odd, H. reflexivity.
Qed.

Lemma new_Int16Array_even (buffer : list byte) (n : nat) :
  length buffer = (2 * n)%nat ->
  new_Int16Array buffer = Normal (int16s_of_bytes buffer).
Proof.
intros H. unfold new_Int16Array.
replace (Nat.even (length buffer)) with true; [reflexivity|].
symmetry. apply Nat.even_spec. exists n. exact H.
Qed.
End TypedArrayLemmas.

Section FrameCountLemmas.
Import JS.

Lemma Q_div_nat (L n : nat) :
  n <> 0%nat ->
  exists p : positive, Z.of_nat n = Z.pos p /\
    (inject_Z (Z.of_nat L) / inject_Z (Z.of_nat n))%Q
    = (Z.of_nat L * 1 # 1 * p)%Q.
Proof.
intros Hn. destruct (Z.of_nat n) as [|p|p] eqn:Hp; try lia.
exists p. split; reflexivity.
Qed.

Lemma frameCount_Fin (L n : nat) :
  n <> 0%nat ->
  num_div (num_of_nat L) (num_of_nat n)
  = Fin (inject_Z (Z.of_nat L) / inject_Z (Z.of_nat n)).
Proof.
intros Hn. unfold num_div, num_of_nat, num_of_Z.
destruct (Z.of_nat n) as [|p|p] eqn:Hp; try lia. reflexivity.
Qed.

(** The quotient truncated toward zero is the integer quotient. *)
Lemma Qtruncate_div_nat (L n : nat) :
  n <> 0%nat ->
  Qtruncate (inject_Z (Z.of_nat L) / inject_Z (Z.of_nat n)) = Z.of_nat (L / n).
Proof.
intros Hn. destruct (Q_div_nat L n Hn) as (p & Hp & ->).
unfold Qtruncate. cbn [Qnum Qden].
rewrite Z.mul_1_r, Pos.mul_1_l, <- Hp.
rewrite Z.quot_div_nonneg by lia. now rewrite Nat2Z.inj_div.
Qed.

(** [count_below] counts the iterations of a loop [i < x]. *)
Lemma count_below_lt (i : nat) (q : Q) :
  num_lt (num_of_nat i) (Fin q) = true <-> (i < count_below (Fin q))%nat.
Proof.
unfold num_lt, num_of_nat, num_of_Z, count_below.
rewrite negb_true_iff, <- not_true_iff_false, Qle_bool_iff.
pose proof (Qle_ceiling q) as Hup. pose proof (Qceiling_lt q) as Hlow.
split.
- intros Hlt. apply Qnot_le_lt in Hlt.
  assert (H : (inject_Z (Z.of_nat i) < inject_Z (Qceiling q))%Q)
    by (eapply Qlt_le_trans; eassumption).
  rewrite <- Zlt_Qlt in H. lia.
- intros Hlt. apply Qlt_not_le.
  assert (H : (Z.of_nat i <= Qceiling q - 1)%Z) by lia.
  rewrite Zle_Qle in H. eapply Qle_lt_trans; eassumption.
Qed.

(** The loop bound [i < frameCount] covers every whole frame. *)
Lemma Qceiling_div_nat (L n : nat) :
  n <> 0%nat ->
  (L / n <= Z.to_nat (Qceiling (inject_Z (Z.of_nat L) / inject_Z (Z.of_nat n))))%nat.
Proof.
intros Hn. destruct (Q_div_nat L n Hn) as (p & Hp & ->).
unfold Qceiling, Qfloor, Qopp. cbn [Qnum Qden].
rewrite Z.mul_1_r, Pos.mul_1_l, <- Hp.
apply Nat2Z.inj_le. rewrite Nat2Z.inj_div.
rewrite Z2Nat.id; Z.to_euclidean_division_equations; nia.
Qed.
End FrameCountLemmas.

Section DecodeAudioLemmas.
Import JS WebAudio Codec BufferViews.

Lemma with_channels_id (b : AudioBuffer) : with_channels b (channelData b) = b.
Proof. now destruct b. Qed.

(** The inner loop of [decodeAudioData] only touches one channel. *)
Lemma channel_loop (b : AudioBuffer) (c m : nat) (v : nat -> number) :
  for_loop m (fun b i => set_sample b c i (v i)) b
  = with_channels b
      (alter (fun ch => for_loop m (fun ch i => <[i := v i]> ch) ch) c
         (channelData b)).
Proof.
induction m as [|m IH].
- unfold for_loop at 1. cbn [seq fold_left].
  rewrite list_alter_id by reflexivity. symmetry. apply with_channels_id.
- rewrite for_loop_S, IH. unfold set_sample, with_channels.
  cbn [channelData numberOfChannels buffer_length sampleRate]. f_equal.
  rewrite list_alter_alter_eq. apply list_alter_ext; [|reflexivity].
  intros ch _. unfold compose. now rewrite for_loop_S.
Qed.

(** The outer loop handles the channels one after the other. *)
Lemma channels_loop (b : AudioBuffer) (n : nat)
  (G : nat -> Float32Array -> Float32Array) :
  for_loop n (fun b c => with_channels b (alter (G c) c (channelData b))) b
  = with_channels b (for_loop n (fun cd c => alter (G c) c cd) (channelData b)).
Proof.
induction n as [|n IH].
- unfold for_loop. cbn. symmetry. apply with_channels_id.
- now rewrite !for_loop_S, IH.
Qed.

(** Both loops together: sample [i] of channel [c] is [v c i]. *)
Lemma deinterleave_sample (b : AudioBuffer) (n m frames : nat)
  (v : nat -> nat -> number) (c i : nat) :
  channelData b = replicate n (replicate frames (Fin 0)) ->
  (frames <= m)%nat -> (c < n)%nat -> (i < frames)%nat ->
  sample (for_loop n
            (fun b c => for_loop m (fun b i => set_sample b c i (v c i)) b) b)
    c i = Some (v c i).
Proof.
intros Hcd Hm Hc Hi.
rewrite (for_loop_ext n _
           (fun b c => with_channels b
              (alter (fun ch => for_loop m (fun ch i => <[i := v c i]> ch) ch) c
                 (channelData b))))
  by (intros; apply channel_loop).
rewrite (channels_loop b n
           (fun c ch => for_loop m (fun ch i => <[i := v c i]> ch) ch)).
unfold sample, with_channels. cbn [channelData].
rewrite for_loop_alter_lookup, Hcd.
rewrite (proj2 (Nat.ltb_lt c n) Hc), lookup_replicate_2 by assumption.
cbn. rewrite for_loop_fill_over by now rewrite length_replicate.
rewrite length_replicate, list_lookup_fmap, lookup_seq_lt by assumption.
reflexivity.
Qed.

Lemma deinterleave_frame (b : AudioBuffer) (n m : nat)
  (v : nat -> nat -> number) :
  let b' := for_loop n
              (fun b c => for_loop m (fun b i => set_sample b c i (v c i)) b) b in
  numberOfChannels b' = numberOfChannels b
  /\ buffer_length b' = buffer_length b
  /\ sampleRate b' = sampleRate b.
Proof.
cbn. rewrite (for_loop_ext n _
           (fun b c => with_channels b
              (alter (fun ch => for_loop m (fun ch i => <[i := v c i]> ch) ch) c
                 (channelData b))))
  by (intros; apply channel_loop).
rewrite (channels_loop b n
           (fun c ch => for_loop m (fun ch i => <[i := v c i]> ch) ch)).
auto.
Qed.

Lemma createBuffer_Normal (channels frames : nat) (q rate : Q) :
  (1 <= channels <= 32)%nat -> (1 <= frames)%nat ->
  (Z.of_nat frames < 4294967296)%Z ->
  Qtruncate q = Z.of_nat frames ->
  (8000 <= rate)%Q -> (rate <= 96000)%Q ->
  createBuffer channels (Fin q) rate
  = Normal {| numberOfChannels := channels;
              buffer_length := frames;
              sampleRate := rate;
              channelData := replicate channels (replicate frames (Fin 0)) |}.
Proof.
intros Hc Hf Hlt Hq Hlo Hhi. unfold createBuffer, ToUint32.
rewrite Hq, Z.mod_small, Nat2Z.id by lia.
rewrite (proj2 (Nat.leb_le 1 channels)), (proj2 (Nat.leb_le channels 32)),
  (proj2 (Nat.leb_le 1 frames)) by lia.
rewrite (proj2 (Qle_bool_iff 8000 rate) Hlo), (proj2 (Qle_bool_iff rate 96000) Hhi).
reflexivity.
Qed.

(** [decodeAudioData] on an even number of bytes holding at least one
    frame: the buffer has the whole frames of the data, and sample [i] of
    channel [c] is 16-bit element [i * numChannels + c] over 32768. *)
Lemma decodeAudioData_frames (data : list byte) (rate : Q) (numChannels L : nat) :
  length data = (2 * L)%nat ->
  (1 <= numChannels <= 32)%nat -> (numChannels <= L)%nat ->
  (Z.of_nat (L / numChannels) < 4294967296)%Z ->
  (8000 <= rate)%Q -> (rate <= 96000)%Q ->
  exists buffer,
    decodeAudioData data rate numChannels = Normal buffer
    /\ numberOfChannels buffer = numChannels
    /\ buffer_length buffer = (L / numChannels)%nat
    /\ sampleRate buffer = rate
    /\ forall c i s,
         (c < numChannels)%nat -> (i < L / numChannels)%nat ->
         int16s_of_bytes data !! (i * numChannels + c)%nat = Some s ->
         sample buffer c i = Some (Fin (inject_Z s / 32768)).
Proof.
intros Hlen Hnc HL Hlt Hlo Hhi. unfold decodeAudioData.
rewrite (new_Int16Array_even data L Hlen), bind_Normal.
rewrite (int16s_of_bytes_length data L Hlen).
rewrite frameCount_Fin by lia.
assert (Hframes : (1 <= L / numChannels)%nat)
  by (apply Nat.div_le_lower_bound; lia).
rewrite (createBuffer_Normal numChannels (L / numChannels))
  by (auto using Qtruncate_div_nat; try lia; apply Qtruncate_div_nat; lia).
rewrite bind_Normal. eexists. split; [reflexivity|].
set (b := {| numberOfChannels := numChannels |}).
set (v := fun channel i : nat =>
            num_div (int16_at (int16s_of_bytes data) (i * numChannels + channel))
              (Fin 32768)).
destruct (deinterleave_frame b numChannels
            (count_below (Fin (inject_Z (Z.of_nat L) / inject_Z (Z.of_nat numChannels))))
            v) as (H1 & H2 & H3).
split; [exact H1|]. split; [exact H2|]. split; [exact H3|].
intros c i s Hc Hi Hs.
rewrite (deinterleave_sample b numChannels _ (L / numChannels) v c i);
  [| reflexivity | apply Qceiling_div_nat; lia | assumption | assumption].
unfold v, int16_at. rewrite Hs. reflexivity.
Qed.

(** The buffer [decodeAudioData] returns has the requested rate. *)
Lemma decodeAudioData_sampleRate
  (data : list byte) (rate : Q) (numChannels : nat) (buffer : AudioBuffer) :
  decodeAudioData data rate numChannels = Normal buffer ->
  sampleRate buffer = rate.
Proof.
unfold decodeAudioData. destruct (new_Int16Array data) as [dataInt16|e];
  [|discriminate].
rewrite bind_Normal.
destruct (createBuffer numChannels _ rate) as [b|e] eqn:Hcreate; [|discriminate].
rewrite bind_Normal. intros H. injection H as <-.
match goal with
| |- sampleRate (for_loop ?n (fun b c => for_loop ?m _ b) ?b0) = _ =>
    destruct (deinterleave_frame b0 n m
                (fun channel i =>
                   num_div (int16_at dataInt16 (i * numChannels + channel))
                     (Fin 32768))) as (_ & _ & Hrate)
end.
rewrite Hrate. unfold createBuffer in Hcreate.
destruct (_ && _) in Hcreate; [|discriminate].
now injection Hcreate as <-.
Qed.

Lemma duration_nonneg (buffer : AudioBuffer) :
  (0 < sampleRate buffer)%Q -> (0 <= duration buffer)%Q.
Proof.
intros Hrate. unfold duration, Double.div. apply round_nonneg.
apply Qle_shift_div_l; [exact Hrate|].
rewrite Qmult_0_l. change 0%Q with (inject_Z 0). rewrite <- Zle_Qle. lia.
Qed.

Lemma is_double_duration (buffer : AudioBuffer) :
  Double.is_double (duration buffer) = true.
Proof. apply is_double_round. Qed.

(** The buffer [decodeAudioData] returns has at least one frame. *)
Lemma decodeAudioData_length_pos
  (data : list byte) (rate : Q) (numChannels : nat) (buffer : AudioBuffer) :
  decodeAudioData data rate numChannels = Normal buffer ->
  (1 <= buffer_length buffer)%nat.
Proof.
unfold decodeAudioData. destruct (new_Int16Array data) as [dataInt16|e];
  [|discriminate].
rewrite bind_Normal.
destruct (createBuffer numChannels _ rate) as [b|e] eqn:Hcreate; [|discriminate].
rewrite bind_Normal. intros H. injection H as <-.
match goal with
| |- (1 <= buffer_length (for_loop ?n (fun b c => for_loop ?m _ b) ?b0))%nat =>
    destruct (deinterleave_frame b0 n m
                (fun channel i =>
                   num_div (int16_at dataInt16 (i * numChannels + channel))
                     (Fin 32768))) as (_ & Hlen & _)
end.
rewrite Hlen. unfold createBuffer in Hcreate. cbv zeta in Hcreate.
destruct (_ && _) eqn:Hcond in Hcreate; [|discriminate].
injection Hcreate as <-. cbn [buffer_length].
repeat (apply andb_prop in Hcond; destruct Hcond as [Hcond ?]).
repeat match goal with
       | H : (_ <=? _)%nat = true |- _ => apply Nat.leb_le in H
       end.
assumption.
Qed.

(** [buffer.duration] at 24000 Hz: the time the frames last, up to the
    rounding of the quotient. *)
Lemma duration_error (buffer : AudioBuffer) :
  (1 <= buffer_length buffer)%nat -> sampleRate buffer = 24000%Q ->
  let played := (inject_Z (Z.of_nat (buffer_length buffer)) / 24000)%Q in
  (1 # 32768 <= duration buffer)%Q
  /\ (Qabs (duration buffer - played) <= played * (1 # 9007199254740992))%Q.
Proof.
intros Hlen Hrate played. unfold duration, Double.div. rewrite Hrate.
fold played.
assert (Hn : (1 <= inject_Z (Z.of_nat (buffer_length buffer)))%Q).
{ change 1%Q with (inject_Z 1). rewrite <- Zle_Qle. lia. }
assert (Hp : (1 # 24000 <= played)%Q).
{ unfold played, Qdiv.
  change (/ 24000)%Q with (1 # 24000)%Q.
  set (n := inject_Z _) in *. lra. }
split.
- apply round_ge; [reflexivity|lra].
- assert (Hu : (Double.pow2 (-53) == 1 # 9007199254740992)%Q) by reflexivity.
  assert (Hmin : (Double.pow2 (-1022) <= 1 # 24000)%Q)
    by (vm_compute; discriminate).
  pose proof (round_error played) as E.
  rewrite (Qabs_pos played), Hu in E by lra. apply E. lra.
Qed.

(** An odd number of bytes cannot be viewed as 16-bit samples. *)
Lemma decodeAudioData_odd (data : list byte) (rate : Q) (numChannels : nat) :
  Nat.odd (length data) = true ->
  decodeAudioData data rate numChannels = Throw RangeError.
Proof.
intros H. unfold decodeAudioData. now rewrite new_Int16Array_odd.
Qed.
End DecodeAudioLemmas.

(** ** Claims on the codec *)

(** C1. For every byte sequence [B], [decode(encode(B)) == B]: [encode]
    returns a payload, and [decode] of that payload returns exactly [B]. *)
Theorem C1_decode_encode_roundtrip (B : JS.Uint8Array) :
  Codec.encode B ≫= Codec.decode = JS.Normal B.
Proof.
  rewrite encode_spec. cbn. apply decode_b64_encode.
Qed.

(** C7, as stated, fails: [atob] is the forgiving decoder of the HTML
    standard.  A two-character string (length not a multiple of 4)
    decodes; a string of length 5 with a space decodes; a padded string,
    whose [=] is outside the 64-symbol alphabet, decodes. *)
Lemma C7_counterexample :
  (Spec.malformed_payload (JS.of_ascii_string "ab")
   /\ Codec.decode (JS.of_ascii_string "ab") = JS.Normal [x69])
  /\ (length (JS.of_ascii_string "ab cd") = 5%nat
      /\ Spec.malformed_payload (JS.of_ascii_string "ab cd")
      /\ Codec.decode (JS.of_ascii_string "ab cd") = JS.Normal [x69; xb7; x1d])
  /\ (Spec.malformed_payload (JS.of_ascii_string "TQ==")
      /\ Codec.decode (JS.of_ascii_string "TQ==") = JS.Normal [x4d]).
Proof.
repeat split; try reflexivity.
- left. vm_compute. discriminate.
- left. vm_compute. discriminate.
- right. vm_compute. do 2 apply Exists_cons_tl. apply Exists_cons_hd. reflexivity.
Qed.

(** C7, amended.  [decode] throws (the InvalidCharacterError of [atob],
    the specification's MalformedPayload) exactly when the text, once ASCII
    whitespace is removed and the one or two trailing [=] of a length that
    is a multiple of 4 are dropped, has a length of remainder 1 modulo 4 or
    holds a character outside the 64-symbol alphabet; every other text
    decodes.  In particular a string of length 5 without ASCII whitespace
    always fails. *)
Theorem C7_decode_malformed (text : list N) :
  let t := Base64.strip_padding (Base64.remove_whitespace text) in
  ((N.of_nat (length t) mod 4 = 1
    \/ Exists (fun c => Base64.is_base64_char c = false) t)
   <-> Codec.decode text = JS.Throw JS.InvalidCharacterError)
  /\ (JS.is_Normal (Codec.decode text) = false
      -> Codec.decode text = JS.Throw JS.InvalidCharacterError)
  /\ (length text = 5%nat
      -> Forall (fun c => Base64.is_ascii_whitespace c = false) text
      -> Codec.decode text = JS.Throw JS.InvalidCharacterError).
Proof.
intros t.
assert (Hdec : forall s : list N,
  match Codec.decode s with
  | JS.Normal _ =>
      Base64.forgiving_base64_decode s <> None
  | JS.Throw e =>
      e = JS.InvalidCharacterError /\ Base64.forgiving_base64_decode s = None
  end).
{ intros s. destruct (Base64.atob s) as [bin|e] eqn:Hatob.
  - rewrite (decode_spec s bin Hatob). unfold Base64.atob in Hatob.
    destruct (Base64.forgiving_base64_decode s); [discriminate|discriminate Hatob].
  - rewrite (decode_throws s e Hatob). unfold Base64.atob in Hatob.
    destruct (Base64.forgiving_base64_decode s); [discriminate|].
    injection Hatob as <-. split; reflexivity. }
assert (Hfail : Base64.forgiving_base64_decode text = None <->
  (N.of_nat (length t) mod 4 = 1
   \/ Exists (fun c => Base64.is_base64_char c = false) t)).
{ unfold Base64.forgiving_base64_decode. fold t.
  destruct (N.eqb_spec (N.of_nat (length t) mod 4) 1) as [Hm|Hm].
  - split; auto.
  - destruct (forallb Base64.is_base64_char t) eqn:Hall; cbn.
    + split; [discriminate|]. intros [H|H]; [contradiction|].
      rewrite forallb_forall in Hall. apply Exists_exists in H.
      destruct H as (c & Hc & Hbad). apply list_elem_of_In in Hc.
      rewrite (Hall c Hc) in Hbad. discriminate.
    + split; [|reflexivity]. intros _. right.
      now apply forallb_false_Exists. }
split; [|split].
- rewrite <- Hfail. specialize (Hdec text).
  destruct (Codec.decode text) as [bytes|e].
  + split; [contradiction|discriminate].
  + destruct Hdec as [-> Hnone]. split; auto.
- specialize (Hdec text). destruct (Codec.decode text) as [bytes|e].
  + discriminate.
  + destruct Hdec as [-> _]. reflexivity.
- intros Hlen Hws. specialize (Hdec text).
  assert (Hnone : Base64.forgiving_base64_decode text = None).
  { apply Hfail. left. subst t.
    assert (Hrw : Base64.remove_whitespace text = text).
    { unfold Base64.remove_whitespace. clear Hlen Hdec Hfail.
      induction Hws as [|c l Hc _ IH]; [reflexivity|].
      cbn. rewrite Hc. cbn. now rewrite IH. }
    rewrite Hrw. unfold Base64.strip_padding. rewrite Hlen.
    change (N.of_nat 5 mod 4 =? 0) with false. cbv iota.
    rewrite Hlen. reflexivity. }
  destruct (Codec.decode text) as [bytes|e].
  + contradiction.
  + destruct Hdec as [-> _]. reflexivity.
Qed.

(** A string of five alphabet characters is rejected. *)
Lemma C7_witness :
  Codec.decode (JS.of_ascii_string "abcde") = JS.Throw JS.InvalidCharacterError.
Proof.
apply (C7_decode_malformed (JS.of_ascii_string "abcde")).
- reflexivity.
- repeat constructor.
Defined.

(** C8, as stated, fails.  Six bytes with two channels are not divisible
    by [2 * channelCount], yet the call returns a buffer: the fractional
    frame count 1.5 is truncated by [createBuffer] and the trailing sample
    is dropped.  And the empty buffer, which is well framed, is rejected by
    [createBuffer]. *)
Lemma C8_counterexample :
  (Spec.invalid_audio_payload [x01; x00; xff; xff; x00; x80] 2
   /\ Codec.decodeAudioData [x01; x00; xff; xff; x00; x80] 24000 2
      = JS.Normal
          {| WebAudio.numberOfChannels := 2;
             WebAudio.buffer_length := 1;
             WebAudio.sampleRate := 24000;
             WebAudio.channelData :=
               [[JS.Fin (1 # 32768)]; [JS.Fin (-1 # 32768)]] |})
  /\ (~ Spec.invalid_audio_payload [] 1
      /\ Codec.decodeAudioData [] 24000 1 = JS.Throw JS.NotSupportedError).
Proof.
split; split.
- unfold Spec.invalid_audio_payload. cbn. discriminate.
- reflexivity.
- unfold Spec.invalid_audio_payload. cbn. auto.
- reflexivity.
Qed.

(** C8, amended.  For 1 to 32 channels at a supported rate:
    [decodeAudioData] throws (a RangeError, the specification's
    InvalidAudioPayload) on every buffer of odd byte length, such as 3
    bytes with 1 channel; on an even byte length [2 * L] holding at least
    one frame it returns a buffer of [L / numChannels] whole frames in
    which sample [i] of channel [c] is the little-endian 16-bit value at
    bytes [2 * (i * numChannels + c)] and the next one, over 32768; so for
    well-framed input the frame count is [byteLength / 2 / channelCount]. *)
Theorem C8_decodeAudioData_framing
  (data : list byte) (rate : Q) (numChannels L : nat) :
  (8000 <= rate)%Q -> (rate <= 96000)%Q -> (1 <= numChannels <= 32)%nat ->
  (Nat.odd (length data) = true ->
   Codec.decodeAudioData data rate numChannels = JS.Throw JS.RangeError)
  /\ (length data = (2 * L)%nat -> (numChannels <= L)%nat ->
      (Z.of_nat (L / numChannels) < 4294967296)%Z ->
      exists buffer,
        Codec.decodeAudioData data rate numChannels = JS.Normal buffer
        /\ WebAudio.numberOfChannels buffer = numChannels
        /\ WebAudio.buffer_length buffer = (L / numChannels)%nat
        /\ ((length data mod (2 * numChannels) = 0)%nat ->
            (WebAudio.buffer_length buffer * (2 * numChannels))%nat = length data)
        /\ forall c i lo hi,
             (c < numChannels)%nat -> (i < L / numChannels)%nat ->
             data !! (2 * (i * numChannels + c))%nat = Some lo ->
             data !! (2 * (i * numChannels + c) + 1)%nat = Some hi ->
             BufferViews.sample buffer c i
             = Some (JS.Fin (inject_Z (JS.int16_of_le lo hi) / 32768))).
Proof.
intros Hlo Hhi Hnc. split.
- apply decodeAudioData_odd.
- intros Hlen HL Hlt.
  destruct (decodeAudioData_frames data rate numChannels L Hlen Hnc HL Hlt Hlo Hhi)
    as (buffer & Hdec & Hch & Hfr & _ & Hsample).
  exists buffer. repeat split; try assumption.
  + intros Hmod. rewrite Hfr, Hlen in *.
    rewrite Nat.Div0.mul_mod_distr_l in Hmod.
    assert (Hm : (L mod numChannels = 0)%nat) by lia.
    pose proof (Nat.div_mod_eq L numChannels). nia.
  + intros c i lo hi Hc Hi Hl Hh. apply Hsample; try assumption.
    now apply int16s_of_bytes_lookup.
Qed.

(** Three bytes with one channel are rejected; four bytes with one channel
    give two frames. *)
Lemma C8_witness :
  Codec.decodeAudioData [x01; x00; xff] 24000 1 = JS.Throw JS.RangeError
  /\ exists buffer,
       Codec.decodeAudioData [x01; x00; xff; xff] 24000 1 = JS.Normal buffer
       /\ WebAudio.buffer_length buffer = 2%nat
       /\ BufferViews.sample buffer 0 1 = Some (JS.Fin (inject_Z (-1) / 32768)).
Proof.
assert (Hlo : (8000 <= 24000)%Q) by (unfold Qle; cbn; lia).
assert (Hhi : (24000 <= 96000)%Q) by (unfold Qle; cbn; lia).
assert (Hnc : (1 <= 1 <= 32)%nat) by lia.
split.
- apply (C8_decodeAudioData_framing [x01; x00; xff] 24000 1 1 Hlo Hhi Hnc).
  reflexivity.
- destruct (proj2 (C8_decodeAudioData_framing [x01; x00; xff; xff] 24000 1 2
                     Hlo Hhi Hnc) eq_refl)
    as (buffer & Hdec & _ & Hfr & _ & Hsample); [lia | cbn; lia |].
  exists buffer. split; [exact Hdec|]. split; [exact Hfr|].
  apply (Hsample 0%nat 1%nat xff xff); [lia | cbn; lia | reflexivity | reflexivity].
Defined.

Section CaptureLemmas.
Import JS Codec Capture.

Lemma pcm16_of_block_map (inputData : list number) :
  pcm16_of_block inputData = map quantize inputData.
Proof.
unfold pcm16_of_block, sample_at.
pose proof (for_loop_fill
  (fun i => quantize (default NaN (inputData !! i)))
  (replicate (length inputData) 0%Z)) as Hfill.
rewrite length_replicate in Hfill. rewrite Hfill.
apply (map_lookup_seq (fun o => quantize (default NaN o)) quantize).
reflexivity.
Qed.

Lemma Qtruncate_near (q : Q) :
  (inject_Z (Qtruncate q) - 1 < q)%Q /\ (q < inject_Z (Qtruncate q) + 1)%Q.
Proof.
destruct q as [n d]. unfold Qtruncate, Qlt, Qminus, Qplus, Qopp, inject_Z. cbn.
split; Z.to_euclidean_division_equations; nia.
Qed.

Lemma Qtruncate_bound (q : Q) (b : Z) :
  (- inject_Z b <= q)%Q -> (q <= inject_Z b)%Q -> (- b <= Qtruncate q <= b)%Z.
Proof.
destruct q as [n d]. unfold Qtruncate, Qle, Qopp, inject_Z. cbn.
intros H1 H2. Z.to_euclidean_division_equations; nia.
Qed.

Lemma clamp_range (x : Q) : (-1 <= Spec.clamp x)%Q /\ (Spec.clamp x <= 1)%Q.
Proof.
unfold Spec.clamp. split.
- apply Q.le_max_l.
- apply Q.max_lub; [discriminate|apply Q.le_min_l].
Qed.

Lemma clamp_in_range (x : Q) :
  (-1 <= x)%Q -> (x <= 1)%Q -> (Spec.clamp x == x)%Q.
Proof.
intros H1 H2. unfold Spec.clamp.
rewrite (Q.min_r 1 x H2). now apply Q.max_r.
Qed.

(** A finite sample is clamped, scaled and truncated toward zero; the
    result needs no wrap-around. *)
Lemma quantize_Fin (x : Q) :
  quantize (Fin x) = Qtruncate (Spec.clamp x * 32767)
  /\ (-32767 <= Qtruncate (Spec.clamp x * 32767) <= 32767)%Z.
Proof.
assert (Hb : (-32767 <= Qtruncate (Spec.clamp x * 32767) <= 32767)%Z).
{ destruct (clamp_range x) as [H1 H2].
  apply (Qtruncate_bound _ 32767); unfold inject_Z; lra. }
split; [|exact Hb].
unfold quantize. cbn [Math_min Math_max num_mul ToInt16].
fold (Spec.clamp x). set (t := Qtruncate (Spec.clamp x * 32767)) in *.
destruct (Z.leb_spec 32768 (t mod 65536));
  Z.to_euclidean_division_equations; lia.
Qed.

Lemma quantize_range (x : number) : (-32768 <= quantize x < 32768)%Z.
Proof.
destruct x as [q| | |].
- destruct (quantize_Fin q) as [-> H]. lia.
- vm_compute. split; [discriminate|reflexivity].
- vm_compute. split; [discriminate|reflexivity].
- vm_compute. split; [discriminate|reflexivity].
Qed.

Lemma pcm16_of_block_range (inputData : list number) :
  Forall (fun z => (-32768 <= z < 32768)%Z) (pcm16_of_block inputData).
Proof.
rewrite pcm16_of_block_map. apply Forall_forall. intros z Hz.
apply list_elem_of_In, in_map_iff in Hz. destruct Hz as (x & <- & _).
apply quantize_range.
Qed.

(** The bytes of element [i] are at [2i] and [2i+1], low byte first. *)
Lemma bytes_of_int16s_lookup (a : list Z) (i : nat) (z : Z) :
  a !! i = Some z -> (-32768 <= z < 32768)%Z ->
  exists lo hi,
    bytes_of_int16s a !! (2 * i)%nat = Some lo
    /\ bytes_of_int16s a !! (2 * i + 1)%nat = Some hi
    /\ int16_of_le lo hi = z.
Proof.
revert i. induction a as [|y a IH]; intros i Hi Hz; [discriminate|].
destruct i as [|i].
- cbn in Hi. injection Hi as ->.
  destruct (int16_of_le_of_int16 z Hz) as (lo & hi & Hle & Hlohi).
  exists lo, hi. unfold bytes_of_int16s. cbn [flat_map]. rewrite Hle.
  repeat split; [exact Hlohi].
- cbn in Hi. destruct (IH i Hi Hz) as (lo & hi & H1 & H2 & H3).
  exists lo, hi. unfold bytes_of_int16s in *. cbn [flat_map].
  replace (2 * S i)%nat with (S (S (2 * i))) by lia.
  replace (S (S (2 * i)) + 1)%nat with (S (S (2 * i + 1))) by lia.
  unfold le_of_int16. cbn [app]. repeat split; assumption.
Qed.

Lemma bytes_of_int16s_zero (n : nat) :
  bytes_of_int16s (replicate n 0%Z) = replicate (2 * n) x00.
Proof.
induction n as [|n IH]; [reflexivity|].
replace (2 * S n)%nat with (S (S (2 * n))) by lia.
unfold bytes_of_int16s in *. cbn [replicate flat_map]. now rewrite IH.
Qed.

(** The encoding has four characters per started group of three bytes. *)
Lemma b64_encode_length_groups (bs : list N) :
  length (Base64.b64_encode bs) = (4 * ((length bs + 2) / 3))%nat.
Proof.
induction bs as [|a|a b|a b c rest IH] using list_ind3; try reflexivity.
cbn [Base64.b64_encode length]. rewrite IH.
replace (S (S (S (length rest))) + 2)%nat with (length rest + 2 + 1 * 3)%nat by lia.
rewrite Nat.div_add by lia. lia.
Qed.
End CaptureLemmas.

(** ** Claims on the capture pipeline *)

(** C4, as stated, fails: the store into the [Int16Array] truncates toward
    zero, it does not round.  The sample 0.25 scales to 8191.75; the code
    stores 8191 where [round(clamp(x) * 32767)] is 8192. *)
Lemma C4_counterexample :
  Capture.pcm16_of_block [JS.Fin (1 # 4)] = [8191%Z]
  /\ Spec.pcm16_of_sample (1 # 4) = 8192%Z.
Proof. split; reflexivity. Qed.

(** C4, amended.  For every captured block: each finite sample [x] is
    clamped to [-1, 1], scaled by 32767 and converted to a 16-bit signed
    integer by truncation toward zero (no rounding, no wrap-around), and
    the integers are packed low byte first into a buffer of two bytes per
    sample; a 4096-sample block of zeros gives 8192 zero bytes whose
    payload has [ceil(8192/3) * 4] characters. *)
Theorem C4_capture_block (inputData : list JS.number) :
  let pcm16 := Capture.pcm16_of_block inputData in
  let bytes := JS.bytes_of_int16s pcm16 in
  length bytes = (2 * length inputData)%nat
  /\ (forall i x, inputData !! i = Some (JS.Fin x) ->
        let z := JS.Qtruncate (Spec.clamp x * 32767) in
        (-32767 <= z <= 32767)%Z
        /\ pcm16 !! i = Some z
        /\ exists lo hi,
             bytes !! (2 * i)%nat = Some lo
             /\ bytes !! (2 * i + 1)%nat = Some hi
             /\ JS.int16_of_le lo hi = z)
  /\ (inputData = replicate 4096 (JS.Fin 0) ->
      bytes = replicate 8192 x00
      /\ exists payload,
           Capture.capture_payload inputData = JS.Normal payload
           /\ length payload = (Z.to_nat (Qceiling (8192 # 3)) * 4)%nat).
Proof.
intros pcm16 bytes. subst bytes pcm16. split; [|split].
- rewrite bytes_of_int16s_length, pcm16_of_block_map, length_map. reflexivity.
- intros i x Hi z. destruct (quantize_Fin x) as [Hq Hz]. fold z in Hq, Hz.
  assert (Hpcm : Capture.pcm16_of_block inputData !! i = Some z).
  { rewrite pcm16_of_block_map, list_lookup_fmap, Hi. exact (f_equal Some Hq). }
  split; [exact Hz|]. split; [exact Hpcm|].
  apply bytes_of_int16s_lookup; [exact Hpcm|lia].
- intros ->.
  assert (Hpcm : Capture.pcm16_of_block (replicate 4096 (JS.Fin 0))
                 = replicate 4096 0%Z).
  { rewrite pcm16_of_block_map. now rewrite <- fmap_replicate. }
  unfold Capture.capture_payload. rewrite Hpcm, bytes_of_int16s_zero.
  split; [reflexivity|].
  rewrite encode_spec. eexists. split; [reflexivity|].
  rewrite b64_encode_length_groups, length_map, length_replicate.
  reflexivity.
Qed.

(** The silent block of the scenario. *)
Lemma C4_witness :
  JS.bytes_of_int16s (Capture.pcm16_of_block (replicate 4096 (JS.Fin 0)))
  = replicate 8192 x00
  /\ exists payload,
       Capture.capture_payload (replicate 4096 (JS.Fin 0)) = JS.Normal payload
       /\ length payload = 10924%nat.
Proof.
exact (proj2 (proj2 (C4_capture_block (replicate 4096 (JS.Fin 0)))) eq_refl).
Defined.

(** C5, as stated, fails: truncation loses up to one step of 1/32767 and
    the playback divides by 32768, so the error can exceed one quantization
    step.  The sample 65535/65536 is sent as 32766 and played back as
    32766/32768: the error is 3/65536, one step and a half. *)
Lemma C5_counterexample :
  let x := (65535 # 65536)%Q in
  ((-1 <= x)%Q /\ (x <= 1)%Q)
  /\ exists buffer r,
       (payload ← Capture.capture_payload [JS.Fin x];
        bytes ← Codec.decode payload;
        Codec.decodeAudioData bytes 24000 1)
       = JS.Normal buffer
       /\ BufferViews.sample buffer 0 0 = Some (JS.Fin r)
       /\ ~ (Qabs (r - x) <= Spec.quantization_step)%Q.
Proof.
cbv zeta. split; [split; discriminate|].
eexists _, _. split; [vm_compute; reflexivity|].
split; [reflexivity|]. vm_compute. intros H. apply H. reflexivity.
Qed.

(** C5, amended.  For every non-empty captured block, the payload sent to
    the session decodes, through [decode] and [decodeAudioData] at 24 kHz
    with one channel, to a buffer of as many frames as the block has
    samples, and every sample in [-1, 1] is reconstructed within two
    quantization steps: [|reconstructed - original| < 2/32768]. *)
Theorem C5_pcm_round_trip (inputData : list JS.number) :
  (1 <= length inputData)%nat ->
  (Z.of_nat (length inputData) < 4294967296)%Z ->
  exists payload bytes buffer,
    Capture.capture_payload inputData = JS.Normal payload
    /\ Codec.decode payload = JS.Normal bytes
    /\ Codec.decodeAudioData bytes 24000 1 = JS.Normal buffer
    /\ WebAudio.buffer_length buffer = length inputData
    /\ forall i x,
         inputData !! i = Some (JS.Fin x) -> (-1 <= x)%Q -> (x <= 1)%Q ->
         exists r,
           BufferViews.sample buffer 0 i = Some (JS.Fin r)
           /\ (Qabs (r - x) < 2 * Spec.quantization_step)%Q.
Proof.
intros Hne Hlt. set (n := length inputData) in *.
set (pcm16 := Capture.pcm16_of_block inputData).
assert (Hpcmlen : length pcm16 = n)
  by (unfold pcm16; now rewrite pcm16_of_block_map, length_map).
assert (Hbytes : length (JS.bytes_of_int16s pcm16) = (2 * n)%nat)
  by now rewrite bytes_of_int16s_length, Hpcmlen.
destruct (decodeAudioData_frames (JS.bytes_of_int16s pcm16) 24000 1 n)
  as (buffer & Hdec & _ & Hfr & _ & Hsample); try assumption; try lia.
{ now rewrite Nat.div_1_r. }
{ discriminate. }
{ discriminate. }
rewrite Nat.div_1_r in Hfr, Hsample.
exists (Base64.b64_encode (map Byte.to_N (JS.bytes_of_int16s pcm16))),
  (JS.bytes_of_int16s pcm16), buffer.
split; [apply encode_spec|]. split; [apply decode_b64_encode|].
split; [exact Hdec|]. split; [exact Hfr|].
intros i x Hi Hx1 Hx2.
assert (Hin : (i < n)%nat) by (apply lookup_lt_Some in Hi; exact Hi).
destruct (quantize_Fin x) as [Hq Hz].
set (z := JS.Qtruncate (Spec.clamp x * 32767)) in *.
exists (inject_Z z / 32768)%Q. split.
- apply Hsample; [lia|exact Hin|].
  rewrite int16s_of_bytes_of_int16s by apply pcm16_of_block_range.
  replace (i * 1 + 0)%nat with i by lia. unfold pcm16.
  rewrite pcm16_of_block_map, list_lookup_fmap, Hi. exact (f_equal Some Hq).
- destruct (Qtruncate_near (Spec.clamp x * 32767)) as [Hn1 Hn2]. fold z in Hn1, Hn2.
  pose proof (clamp_in_range x Hx1 Hx2) as Hc. rewrite Hc in Hn1, Hn2.
  unfold Spec.quantization_step.
  assert (E : (inject_Z z / 32768 == inject_Z z * (1 # 32768))%Q) by reflexivity.
  rewrite E. apply Qabs_Qlt_condition. split; lra.
Qed.

(** A two-sample block. *)
Lemma C5_witness :
  exists payload bytes buffer,
    Capture.capture_payload [JS.Fin (1 # 4); JS.Fin (-1)] = JS.Normal payload
    /\ Codec.decode payload = JS.Normal bytes
    /\ Codec.decodeAudioData bytes 24000 1 = JS.Normal buffer
    /\ WebAudio.buffer_length buffer = 2%nat
    /\ forall i x,
         [JS.Fin (1 # 4); JS.Fin (-1)] !! i = Some (JS.Fin x) ->
         (-1 <= x)%Q -> (x <= 1)%Q ->
         exists r,
           BufferViews.sample buffer 0 i = Some (JS.Fin r)
           /\ (Qabs (r - x) < 2 * Spec.quantization_step)%Q.
Proof.
apply (C5_pcm_round_trip [JS.Fin (1 # 4); JS.Fin (-1)]); cbn; lia.
Defined.

(** ** Lemmas on the handlers *)
(** Projections of updated refs. *)
Ltac refs_simpl :=
  cbn [App.audioContextIn App.audioContextOut App.sessionPromise
       App.nextStartTime App.activeSources App.nodes App.promises App.display
       App.set_contexts App.set_sessionPromise App.set_nextStartTime
       App.set_activeSources App.set_nodes App.set_promises App.set_display
       fst snd] in *.

Section HandlerLemmas.
Import JS WebAudio Codec App AppViews.

Lemma set_nodes_id (st : Refs) : set_nodes (nodes st) st = st.
Proof. now destruct st. Qed.

Lemma insert_mark_stopped (ns : list SourceNode) (id : nat) (node : SourceNode) :
  ns !! id = Some node ->
  <[id := mark_stopped node]> ns = alter mark_stopped id ns.
Proof.
intros Hn. apply list_eq. intros j. destruct (decide (j = id)) as [->|Hne].
- rewrite list_lookup_alter_eq, Hn.
  apply list_lookup_insert_eq. now apply lookup_lt_Some in Hn.
- now rewrite list_lookup_insert_ne, list_lookup_alter_ne by congruence.
Qed.

Lemma stopped_nodes_lookup (ids : list nat) (ns : list SourceNode) (id : nat) :
  stopped_nodes ids ns !! id
  = if decide (id ∈ ids) then mark_stopped <$> ns !! id else ns !! id.
Proof.
revert ns. induction ids as [|a rest IH]; intros ns.
- cbn. destruct (decide (id ∈ [])) as [H|H]; [|reflexivity].
  now apply not_elem_of_nil in H.
- change (stopped_nodes (a :: rest) ns)
    with (stopped_nodes rest (alter mark_stopped a ns)).
  rewrite IH. destruct (decide (id = a)) as [->|Hne].
  + rewrite list_lookup_alter_eq.
    destruct (decide (a ∈ rest)), (decide (a ∈ a :: rest)) as [|Hn];
      try reflexivity.
    * now destruct (ns !! a).
    * exfalso. apply Hn. now left.
    * exfalso. apply Hn. now left.
  + rewrite list_lookup_alter_ne by congruence.
    destruct (decide (id ∈ rest)) as [Hin|Hin],
             (decide (id ∈ a :: rest)) as [Hin'|Hin']; try reflexivity.
    * exfalso. apply Hin'. now right.
    * exfalso. apply elem_of_cons in Hin'. destruct Hin'; congruence.
Qed.

Lemma stopped_nodes_length (ids : list nat) (ns : list SourceNode) :
  length (stopped_nodes ids ns) = length ns.
Proof.
revert ns. induction ids as [|a rest IH]; intros ns; [reflexivity|].
change (stopped_nodes (a :: rest) ns)
  with (stopped_nodes rest (alter mark_stopped a ns)).
now rewrite IH, length_alter.
Qed.

(** [forEach(s => s.stop())] on started sources stops them and does not
    throw. *)
Lemma forEach_source_stop (ids : list nat) (st : Refs) :
  (forall id, id ∈ ids ->
     exists node, nodes st !! id = Some node /\ is_Some (startTime node)) ->
  forEach ids source_stop st
  = (Normal tt, set_nodes (stopped_nodes ids (nodes st)) st).
Proof.
revert st. induction ids as [|a rest IH]; intros st Hids.
- cbn. now rewrite set_nodes_id.
- destruct (Hids a) as (node & Hnode & [when Hwhen]); [now left|].
  change (forEach (a :: rest) source_stop st)
    with (match source_stop a st with
          | (Normal _, st') => forEach rest source_stop st'
          | (Throw e, st') => (Throw e, st')
          end).
  unfold source_stop at 1. rewrite Hnode, Hwhen.
  rewrite (insert_mark_stopped _ _ _ Hnode), IH.
  + reflexivity.
  + intros id Hid. destruct (Hids id) as (n' & Hn' & Hs'); [now right|].
    cbn [nodes set_nodes]. destruct (decide (id = a)) as [->|Hne].
    * rewrite list_lookup_alter_eq, Hn'. eexists. split; [reflexivity|exact Hs'].
    * rewrite list_lookup_alter_ne by congruence. eauto.
Qed.

Lemma onInterrupted_spec (st : Refs) :
  started_sources st ->
  onInterrupted st
  = (Normal tt,
     set_nextStartTime 0
       (set_activeSources []
          (set_nodes (stopped_nodes (activeSources st) (nodes st)) st))).
Proof.
intros Hst. unfold onInterrupted, mbind, handler_bind, get. cbv beta iota.
rewrite forEach_source_stop by exact Hst. reflexivity.
Qed.

Lemma stopCoach_spec (st : Refs) :
  started_sources st ->
  stopCoach st
  = (Normal tt,
     {| audioContextIn := audioContextIn st;
        audioContextOut := audioContextOut st;
        sessionPromise := None;
        nextStartTime := nextStartTime st;
        activeSources := [];
        nodes := stopped_nodes (activeSources st) (nodes st);
        promises :=
          match sessionPromise st with
          | Some p => alter (promise_then CloseSession) p (promises st)
          | None => promises st
          end;
        display := {| coachActive := false;
                      isListening := isListening (display st);
                      transcription := transcription (display st) |} |}).
Proof.
intros Hst.
unfold stopCoach, sessionPromise_then, mbind, handler_bind, get, modify.
cbv beta iota. refs_simpl.
rewrite forEach_source_stop.
- refs_simpl. destruct (sessionPromise st); reflexivity.
- refs_simpl. destruct (sessionPromise st); exact Hst.
Qed.

(** The first half of [onAudio], case by case. *)
Lemma onAudio_sync_unfold (base64 : list N) (st : Refs) :
  onAudio_sync base64 st
  = match audioContextOut st with
    | None => (Normal None, st)
    | Some ctx =>
        let st1 :=
          set_nextStartTime (Qmax (nextStartTime st) (currentTime ctx)) st in
        match decode base64 ≫= (fun bytes => decodeAudioData bytes 24000 1) with
        | Normal buffer => (Normal (Some buffer), st1)
        | Throw e => (Throw e, st1)
        end
    end.
Proof.
unfold onAudio_sync, mbind at 1, handler_bind, get. cbv beta iota.
destruct (audioContextOut st) as [ctx|]; [|reflexivity].
unfold mbind at 1 2 3, handler_bind, modify, lift. cbv beta iota zeta.
destruct (decode base64) as [bytes|e]; [|reflexivity].
rewrite bind_Normal.
destruct (decodeAudioData bytes 24000 1) as [buffer|e]; reflexivity.
Qed.

(** [onAudio] without an output context does nothing. *)
Lemma onAudio_no_context (base64 : list N) (st : Refs) :
  audioContextOut st = None -> onAudio base64 st = (Normal tt, st).
Proof.
intros Hctx. unfold onAudio, onAudio_sync, mbind, handler_bind, get.
cbv beta iota. now rewrite Hctx.
Qed.

(** [onAudio] with an output context: the cursor is raised to the clock,
    then the payload is decoded and, if that succeeds, scheduled. *)
Lemma onAudio_unfold (base64 : list N) (st : Refs) (ctx : AudioContext) :
  audioContextOut st = Some ctx ->
  let st1 := set_nextStartTime (Qmax (nextStartTime st) (currentTime ctx)) st in
  onAudio base64 st
  = match decode base64 ≫= (fun bytes => decodeAudioData bytes 24000 1) with
    | Normal buffer => onAudio_resume buffer st1
    | Throw e => (Throw e, st1)
    end.
Proof.
intros Hctx st1. unfold onAudio, onAudio_sync, mbind at 1 2, handler_bind, get.
cbv beta iota. rewrite Hctx.
unfold mbind at 1 2 3, handler_bind, modify, lift. cbv beta iota. fold st1.
destruct (decode base64) as [bytes|e]; [|reflexivity].
rewrite bind_Normal.
destruct (decodeAudioData bytes 24000 1) as [buffer|e]; reflexivity.
Qed.

(** The second half of [onAudio] on a cursor that is not negative: a new
    node is started at the cursor, the cursor advances by the duration of
    the buffer, the node joins the active set; nothing is thrown. *)
Lemma onAudio_resume_spec (buffer : AudioBuffer) (st : Refs) :
  is_Some (audioContextOut st) -> (0 <= nextStartTime st)%Q ->
  onAudio_resume buffer st
  = (Normal tt,
     {| audioContextIn := audioContextIn st;
        audioContextOut := audioContextOut st;
        sessionPromise := sessionPromise st;
        nextStartTime := Double.add (nextStartTime st) (duration buffer);
        activeSources := Set_add (length (nodes st)) (activeSources st);
        nodes := nodes st ++ [scheduled_node buffer (nextStartTime st)];
        promises := promises st;
        display := display st |}).
Proof.
intros [ctx Hctx] Hpos.
unfold onAudio_resume, mbind, handler_bind, get, createBufferSource,
  source_start, modify.
cbv beta iota. rewrite Hctx. cbn [nodes set_nodes nextStartTime].
rewrite lookup_app_r, Nat.sub_diag by lia. cbn [lookup list_lookup startTime].
rewrite (proj2 (Qle_bool_iff 0 (nextStartTime st)) Hpos).
cbn [set_nodes set_nextStartTime set_activeSources nodes nextStartTime
     activeSources audioContextIn audioContextOut sessionPromise promises
     display node_buffer connected stopped].
rewrite insert_app_r_alt, Nat.sub_diag by lia.
cbn [insert list_insert].
unfold set_activeSources, set_nextStartTime, set_nodes. refs_simpl.
rewrite ?Hctx. reflexivity.
Qed.

(** A message that only carries audio is handled as [onAudio] alone. *)
Lemma onmessage_audio (c : N) (data : list N) (st : Refs) :
  onmessage (audio_message (c :: data)) st = onAudio (c :: data) st.
Proof.
unfold onmessage, onAudio, audio_message, mbind, handler_bind, attempt, lift.
unfold onmessage_rest, mbind, handler_bind.
cbn [first_payload modelTurn parts head mjoin option_join interrupted
     inputAudioTranscription outputTranscription when_some].
destruct (onAudio_sync (c :: data) st) as [[[buffer|]|e] st1]; cbn; try reflexivity.
destruct (onAudio_resume buffer st1) as [[[]|e] st2]; reflexivity.
Qed.

(** The second half of [startCoach] never fails and changes nothing but
    the listening indicator. *)
Lemma startCoach_microphone_spec (stream : completion unit) (st : Refs) :
  startCoach_microphone stream st
  = (Normal tt,
     match stream, audioContextIn st with
     | Normal _, Some _ =>
         set_display {| coachActive := coachActive (display st);
                        isListening := true;
                        transcription := transcription (display st) |} st
     | _, _ => st
     end).
Proof.
unfold startCoach_microphone, mbind, handler_bind, get. cbv beta iota.
destruct stream as [[]|e], (audioContextIn st); reflexivity.
Qed.

Lemma startCoach_microphone_frame (stream : completion unit) (st : Refs) :
  audioContextIn (snd (startCoach_microphone stream st)) = audioContextIn st
  /\ audioContextOut (snd (startCoach_microphone stream st))
     = audioContextOut st
  /\ sessionPromise (snd (startCoach_microphone stream st)) = sessionPromise st
  /\ nextStartTime (snd (startCoach_microphone stream st)) = nextStartTime st
  /\ activeSources (snd (startCoach_microphone stream st)) = activeSources st
  /\ nodes (snd (startCoach_microphone stream st)) = nodes st
  /\ promises (snd (startCoach_microphone stream st)) = promises st.
Proof.
rewrite startCoach_microphone_spec. cbn [snd].
destruct stream as [[]|e]; [|repeat split].
destruct (audioContextIn st) eqn:Hin; refs_simpl; rewrite ?Hin; repeat split.
Qed.

(** The condition of the first [if] of [onmessage] either raises a
    TypeError or yields the payload, if any. *)
Lemma first_payload_cases (message : LiveServerMessage) :
  (first_payload message = Throw TypeError /\ inlineData message = None)
  \/ first_payload message = Normal (inlineData message).
Proof.
unfold inlineData, first_payload.
destruct (modelTurn message) as [[[ps|]]|]; cbn; auto.
Qed.

Lemma first_payload_inlineData (message : LiveServerMessage) (base64 : list N) :
  inlineData message = Some base64 ->
  first_payload message = Normal (inlineData message).
Proof.
intros H. destruct (first_payload_cases message) as [[_ E]|E]; [|exact E].
rewrite E in H. discriminate H.
Qed.

(** A message whose model turn has no parts is not handled at all. *)
Lemma onmessage_unguarded (message : LiveServerMessage) (st : Refs) (e : exn) :
  first_payload message = Throw e -> onmessage message st = (Throw e, st).
Proof.
intros H. unfold onmessage, mbind at 1, handler_bind, lift. now rewrite H.
Qed.
End HandlerLemmas.

(** ** The invariant of the scheduler *)
Section Invariant.
Import JS WebAudio Codec App AppViews.

Lemma above_weaken (c c' : Q) (st : Refs) :
  (c' <= c)%Q -> above c st -> above c' st.
Proof.
intros Hc (H1 & H2 & H3 & H4 & H5). repeat split; try assumption;
  try apply H5.
now apply Qle_trans with c.
Qed.

Lemma above_zero (c : Q) (st : Refs) : above c st -> above 0 st.
Proof.
intros (H1 & H2 & H3 & H4 & H5). repeat split; try assumption; apply H5.
Qed.

Lemma above_timed (c : Q) (st : Refs) : above c st -> timed st.
Proof. intros H. apply H. Qed.

(** A change of the promises or of the display does not touch the
    scheduler. *)
Lemma above_same_scheduler (c : Q) (st st' : Refs) :
  nextStartTime st' = nextStartTime st ->
  activeSources st' = activeSources st ->
  nodes st' = nodes st ->
  audioContextOut st' = audioContextOut st ->
  above c st -> above c st'.
Proof.
intros E1 E2 E3 E4 (H1 & H2 & H3 & H4 & H5 & H6).
unfold above, timed, started_sources.
rewrite E1, E2, E3, E4. repeat split; assumption.
Qed.

Lemma raised_ge (c : Q) (st : Refs) : (c <= raised c st)%Q.
Proof.
unfold raised. destruct (audioContextOut st); [apply Q.le_max_l|apply Qle_refl].
Qed.

(** Raising the cursor to the clock keeps the invariant. *)
Lemma raise_above (c : Q) (st : Refs) (ctx : AudioContext) :
  above c st -> audioContextOut st = Some ctx ->
  above (Qmax c (currentTime ctx))
    (set_nextStartTime (Qmax (nextStartTime st) (currentTime ctx)) st).
Proof.
intros (H1 & H2 & H3 & H4 & H5 & H6) Hctx.
split; [|split; [|split; [exact H3|split; [exact H4|split]]]].
- cbn. now apply Q.max_le_compat_r.
- cbn. apply Qle_trans with (nextStartTime st); [exact H2|apply Q.le_max_l].
- cbn. apply is_double_max; [exact H5|exact (H6 ctx Hctx)].
- exact H6.
Qed.

Lemma onAudio_sync_above (c : Q) (base64 : list N) (st : Refs) :
  above c st ->
  above (raised c st) (snd (onAudio_sync base64 st))
  /\ forall buffer,
       fst (onAudio_sync base64 st) = Normal (Some buffer) ->
       (0 <= duration buffer)%Q
       /\ is_Some (audioContextOut (snd (onAudio_sync base64 st))).
Proof.
intros Habove. rewrite onAudio_sync_unfold. unfold raised.
destruct (audioContextOut st) as [ctx|] eqn:Hctx.
- cbv zeta.
  set (st1 := set_nextStartTime (Qmax (nextStartTime st) (currentTime ctx)) st).
  assert (H1 : above (Qmax c (currentTime ctx)) st1)
    by now apply raise_above.
  destruct (decode base64) as [bytes|e];
    [|split; [exact H1|intros b Hb; discriminate Hb]].
  rewrite bind_Normal.
  destruct (decodeAudioData bytes 24000 1) as [buffer|e] eqn:Hdec;
    [|split; [exact H1|intros b Hb; discriminate Hb]].
  split; [exact H1|]. cbn [fst snd]. intros b Hb. injection Hb as <-. split.
  + apply duration_nonneg.
    rewrite (decodeAudioData_sampleRate _ _ _ _ Hdec). reflexivity.
  + subst st1. refs_simpl. rewrite Hctx. eauto.
- split; [exact Habove|]. intros b Hb. discriminate Hb.
Qed.

Lemma onInterrupted_above (c : Q) (st : Refs) :
  above c st ->
  fst (onInterrupted st) = Normal tt /\ above 0 (snd (onInterrupted st)).
Proof.
intros (H1 & H2 & H3 & H4 & H5 & H6). rewrite (onInterrupted_spec st H3).
split; [reflexivity|].
split; [cbn; apply Qle_refl|]. split; [cbn; apply Qle_refl|].
split; [|split; [exact H4|split; [reflexivity|exact H6]]].
intros id Hid. cbn in Hid. now apply not_elem_of_nil in Hid.
Qed.

Lemma onTranscription_above (c : Q) (text : list N) (isInput : bool) (st : Refs) :
  above c st ->
  fst (onTranscription text isInput st) = Normal tt
  /\ above c (snd (onTranscription text isInput st)).
Proof.
intros H. split; [reflexivity|].
now apply (above_same_scheduler c st).
Qed.

Lemma when_some_transcription_above (c : Q) (o : option (list N))
  (isInput : bool) (st : Refs) :
  above c st ->
  fst (when_some o (fun text => onTranscription text isInput) st) = Normal tt
  /\ above c (snd (when_some o (fun text => onTranscription text isInput) st)).
Proof.
intros H. destruct o as [text|]; [now apply onTranscription_above|].
split; [reflexivity|exact H].
Qed.

(** The cursor after a chunk: not before the start of the chunk. *)
Lemma cursor_advance (cursor d : Q) :
  Double.is_double cursor = true -> (0 <= d)%Q ->
  (cursor <= Double.add cursor d)%Q.
Proof. intros Hc Hd. apply round_ge; [exact Hc|lra]. Qed.

Lemma onAudio_resume_above (c : Q) (buffer : AudioBuffer) (st : Refs) :
  above c st -> is_Some (audioContextOut st) -> (0 <= duration buffer)%Q ->
  fst (onAudio_resume buffer st) = Normal tt
  /\ above c (snd (onAudio_resume buffer st)).
Proof.
intros (H1 & H2 & H3 & H4 & H5 & H6) Hctx Hd.
rewrite (onAudio_resume_spec buffer st Hctx H2). split; [reflexivity|].
pose proof (cursor_advance _ _ H5 Hd) as Hadv.
split; [|split; [|split; [|split; [exact H4|split; [|exact H6]]]]]; refs_simpl.
- apply Qle_trans with (nextStartTime st); assumption.
- apply Qle_trans with (nextStartTime st); assumption.
- intros id Hid. refs_simpl. unfold Set_add in Hid.
  destruct (decide (length (nodes st) ∈ activeSources st)) as [Hin|Hin].
  + destruct (H3 id Hid) as (node & Hnode & Hs). exists node.
    split; [|exact Hs]. apply lookup_app_l_Some. exact Hnode.
  + apply elem_of_app in Hid. destruct Hid as [Hid|Hid].
    * destruct (H3 id Hid) as (node & Hnode & Hs). exists node.
      split; [|exact Hs]. apply lookup_app_l_Some. exact Hnode.
    * apply list_elem_of_singleton in Hid. subst id.
      exists (scheduled_node buffer (nextStartTime st)). split.
      -- rewrite lookup_app_r, Nat.sub_diag by lia. reflexivity.
      -- cbn. eauto.
- apply is_double_round.
Qed.

Lemma onmessage_rest_above (c : Q) (message : LiveServerMessage) (st : Refs) :
  above c st ->
  fst (onmessage_rest message st) = Normal tt
  /\ above (if interrupted message then 0 else c) (snd (onmessage_rest message st))
  /\ audioContextOut (snd (onmessage_rest message st)) = audioContextOut st.
Proof.
intros Habove. unfold onmessage_rest, mbind, handler_bind.
set (c' := if interrupted message then 0%Q else c).
assert (H1 : exists st1,
  (if interrupted message then onInterrupted else mret tt) st = (Normal tt, st1)
  /\ above c' st1 /\ audioContextOut st1 = audioContextOut st).
{ subst c'. destruct (interrupted message).
  - destruct (onInterrupted_above c st Habove) as [_ Ha].
    destruct Habove as (_ & _ & Hs & _).
    rewrite (onInterrupted_spec st Hs) in *. eexists. split; [reflexivity|].
    split; [exact Ha|reflexivity].
  - exists st. split; [reflexivity|]. split; [exact Habove|reflexivity]. }
destruct H1 as (st1 & -> & Ha1 & Hc1).
destruct (inputAudioTranscription message) as [t1|],
         (outputTranscription message) as [t2|];
  cbn [when_some mret handler_ret fst snd];
  (split; [reflexivity|]); (split; [|exact Hc1]);
  try exact Ha1;
  (eapply above_same_scheduler; [..|exact Ha1]); reflexivity.
Qed.

(** The refs after a message whose first condition does not fail, stage
    by stage. *)
Lemma onmessage_stages (message : LiveServerMessage) (st : Refs) :
  first_payload message = Normal (inlineData message) ->
  let r1 := match inlineData message with
            | Some (c :: data) => onAudio_sync (c :: data) st
            | _ => (Normal None, st)
            end in
  let st2 := snd (onmessage_rest message (snd r1)) in
  snd (onmessage message st)
  = match fst r1 with
    | Normal (Some buffer) => snd (onAudio_resume buffer st2)
    | _ => st2
    end.
Proof.
intros Hfirst.
unfold onmessage, mbind at 1 2 3 4, handler_bind, attempt, lift.
rewrite Hfirst.
destruct (inlineData message) as [[|c data]|]; cbn [mret handler_ret fst snd].
- destruct (onmessage_rest message st) as [r st2]. reflexivity.
- destruct (onAudio_sync (c :: data) st) as [[[buffer|]|e] st1]; cbn [fst snd];
    destruct (onmessage_rest message st1) as [r st2]; cbn [fst snd];
    try reflexivity.
  destruct (onAudio_resume buffer st2) as [r3 st3]. reflexivity.
- destruct (onmessage_rest message st) as [r st2]. reflexivity.
Qed.

Lemma bound_after_le (c : Q) (message : LiveServerMessage) (st : Refs) :
  inlineData message = None -> above c st ->
  above (bound_after c message st) st.
Proof.
intros Hnone Habove. unfold bound_after. rewrite Hnone.
destruct (interrupted message); [exact (above_zero c st Habove)|exact Habove].
Qed.

Lemma onmessage_above (c : Q) (message : LiveServerMessage) (st : Refs) :
  above c st ->
  above (bound_after c message st) (snd (onmessage message st)).
Proof.
intros Habove.
destruct (first_payload_cases message) as [[Hthrow Hnone]|Hfirst].
{ rewrite (onmessage_unguarded message st _ Hthrow). cbn [snd].
  now apply bound_after_le. }
rewrite (onmessage_stages message st Hfirst). cbv zeta. unfold bound_after.
assert (Hsync : forall b64,
  let r1 := onAudio_sync b64 st in
  above (if interrupted message then 0 else raised c st)
    match fst r1 with
    | Normal (Some buffer) =>
        snd (onAudio_resume buffer (snd (onmessage_rest message (snd r1))))
    | _ => snd (onmessage_rest message (snd r1))
    end).
{ intros b64 r1. subst r1.
  destruct (onAudio_sync_above c b64 st Habove) as [Ha1 Hbuf].
  destruct (onmessage_rest_above _ message _ Ha1) as (_ & Ha2 & Hctx2).
  destruct (fst (onAudio_sync b64 st)) as [[buffer|]|e]; try exact Ha2.
  destruct (Hbuf buffer eq_refl) as [Hd Hctx].
  apply onAudio_resume_above; [exact Ha2| |exact Hd].
  now rewrite Hctx2. }
destruct (inlineData message) as [[|ch data]|].
- cbn [fst snd]. apply (onmessage_rest_above c message st Habove).
- apply Hsync.
- cbn [fst snd]. apply (onmessage_rest_above c message st Habove).
Qed.

Lemma bound_after_ge (c : Q) (message : LiveServerMessage) (st : Refs) :
  interrupted message = false -> (c <= bound_after c message st)%Q.
Proof.
intros Hni. unfold bound_after. rewrite Hni.
destruct (inlineData message) as [[|ch data]|];
  try apply Qle_refl. apply raised_ge.
Qed.

Lemma startCoach_above (c : Q) (st : Refs) :
  above c st -> above c (snd (startCoach st)).
Proof.
intros (H1 & H2 & H3 & H4 & H5 & H6).
unfold startCoach, initAudio, mbind, handler_bind, modify. cbv beta iota.
destruct (audioContextOut st) as [ctx|] eqn:Hctx;
  (split; [exact H1|split; [exact H2|split; [exact H3|]]]);
  (split; [|split; [exact H5|]]);
  intros ctx' Hctx'; refs_simpl.
- apply H4. now rewrite <- Hctx'.
- apply H6. now rewrite <- Hctx'.
- injection Hctx' as <-. apply Qle_refl.
- injection Hctx' as <-. reflexivity.
Qed.

Lemma startCoach_microphone_above (c : Q) (stream : completion unit)
  (st : Refs) :
  above c st -> above c (snd (startCoach_microphone stream st)).
Proof.
intros Habove. unfold startCoach_microphone, mbind, handler_bind, get.
cbv beta iota.
destruct stream as [[]|e], (audioContextIn st); exact Habove.
Qed.

Lemma stopCoach_above (c : Q) (st : Refs) :
  above c st -> above c (snd (stopCoach st)).
Proof.
intros (H1 & H2 & H3 & H4 & H5 & H6). rewrite (stopCoach_spec st H3).
repeat split; refs_simpl; try assumption.
intros id Hid. refs_simpl. now apply not_elem_of_nil in Hid.
Qed.

Lemma onended_above (c : Q) (source : nat) (st : Refs) :
  above c st -> above c (snd (onended source st)).
Proof.
intros (H1 & H2 & H3 & H4 & H5 & H6). repeat split; try assumption.
intros id Hid. cbn in Hid. unfold Set_delete in Hid.
apply list_elem_of_In, filter_In in Hid. destruct Hid as [Hid _].
apply list_elem_of_In in Hid. exact (H3 id Hid).
Qed.

Lemma onaudioprocess_above (c : Q) (inputData : list number) (st : Refs) :
  above c st -> above c (snd (onaudioprocess inputData st)).
Proof.
intros Habove.
unfold onaudioprocess, sessionPromise_then, mbind, handler_bind, lift, modify.
destruct (Capture.capture_payload inputData) as [b64|e]; [|exact Habove].
cbv beta iota. refs_simpl.
destruct (sessionPromise st); [|exact Habove].
now apply (above_same_scheduler c st).
Qed.

Lemma advance_clock_above (c dt : Q) (st : Refs) :
  (0 <= dt)%Q -> above c st -> above c (advance_clock dt st).
Proof.
intros Hdt (H1 & H2 & H3 & H4 & H5 & H6). unfold advance_clock.
destruct (audioContextOut st) as [ctx|] eqn:Hctx.
- repeat split; try assumption;
    intros ctx' Hctx'; refs_simpl; injection Hctx' as <-; cbn.
  + specialize (H4 ctx eq_refl). apply round_nonneg. lra.
  + apply is_double_round.
- repeat split; try assumption; intros ctx' Hctx'; congruence.
Qed.

(** Every event keeps the invariant; only an interruption lowers the
    bound on the cursor. *)
Lemma after_above (c : Q) (ev : event) (st : Refs) :
  above c st -> possible ev ->
  above 0 (after ev st) /\ (~ interrupts ev -> above c (after ev st)).
Proof.
intros Habove Hev.
assert (Hkeep : above c (after ev st) ->
        above 0 (after ev st) /\ (~ interrupts ev -> above c (after ev st)))
  by (intros H; split; [exact (above_zero c _ H)|intros _; exact H]).
destruct ev as [| |message|source|inputData|p|p|dt| |]; unfold after, run.
- apply Hkeep. now apply startCoach_above.
- apply Hkeep. now apply stopCoach_above.
- pose proof (onmessage_above c message st Habove) as H. split.
  + exact (above_zero _ _ H).
  + intros Hni. cbn in Hni.
    apply (above_weaken (bound_after c message st)); [|exact H].
    apply bound_after_ge. now destruct (interrupted message).
- apply Hkeep. now apply onended_above.
- apply Hkeep. now apply onaudioprocess_above.
- apply Hkeep. now apply (above_same_scheduler c st).
- apply Hkeep. now apply (above_same_scheduler c st).
- apply Hkeep. now apply advance_clock_above.
- apply Hkeep. now apply startCoach_microphone_above.
- apply Hkeep. now apply startCoach_microphone_above.
Qed.

Lemma initial_above : above 0 initial.
Proof.
split; [apply Qle_refl|]. split; [apply Qle_refl|].
split; [|split; [|split; [reflexivity|]]].
- intros id Hid. cbn in Hid. now apply not_elem_of_nil in Hid.
- intros ctx Hctx. discriminate Hctx.
- intros ctx Hctx. discriminate Hctx.
Qed.

(** In every reachable state the cursor is not negative, the active
    sources are started, the output clock is not negative, and cursor and
    clock are doubles. *)
Lemma reachable_above (st : Refs) : reachable st -> above 0 st.
Proof.
induction 1 as [|ev st Hst IH Hev]; [exact initial_above|].
exact (proj1 (after_above 0 ev st IH Hev)).
Qed.

(** An event that is not an interruption does not lower the cursor. *)
Lemma cursor_monotone (ev : event) (st : Refs) :
  reachable st -> possible ev -> ~ interrupts ev ->
  (nextStartTime st <= nextStartTime (after ev st))%Q.
Proof.
intros Hst Hev Hni. pose proof (reachable_above st Hst) as Habove.
assert (Hc : above (nextStartTime st) st).
{ destruct Habove as (_ & H2 & H3 & H4). split; [apply Qle_refl|].
  split; [exact H2|]. split; [exact H3|exact H4]. }
exact (proj1 (proj2 (after_above _ ev st Hc Hev) Hni)).
Qed.
End Invariant.

Section SchedulerLemmas.
Import JS WebAudio Codec App AppViews.

(** A message with only the interruption flag runs [onInterrupted]. *)
Lemma onmessage_interruption (st : Refs) :
  fst (onInterrupted st) = Normal tt ->
  onmessage interruption_message st = onInterrupted st.
Proof.
unfold onmessage, onmessage_rest, interruption_message, mbind, handler_bind,
  attempt, lift.
cbn [first_payload modelTurn interrupted inputAudioTranscription
     outputTranscription when_some mret handler_ret].
destruct (onInterrupted st) as [[[]|e] st']; [reflexivity|discriminate].
Qed.

(** What stopping the active sources does to the nodes. *)
Lemma stopped_nodes_active (st : Refs) (id : nat) :
  started_sources st -> id ∈ activeSources st ->
  exists node,
    nodes st !! id = Some node
    /\ stopped_nodes (activeSources st) (nodes st) !! id = Some (mark_stopped node).
Proof.
intros Hst Hid. destruct (Hst id Hid) as (node & Hnode & _).
exists node. split; [exact Hnode|].
rewrite stopped_nodes_lookup, Hnode. now destruct (decide (id ∈ activeSources st)).
Qed.

Lemma stopped_nodes_inactive (st : Refs) (id : nat) :
  id ∉ activeSources st ->
  stopped_nodes (activeSources st) (nodes st) !! id = nodes st !! id.
Proof.
intros Hid. rewrite stopped_nodes_lookup.
now destruct (decide (id ∈ activeSources st)).
Qed.

(** An audio chunk that decodes, on an output context and a cursor that is
    not negative, is scheduled at the later of cursor and clock. *)
Lemma onAudio_scheduled (base64 : list N) (st : Refs) (ctx : AudioContext)
  (buffer : AudioBuffer) :
  audioContextOut st = Some ctx ->
  (0 <= nextStartTime st)%Q ->
  decode base64 ≫= (fun bytes => decodeAudioData bytes 24000 1) = Normal buffer ->
  let start := Qmax (nextStartTime st) (currentTime ctx) in
  onAudio base64 st
  = (Normal tt,
     {| audioContextIn := audioContextIn st;
        audioContextOut := audioContextOut st;
        sessionPromise := sessionPromise st;
        nextStartTime := Double.add start (duration buffer);
        activeSources := Set_add (length (nodes st)) (activeSources st);
        nodes := nodes st ++ [scheduled_node buffer start];
        promises := promises st;
        display := display st |}).
Proof.
intros Hctx Hpos Hdec start. rewrite (onAudio_unfold base64 st ctx Hctx), Hdec.
cbv zeta. rewrite onAudio_resume_spec.
- reflexivity.
- refs_simpl. rewrite Hctx. eauto.
- refs_simpl. apply Qle_trans with (nextStartTime st); [exact Hpos|apply Q.le_max_l].
Qed.

Lemma after_audio_message (base64 : list N) (st : Refs) :
  base64 <> [] ->
  after (Message (audio_message base64)) st = snd (onAudio base64 st).
Proof.
intros Hne. destruct base64 as [|c data]; [contradiction|].
unfold after, run. now rewrite onmessage_audio.
Qed.

(** The payload of half a second of silence at 24 kHz: 12000 frames. *)
Lemma half_second_chunk :
  let base64 := Base64.b64_encode (map Byte.to_N (replicate 24000 x00)) in
  base64 <> []
  /\ exists buffer,
       decode base64 ≫= (fun bytes => decodeAudioData bytes 24000 1)
       = Normal buffer
       /\ (duration buffer == 1 # 2)%Q.
Proof.
cbv zeta. split.
- intros H. apply (f_equal length) in H.
  rewrite b64_encode_length_groups, length_map, length_replicate in H.
  vm_compute in H. discriminate H.
- rewrite decode_b64_encode, bind_Normal.
  destruct (decodeAudioData_frames (replicate 24000 x00) 24000 1 12000)
    as (buffer & Hdec & _ & Hlen & Hrate & _).
  + rewrite length_replicate. reflexivity.
  + lia.
  + apply Nat.leb_le. vm_compute. reflexivity.
  + rewrite Nat.div_1_r. vm_compute. reflexivity.
  + discriminate.
  + discriminate.
  + exists buffer. split; [exact Hdec|].
    unfold duration. rewrite Hlen, Hrate, Nat.div_1_r. reflexivity.
Qed.

(** The two sums of a cursor and two halves of a second: within three
    units of the last place of the exact sum, and exact when the
    intermediate sums are doubles. *)
Lemma two_half_seconds (start : Q) :
  (0 <= start)%Q ->
  let cursor := Double.round (Double.round (start + (1 # 2)) + (1 # 2)) in
  (Qabs (cursor - start - 1) <= (3 # 9007199254740992) * (start + 1))%Q
  /\ (Double.is_double (start + (1 # 2)) = true ->
      Double.is_double (start + (1 # 2) + (1 # 2)) = true ->
      (cursor - start == 1)%Q).
Proof.
intros Hs cursor. subst cursor.
set (s1 := Double.round (start + (1 # 2))).
set (s2 := Double.round (s1 + (1 # 2))).
assert (Hhalf : (Double.pow2 (-1022) <= 1 # 2)%Q) by (vm_compute; discriminate).
assert (Hu : (Double.pow2 (-53) == 1 # 9007199254740992)%Q) by reflexivity.
assert (H1 : (1 # 2 <= s1)%Q).
{ unfold s1. apply round_ge; [reflexivity|lra]. }
assert (E1 : (Qabs (s1 - (start + (1 # 2)))
              <= (start + (1 # 2)) * (1 # 9007199254740992))%Q).
{ pose proof (round_error (start + (1 # 2))) as E.
  rewrite (Qabs_pos (start + (1 # 2))), Hu in E by lra. apply E. lra. }
assert (E2 : (Qabs (s2 - (s1 + (1 # 2)))
              <= (s1 + (1 # 2)) * (1 # 9007199254740992))%Q).
{ pose proof (round_error (s1 + (1 # 2))) as E.
  rewrite (Qabs_pos (s1 + (1 # 2))), Hu in E by lra. apply E. lra. }
split.
- apply Qabs_Qle_condition in E1, E2. apply Qabs_Qle_condition. split; lra.
- intros D1 D2.
  assert (F1 : s1 = (start + (1 # 2))%Q) by (unfold s1; now apply round_id).
  assert (F2 : s2 = (start + (1 # 2) + (1 # 2))%Q).
  { unfold s2. rewrite F1. now apply round_id. }
  rewrite F2. ring.
Qed.

(** A sequence of possible events leads to a reachable state. *)
Lemma reachable_after_all (evs : list event) :
  Forall possible evs -> reachable (after_all evs).
Proof.
unfold after_all. intros Hevs.
assert (H : forall st, reachable st ->
            reachable (fold_left (fun st ev => after ev st) evs st)).
{ induction Hevs as [|ev evs Hev _ IH]; intros st Hst; [exact Hst|].
  cbn. apply IH. now constructor. }
apply H. constructor.
Qed.
End SchedulerLemmas.

(** ** Claims on the playback scheduler *)

(** C3. In every reachable state, the interruption handler stops every
    source of the active set, clears the set and resets the cursor to
    zero, without raising an error, and leaves the other nodes alone; an
    inbound message that carries just the interruption flag does exactly
    this.  In any state with an empty active set the handler raises no
    error and changes nothing but the cursor, which it resets. *)
Theorem C3_interrupt (st : App.Refs) :
  (App.reachable st ->
   exists st',
     App.onInterrupted st = (JS.Normal tt, st')
     /\ App.run (App.Message App.interruption_message) st = (JS.Normal tt, st')
     /\ App.activeSources st' = []
     /\ App.nextStartTime st' = 0%Q
     /\ (forall id, id ∈ App.activeSources st ->
           exists node,
             App.nodes st !! id = Some node
             /\ App.nodes st' !! id = Some (App.mark_stopped node))
     /\ (forall id, id ∉ App.activeSources st ->
           App.nodes st' !! id = App.nodes st !! id))
  /\ (App.activeSources st = [] ->
      App.onInterrupted st = (JS.Normal tt, App.set_nextStartTime 0 st)).
Proof.
split.
- intros Hreach. destruct (reachable_above st Hreach) as (_ & _ & Hst & _).
  pose proof (onInterrupted_spec st Hst) as Hspec.
  eexists. split; [exact Hspec|]. split.
  + cbn [App.run]. rewrite onmessage_interruption; [exact Hspec|].
    now rewrite Hspec.
  + refs_simpl. repeat split.
    * intros id Hid. now apply stopped_nodes_active.
    * intros id Hid. now apply stopped_nodes_inactive.
- intros Hempty. rewrite onInterrupted_spec.
  + rewrite Hempty. destruct st. cbn in *. subst. reflexivity.
  + intros id Hid. rewrite Hempty in Hid. now apply not_elem_of_nil in Hid.
Qed.

(** C10. In every reachable state, [stopCoach] stops every active source
    and clears the active set without raising an error, drops the session
    promise after registering the close of its session (a session already
    open is closed; one still connecting is closed when it opens), and
    leaves the cursor at its value.  No event other than a message with the
    interruption flag takes a positive cursor back to zero. *)
Theorem C10_stopCoach_keeps_cursor (st : App.Refs) :
  App.reachable st ->
  exists st',
    App.stopCoach st = (JS.Normal tt, st')
    /\ App.activeSources st' = []
    /\ (forall id, id ∈ App.activeSources st ->
          exists node,
            App.nodes st !! id = Some node
            /\ App.nodes st' !! id = Some (App.mark_stopped node))
    /\ App.nextStartTime st' = App.nextStartTime st
    /\ App.sessionPromise st' = None
    /\ (forall p session,
          App.sessionPromise st = Some p ->
          App.promises st !! p = Some (App.Fulfilled session) ->
          App.promises st' !! p
          = Some (App.Fulfilled {| App.closed := true;
                                   App.outbound := App.outbound session |}))
    /\ (forall p reactions,
          App.sessionPromise st = Some p ->
          App.promises st !! p = Some (App.Pending reactions) ->
          App.promises st' !! p
          = Some (App.Pending (reactions ++ [App.CloseSession]))
          /\ exists session,
               App.promise_fulfil (App.Pending (reactions ++ [App.CloseSession]))
               = App.Fulfilled session
               /\ App.closed session = true)
    /\ (forall ev,
          App.possible ev -> ~ AppViews.interrupts ev ->
          (0 < App.nextStartTime st)%Q ->
          (0 < App.nextStartTime (App.after ev st))%Q).
Proof.
intros Hreach. destruct (reachable_above st Hreach) as (_ & _ & Hst & _).
eexists. split; [exact (stopCoach_spec st Hst)|]. refs_simpl.
split; [reflexivity|]. split; [|split; [reflexivity|split; [reflexivity|]]].
- intros id Hid. now apply stopped_nodes_active.
- split; [|split].
  + intros p session Hp Hs. rewrite Hp, list_lookup_alter_eq, Hs. reflexivity.
  + intros p reactions Hp Hs. rewrite Hp, list_lookup_alter_eq, Hs.
    split; [reflexivity|]. eexists. split; [reflexivity|].
    rewrite fold_left_app. reflexivity.
  + intros ev Hev Hni Hpos.
    apply Qlt_le_trans with (App.nextStartTime st); [exact Hpos|].
    now apply cursor_monotone.
Qed.

(** One chunk is playing when the interruption arrives. *)
Lemma C3_witness :
  let st := AppViews.after_all
              [App.StartCoach;
               App.Message (App.audio_message (JS.of_ascii_string "AAA="))] in
  App.activeSources st = [0%nat]
  /\ exists st',
       App.onInterrupted st = (JS.Normal tt, st')
       /\ App.activeSources st' = []
       /\ App.nextStartTime st' = 0%Q
       /\ App.stopped <$> App.nodes st' !! 0%nat = Some true.
Proof.
intros st. split; [reflexivity|].
assert (Hreach : App.reachable st)
  by (apply reachable_after_all; repeat constructor).
destruct (proj1 (C3_interrupt st) Hreach) as (st' & H1 & _ & H2 & H3 & H4 & _).
exists st'. repeat split; try assumption.
destruct (H4 0%nat) as (node & _ & Hnode); [now left|].
now rewrite Hnode.
Defined.

(** The coach is stopped while a chunk is playing on an open session. *)
Lemma C10_witness :
  let st := AppViews.after_all
              [App.StartCoach; App.SessionOpened 0;
               App.Message (App.audio_message (JS.of_ascii_string "AAA="))] in
  (0 < App.nextStartTime st)%Q
  /\ exists st',
       App.stopCoach st = (JS.Normal tt, st')
       /\ App.activeSources st' = []
       /\ App.stopped <$> App.nodes st' !! 0%nat = Some true
       /\ App.nextStartTime st' = App.nextStartTime st
       /\ App.sessionPromise st' = None
       /\ App.promises st' !! 0%nat
          = Some (App.Fulfilled {| App.closed := true; App.outbound := [] |}).
Proof.
intros st. split; [reflexivity|].
assert (Hreach : App.reachable st)
  by (apply reachable_after_all; repeat constructor).
destruct (C10_stopCoach_keeps_cursor st Hreach)
  as (st' & H1 & H2 & H3 & H4 & H5 & H6 & _).
exists st'. repeat split; try assumption.
- destruct (H3 0%nat) as (node & _ & Hnode); [now left|]. now rewrite Hnode.
- exact (H6 0%nat {| App.closed := false; App.outbound := [] |} eq_refl eq_refl).
Defined.

(** C6, as stated, fails: the cursor is not always at or past the clock.
    Once the scheduled audio has played out the clock runs past it, and an
    interruption puts the cursor back to zero while the clock keeps its
    value. *)
Lemma C6_counterexample :
  (let st := AppViews.after_all
               [App.StartCoach;
                App.Message (App.audio_message (JS.of_ascii_string "AAA="));
                App.ClockAdvance 1] in
   App.reachable st
   /\ exists ctx,
        App.audioContextOut st = Some ctx
        /\ (App.nextStartTime st < App.currentTime ctx)%Q)
  /\ (let st := AppViews.after_all
                  [App.StartCoach; App.ClockAdvance 1;
                   App.Message (App.audio_message (JS.of_ascii_string "AAA="));
                   App.Message App.interruption_message] in
      App.reachable st
      /\ exists ctx,
           App.audioContextOut st = Some ctx
           /\ (App.nextStartTime st < App.currentTime ctx)%Q).
Proof.
split; cbv zeta; (split; [apply reachable_after_all; repeat constructor;
                          discriminate|]);
  eexists; (split; [reflexivity|]); reflexivity.
Qed.

(** C6, amended.  In every reachable state the cursor is not negative
    and no operation other than an interruption lowers it; and right after
    an inbound audio chunk without interruption is handled, with the output
    context present, the cursor is at or past the clock. *)
Theorem C6_cursor_invariant (st : App.Refs) :
  App.reachable st ->
  (0 <= App.nextStartTime st)%Q
  /\ (forall ev,
        App.possible ev -> ~ AppViews.interrupts ev ->
        (App.nextStartTime st <= App.nextStartTime (App.after ev st))%Q)
  /\ (forall message base64 ctx,
        App.inlineData message = Some base64 -> base64 <> [] ->
        App.interrupted message = false ->
        App.audioContextOut st = Some ctx ->
        let st' := App.after (App.Message message) st in
        App.audioContextOut st' = Some ctx
        /\ (App.currentTime ctx <= App.nextStartTime st')%Q).
Proof.
intros Hreach. pose proof (reachable_above st Hreach) as Habove.
split; [apply Habove|]. split.
- intros ev Hev Hni. now apply cursor_monotone.
- intros message base64 ctx Hdata Hne Hni Hctx st'.
  pose proof (onmessage_above 0 message st Habove) as H.
  unfold AppViews.bound_after, AppViews.raised in H.
  rewrite Hni, Hdata, Hctx in H. destruct base64 as [|c data]; [contradiction|].
  fold (App.after (App.Message message) st) in H. fold st' in H.
  destruct H as (Hbound & _). split.
  + subst st'. unfold App.after, App.run.
    rewrite (onmessage_stages message st
               (first_payload_inlineData message _ Hdata)).
    cbv zeta. rewrite Hdata.
    rewrite onAudio_sync_unfold, Hctx. cbv zeta.
    set (st1 := App.set_nextStartTime _ st).
    assert (Hrest : forall s,
      App.audioContextOut s = Some ctx ->
      App.audioContextOut (snd (App.onmessage_rest message s)) = Some ctx).
    { intros s Hs. unfold App.onmessage_rest, mbind, App.handler_bind.
      rewrite Hni. cbn [mret App.handler_ret].
      destruct (App.inputAudioTranscription message),
               (App.outputTranscription message); exact Hs. }
    destruct (Codec.decode (c :: data)
              ≫= (fun bytes => Codec.decodeAudioData bytes 24000 1))
      as [buffer|e]; cbn [fst snd].
    * assert (H1 : App.audioContextOut
                     (snd (App.onmessage_rest message st1)) = Some ctx)
        by (apply Hrest; exact Hctx).
      destruct (onmessage_rest_above
                  (App.nextStartTime st1) message st1) as (_ & Ha & _).
      { destruct Habove as (_ & H2 & H3 & H4 & H5 & H6).
        split; [apply Qle_refl|].
        split; [|split; [exact H3|split; [exact H4|split; [|exact H6]]]];
          subst st1; refs_simpl.
        - apply Qle_trans with (App.nextStartTime st); [exact H2|apply Q.le_max_l].
        - apply is_double_max; [exact H5|exact (H6 ctx Hctx)]. }
      rewrite onAudio_resume_spec.
      -- refs_simpl. exact H1.
      -- rewrite H1. eauto.
      -- apply Ha.
    * apply Hrest. exact Hctx.
  + apply Qle_trans with (Qmax 0 (App.currentTime ctx));
      [apply Q.le_max_r|exact Hbound].
Qed.

(** After one chunk on a fresh context the cursor is at the clock. *)
Lemma C6_witness :
  let st := AppViews.after_all [App.StartCoach; App.ClockAdvance 1] in
  let st' := App.after
               (App.Message (App.audio_message (JS.of_ascii_string "AAA="))) st in
  (0 <= App.nextStartTime st)%Q
  /\ (App.nextStartTime st <= App.nextStartTime st')%Q
  /\ (App.currentTime {| App.currentTime := 0 + 1 |} <= App.nextStartTime st')%Q.
Proof.
intros st st'.
assert (Hreach : App.reachable st)
  by (apply reachable_after_all; repeat constructor; discriminate).
destruct (C6_cursor_invariant st Hreach) as (H1 & H2 & H3).
split; [exact H1|]. split.
- apply H2; [exact I|]. intros H. discriminate H.
- apply (H3 _ (JS.of_ascii_string "AAA=")); try reflexivity. discriminate.
Defined.

(** C2, as stated, fails: two chunks scheduled one after the other with no
    interruption are not always back to back.  When the clock has passed
    the cursor before the second chunk arrives, the second chunk starts at
    the clock: after a chunk of 1/24000 s started at 0 and a second of
    pause, the next chunk starts at 1, not at 1/24000, and the cursor has
    advanced by more than the two durations. *)
Lemma C2_counterexample :
  let chunk := App.Message (App.audio_message (JS.of_ascii_string "AAA=")) in
  let st2 := AppViews.after_all
               [App.StartCoach; chunk; App.ClockAdvance 1; chunk] in
  exists node1 node2 buffer1 buffer2 start2,
    App.nodes st2 = [node1; node2]
    /\ App.node_buffer node1 = Some buffer1
    /\ App.node_buffer node2 = Some buffer2
    /\ App.startTime node1 = Some 0%Q
    /\ App.startTime node2 = Some start2
    /\ ~ (start2 == 0 + WebAudio.duration buffer1)%Q
    /\ ~ (App.nextStartTime st2 - 0
          == WebAudio.duration buffer1 + WebAudio.duration buffer2)%Q.
Proof.
cbv zeta. eexists _, _, _, _, _.
split; [vm_compute; reflexivity|].
do 4 (split; [reflexivity|]).
split; vm_compute; discriminate.
Qed.

(** C2, amended.  On a reachable state with an output context, an audio
    chunk that decodes is started at [max(cursor, clock)], which is not
    before the clock, and advances the cursor by its duration, the sum
    being rounded to a double.  A second chunk handled next, with no
    interruption and after the clock has advanced by [dt], starts at the
    later of the end of the first chunk (the cursor) and the clock, so the
    second is never started before the end the code computed for the
    first, nor earlier than that chunk really ends (its start plus the
    time its frames last) by more than the two roundings; when the clock
    has not passed the computed end of the first chunk the second starts
    exactly there.  Two chunks of 0.5 s then
    advance the cursor by 1 s from the start of the first up to the
    rounding of the two sums: within [3 * 2^-53 * (start + 1)] of it, and
    exactly 1 s when [start + 0.5] and [start + 1] are doubles. *)
Theorem C2_schedule_consecutive
  (st : App.Refs) (ctx : App.AudioContext) (base64_1 base64_2 : list N)
  (buffer1 buffer2 : WebAudio.AudioBuffer) (dt : Q) :
  App.reachable st ->
  App.audioContextOut st = Some ctx ->
  base64_1 <> [] -> base64_2 <> [] ->
  Codec.decode base64_1 ≫= (fun bytes => Codec.decodeAudioData bytes 24000 1)
  = JS.Normal buffer1 ->
  Codec.decode base64_2 ≫= (fun bytes => Codec.decodeAudioData bytes 24000 1)
  = JS.Normal buffer2 ->
  (0 <= dt)%Q ->
  let d1 := WebAudio.duration buffer1 in
  let d2 := WebAudio.duration buffer2 in
  let start1 := Qmax (App.nextStartTime st) (App.currentTime ctx) in
  let end1 := Double.add start1 d1 in
  let clock2 := Double.round (App.currentTime ctx + dt) in
  let start2 := Qmax end1 clock2 in
  let st1 := App.after (App.Message (App.audio_message base64_1)) st in
  let st2 := App.after (App.Message (App.audio_message base64_2))
               (App.after (App.ClockAdvance dt) st1) in
  App.nextStartTime st1 = end1
  /\ App.nodes st1 = App.nodes st ++ [AppViews.scheduled_node buffer1 start1]
  /\ (App.currentTime ctx <= start1)%Q
  /\ App.nextStartTime st2 = Double.add start2 d2
  /\ App.nodes st2
     = App.nodes st ++ [AppViews.scheduled_node buffer1 start1;
                        AppViews.scheduled_node buffer2 start2]
  /\ length (App.nodes st) ∈ App.activeSources st2
  /\ S (length (App.nodes st)) ∈ App.activeSources st2
  /\ (clock2 <= start2)%Q
  /\ (start1 <= end1)%Q
  /\ (end1 <= start2)%Q
  /\ (let played1 :=
        inject_Z (Z.of_nat (WebAudio.buffer_length buffer1)) / 24000 in
      start1 + played1 - start2
      <= (3 # 9007199254740992) * (start1 + played1))%Q
  /\ ((clock2 <= end1)%Q ->
      (start2 == end1)%Q
      /\ ((d1 == 1 # 2)%Q -> (d2 == 1 # 2)%Q ->
          (App.nextStartTime st2
           == Double.round (Double.round (start1 + (1 # 2)) + (1 # 2)))%Q
          /\ (Qabs (App.nextStartTime st2 - start1 - 1)
              <= (3 # 9007199254740992) * (start1 + 1))%Q
          /\ (Double.is_double (start1 + (1 # 2)) = true ->
              Double.is_double (start1 + 1) = true ->
              (App.nextStartTime st2 - start1 == 1)%Q))).
Proof.
intros Hreach Hctx Hne1 Hne2 Hdec1 Hdec2 Hdt d1 d2 start1 end1 clock2 start2
  st1 st2.
destruct (reachable_above st Hreach) as (_ & Hpos & _ & Hclock & Hdc & Hdk).
assert (Hd1 : (0 <= d1)%Q).
{ apply duration_nonneg.
  destruct (Codec.decode base64_1) as [bytes|e]; [|discriminate].
  rewrite bind_Normal in Hdec1.
  rewrite (decodeAudioData_sampleRate _ _ _ _ Hdec1). reflexivity. }
assert (Hds : Double.is_double start1 = true)
  by (apply is_double_max; [exact Hdc|exact (Hdk ctx Hctx)]).
assert (Hs1 : (0 <= start1)%Q).
{ apply Qle_trans with (App.nextStartTime st); [exact Hpos|apply Q.le_max_l]. }
assert (He1 : (start1 <= end1)%Q) by now apply cursor_advance.
assert (Hst1 : st1 = snd (App.onAudio base64_1 st))
  by (apply after_audio_message; exact Hne1).
rewrite (onAudio_scheduled base64_1 st ctx buffer1 Hctx Hpos Hdec1) in Hst1.
cbv zeta in Hst1. cbn [snd] in Hst1. fold start1 d1 end1 in Hst1.
set (st1' := App.after (App.ClockAdvance dt) st1) in *.
assert (Hctx1 : App.audioContextOut st1'
                = Some {| App.currentTime := clock2 |}).
{ subst st1'. rewrite Hst1. unfold App.after, App.run, App.modify,
    App.advance_clock. refs_simpl. rewrite Hctx. reflexivity. }
assert (Hrest1 : App.nextStartTime st1' = end1
                 /\ App.nodes st1'
                    = App.nodes st ++ [AppViews.scheduled_node buffer1 start1]
                 /\ App.activeSources st1'
                    = App.Set_add (length (App.nodes st)) (App.activeSources st)).
{ subst st1'. rewrite Hst1. unfold App.after, App.run, App.modify,
    App.advance_clock. refs_simpl. rewrite Hctx. refs_simpl. auto. }
destruct Hrest1 as (Hcur1 & Hnodes1 & Hact1).
assert (Hpos1 : (0 <= App.nextStartTime st1')%Q) by (rewrite Hcur1; lra).
assert (Hst2 : st2 = snd (App.onAudio base64_2 st1'))
  by (apply after_audio_message; exact Hne2).
rewrite (onAudio_scheduled base64_2 st1' _ buffer2 Hctx1 Hpos1 Hdec2) in Hst2.
cbv zeta in Hst2. cbn [snd App.currentTime] in Hst2.
rewrite Hcur1, Hnodes1, Hact1 in Hst2. fold start2 d2 in Hst2.
split; [now rewrite Hst1|]. split; [now rewrite Hst1|].
split; [apply Q.le_max_r|].
split; [now rewrite Hst2|].
split; [rewrite Hst2; refs_simpl; now rewrite <- app_assoc|].
assert (Hin1 : length (App.nodes st)
               ∈ App.Set_add (length (App.nodes st)) (App.activeSources st)).
{ unfold App.Set_add. destruct (decide _) as [Hin|Hin]; [exact Hin|].
  apply elem_of_app. right. now left. }
split; [|split; [|split; [|split; [exact He1|split; [|split]]]]].
- rewrite Hst2. refs_simpl. unfold App.Set_add at 1.
  destruct (decide _); [assumption|]. apply elem_of_app. now left.
- rewrite Hst2. refs_simpl. rewrite length_app. cbn [length].
  replace (length (App.nodes st) + 1)%nat with (S (length (App.nodes st))) by lia.
  unfold App.Set_add at 1.
  destruct (decide _) as [Hin|Hin]; [exact Hin|].
  apply elem_of_app. right. now left.
- apply Q.le_max_r.
- apply Q.le_max_l.
- cbv zeta.
  assert (Hbuf : (1 <= WebAudio.buffer_length buffer1)%nat
                 /\ WebAudio.sampleRate buffer1 = 24000%Q).
  { destruct (Codec.decode base64_1) as [bytes|e]; [|discriminate].
    rewrite bind_Normal in Hdec1.
    split; [exact (decodeAudioData_length_pos _ _ _ _ Hdec1)
           |exact (decodeAudioData_sampleRate _ _ _ _ Hdec1)]. }
  destruct (duration_error buffer1 (proj1 Hbuf) (proj2 Hbuf)) as [Hlow Ed].
  cbv zeta in Ed. fold d1 in Hlow, Ed.
  set (played1 := (inject_Z (Z.of_nat (WebAudio.buffer_length buffer1))
                   / 24000)%Q) in *.
  assert (Hu : (Double.pow2 (-53) == 1 # 9007199254740992)%Q) by reflexivity.
  assert (Hmin : (Double.pow2 (-1022) <= 1 # 32768)%Q)
    by (vm_compute; discriminate).
  assert (Ee : (Qabs (end1 - (start1 + d1))
                <= (start1 + d1) * (1 # 9007199254740992))%Q).
  { pose proof (round_error (start1 + d1)) as E.
    rewrite (Qabs_pos (start1 + d1)), Hu in E by lra. apply E. lra. }
  assert (Hs2 : (end1 <= start2)%Q) by apply Q.le_max_l.
  apply Qabs_Qle_condition in Ed, Ee. lra.
- intros Hclock2. assert (Hs2 : (start2 == end1)%Q)
    by (subst start2; now apply Q.max_l).
  split; [exact Hs2|]. intros Ed1 Ed2.
  assert (Ecur : (App.nextStartTime st2
                  == Double.round (Double.round (start1 + (1 # 2)) + (1 # 2)))%Q).
  { rewrite Hst2. refs_simpl. unfold Double.add. apply round_comp.
    rewrite Hs2, Ed2. unfold end1, Double.add.
    apply Qplus_comp; [|reflexivity]. apply round_comp. now rewrite Ed1. }
  destruct (two_half_seconds start1 Hs1) as [Hbound Hexact].
  cbv zeta in Hbound, Hexact.
  split; [exact Ecur|]. split.
  + assert (E : (App.nextStartTime st2 - start1 - 1
                 == Double.round (Double.round (start1 + (1 # 2)) + (1 # 2))
                    - start1 - 1)%Q) by now rewrite Ecur.
    rewrite (Qabs_wd _ _ E). exact Hbound.
  + intros D1 D2. rewrite Ecur. apply Hexact; [exact D1|].
    rewrite (is_double_comp _ (start1 + 1)); [exact D2|ring].
Qed.

(** Two chunks of half a second of silence, a quarter of a second apart,
    on a fresh session: the cursor ends one second after the start of the
    first. *)
Lemma C2_witness :
  let base64 := Base64.b64_encode (map Byte.to_N (replicate 24000 x00)) in
  let st := AppViews.after_all [App.StartCoach] in
  let st2 := App.after (App.Message (App.audio_message base64))
               (App.after (App.ClockAdvance (1 # 4))
                  (App.after (App.Message (App.audio_message base64)) st)) in
  (App.nextStartTime st2 - 0 == 1)%Q.
Proof.
intros base64 st st2.
destruct half_second_chunk as (Hne & buffer & Hdec & Hd). fold base64 in Hne, Hdec.
assert (Hreach : App.reachable st)
  by (apply reachable_after_all; repeat constructor).
destruct (C2_schedule_consecutive st {| App.currentTime := 0 |}
            base64 base64 buffer buffer (1 # 4)
            Hreach eq_refl Hne Hne Hdec Hdec)
  as (_ & _ & _ & _ & _ & _ & _ & _ & _ & _ & _ & H); [discriminate|].
destruct H as [_ H].
- cbn [App.currentTime]. apply round_ge; [reflexivity|].
  rewrite Hd. vm_compute. discriminate.
- destruct (H Hd Hd) as (_ & _ & Hexact). apply Hexact; reflexivity.
Defined.

(** ** Claims on the generation calls *)
Section GenerationLemmas.
Import JS Generation.

Variable JSON_parse : list N -> completion JSON.

(** What [JSON.parse] returns on the two fallback literals. *)
Hypothesis JSON_parse_no_dishes :
  JSON_parse no_dishes = Normal (JObject [(of_ascii_string "dishes", JArray [])]).
Hypothesis JSON_parse_empty_object :
  JSON_parse (of_ascii_string "{}") = Normal (JObject []).

(** Without a text (absent or empty) [getSuggestions] returns the empty
    collection. *)
Lemma getSuggestions_absent_text (response : GenerateContentResponse) :
  text response = None \/ text response = Some [] ->
  getSuggestions JSON_parse (Normal response) = Normal (Some (JArray [])).
Proof using JSON_parse_no_dishes.
intros Htext. unfold getSuggestions. rewrite bind_Normal.
replace (or_else (text response) no_dishes) with no_dishes
  by (destruct Htext as [-> | ->]; reflexivity).
rewrite JSON_parse_no_dishes, bind_Normal. reflexivity.
Qed.

(** Without a text [getFullRecipe] returns the empty object. *)
Lemma getFullRecipe_absent_text (response : GenerateContentResponse) :
  text response = None \/ text response = Some [] ->
  getFullRecipe JSON_parse (Normal response) = Normal (JObject []).
Proof using JSON_parse_empty_object.
intros Htext. unfold getFullRecipe. rewrite bind_Normal.
replace (or_else (text response) (of_ascii_string "{}"))
  with (of_ascii_string "{}")
  by (destruct Htext as [-> | ->]; reflexivity).
exact JSON_parse_empty_object.
Qed.

Lemma first_image_none (ps : list Part) :
  Forall (fun part => inlineData part = None) ps ->
  first_image ps = placeholder.
Proof.
induction 1 as [|part rest Hpart _ IH]; [reflexivity|].
destruct part as [[blob|]]; [discriminate Hpart|exact IH].
Qed.

(** With a list of parts none of which is an image, [generateDishImage]
    returns the placeholder. *)
Lemma generateDishImage_no_image_part
  (response : GenerateContentResponse) (candidate : Candidate)
  (others : list Candidate) (ps : list Part) :
  candidates response = Some (candidate :: others) ->
  content candidate = Some {| parts := Some ps |} ->
  Forall (fun part => inlineData part = None) ps ->
  generateDishImage (Normal response) = Normal placeholder.
Proof.
intros Hc Hcontent Hps. unfold generateDishImage.
rewrite bind_Normal, Hc. cbn [defined]. rewrite bind_Normal.
cbn [lookup list_lookup defined]. rewrite bind_Normal, Hcontent.
change (Normal (first_image ps) = Normal placeholder).
now rewrite (first_image_none ps Hps).
Qed.
End GenerationLemmas.

(** C9 fails on the code for the image call.  A response without
    candidates, or whose first candidate has no content, carries no image
    part; [generateDishImage] reads [response.candidates[0].content.parts]
    without a guard and the TypeError propagates, where the two text calls
    guard the absent text with [||] and the claim promises the
    placeholder. *)
Theorem C9_generateDishImage_propagates :
  Generation.generateDishImage
    (JS.Normal {| Generation.text := None; Generation.candidates := Some [] |})
  = JS.Throw JS.TypeError
  /\ Generation.generateDishImage
       (JS.Normal {| Generation.text := None; Generation.candidates := None |})
     = JS.Throw JS.TypeError
  /\ Generation.generateDishImage
       (JS.Normal {| Generation.text := None;
                     Generation.candidates :=
                       Some [{| Generation.content := None |}] |})
     = JS.Throw JS.TypeError.
Proof. repeat split. Qed.

(** * Further properties of the code *)

(** ** The codec *)
Section CodecExtraLemmas.
Import JS Base64 Base64Views Codec.

Lemma b64_padding_count (bs : list N) :
  b64_padding bs = replicate ((3 - length bs mod 3) mod 3) pad.
Proof.
induction bs as [|a|a b|a b c rest IH] using list_ind3; try reflexivity.
cbn [b64_padding length]. rewrite IH.
replace (S (S (S (length rest)))) with (length rest + 1 * 3)%nat by lia.
now rewrite Nat.Div0.mod_add.
Qed.

Lemma remove_whitespace_idem (text : list N) :
  remove_whitespace (remove_whitespace text) = remove_whitespace text.
Proof.
unfold remove_whitespace. induction text as [|c text IH]; [reflexivity|].
cbn. destruct (is_ascii_whitespace c) eqn:Hc; cbn; [exact IH|].
rewrite Hc. cbn. now rewrite IH.
Qed.

Lemma decode_depends_on_atob (t1 t2 : list N) :
  forgiving_base64_decode t1 = forgiving_base64_decode t2 ->
  decode t1 = decode t2.
Proof.
intros H. unfold decode, atob. now rewrite H.
Qed.

(** The five characters of ASCII whitespace. *)
Lemma is_ascii_whitespace_spec (c : N) :
  is_ascii_whitespace c = true <-> c ∈ [9; 10; 12; 13; 32].
Proof.
unfold is_ascii_whitespace.
rewrite !orb_true_iff, !N.eqb_eq, !elem_of_cons, elem_of_nil. tauto.
Qed.

Lemma remove_whitespace_id (text : list N) :
  Forall (fun c => is_ascii_whitespace c = false) text ->
  remove_whitespace text = text.
Proof.
unfold remove_whitespace. induction 1 as [|c text Hc _ IH]; [reflexivity|].
cbn [List.filter]. rewrite Hc. cbn [negb]. now rewrite IH.
Qed.

(** An encoding holds no whitespace. *)
Lemma b64_encode_not_whitespace (bs : list N) :
  Forall (fun b => b < 256) bs ->
  Forall (fun c => is_ascii_whitespace c = false) (b64_encode bs).
Proof.
intros Hbs. rewrite b64_encode_split. apply Forall_app. split.
- pose proof (b64_body_chars bs Hbs) as Hchars.
  apply Forall_forall. intros c Hc. apply is_base64_char_not_whitespace.
  rewrite forallb_forall in Hchars. now apply Hchars, list_elem_of_In.
- destruct (b64_padding_cases bs) as [->|[->| ->]]; repeat constructor.
Qed.

(** Removing the [=] characters of an encoding leaves its body. *)
Lemma filter_pad_encode (bs : list N) :
  Forall (fun b => b < 256) bs ->
  List.filter (fun c => negb (c =? pad)) (b64_encode bs) = b64_body bs.
Proof.
intros Hbs. rewrite b64_encode_split, List.filter_app.
pose proof (forallb_base64_not_pad _ (b64_body_chars bs Hbs)) as Hbody.
assert (H1 : List.filter (fun c => negb (c =? pad)) (b64_body bs) = b64_body bs).
{ induction Hbody as [|c l Hc _ IH]; [reflexivity|].
  cbn. apply N.eqb_neq in Hc. rewrite Hc. cbn. now rewrite IH. }
rewrite H1. destruct (b64_padding_cases bs) as [->|[->| ->]];
  cbn; now rewrite ?app_nil_r.
Qed.

(** [atob] reads an unpadded body back to the bytes. *)
Lemma forgiving_base64_decode_body (bs : list N) :
  Forall (fun b => b < 256) bs ->
  forgiving_base64_decode (b64_body bs) = Some bs.
Proof.
intros Hbs. unfold forgiving_base64_decode.
pose proof (b64_body_chars bs Hbs) as Hchars.
pose proof (remove_whitespace_base64 (b64_body bs) [] Hchars (or_introl eq_refl)) as Hws.
rewrite app_nil_r in Hws. rewrite Hws.
assert (Hstrip : strip_padding (b64_body bs) = b64_body bs).
{ unfold strip_padding.
  destruct (N.of_nat (length (b64_body bs)) mod 4 =? 0); [|reflexivity].
  pose proof (forallb_base64_not_pad _ Hchars) as Hnp.
  apply Forall_rev in Hnp.
  destruct (rev (b64_body bs)) as [|p1 [|p2 r]]; [reflexivity|..];
    apply Forall_cons in Hnp; destruct Hnp as [Hp1 _];
    apply N.eqb_neq in Hp1; now rewrite Hp1. }
rewrite Hstrip.
pose proof (b64_body_length bs) as Hne. apply N.eqb_neq in Hne.
rewrite Hne, Hchars. cbn. now rewrite decode_loop_body.
Qed.

(** The decoding loop gives three bytes per four characters, and one or
    two bytes for two or three remaining characters. *)
Lemma decode_loop_length (cs : list N) (buf : N) (k : nat) :
  (k < 4)%nat ->
  length (decode_loop cs buf (6 * N.of_nat k))
  = (3 * (k + length cs) / 4)%nat.
Proof.
revert buf k. induction cs as [|c cs IH]; intros buf k Hk.
- destruct k as [|[|[|[|k]]]]; try lia; reflexivity.
- cbn [decode_loop length].
  destruct k as [|[|[|[|k]]]]; try lia.
  + change (6 * N.of_nat 0 + 6 =? 24) with false. cbv iota.
    change (6 * N.of_nat 0 + 6) with (6 * N.of_nat 1). rewrite IH by lia.
    f_equal; lia.
  + change (6 * N.of_nat 1 + 6 =? 24) with false. cbv iota.
    change (6 * N.of_nat 1 + 6) with (6 * N.of_nat 2). rewrite IH by lia.
    f_equal; lia.
  + change (6 * N.of_nat 2 + 6 =? 24) with false. cbv iota.
    change (6 * N.of_nat 2 + 6) with (6 * N.of_nat 3). rewrite IH by lia.
    f_equal; lia.
  + change (6 * N.of_nat 3 + 6 =? 24) with true. cbv iota.
    rewrite length_app. change 0 with (6 * N.of_nat 0). rewrite IH by lia.
    cbn [bytes_of_24 length].
    replace (3 * (3 + S (length cs)))%nat with (3 * (0 + length cs) + 3 * 4)%nat by lia.
    rewrite Nat.div_add by lia. lia.
Qed.
End CodecExtraLemmas.

(** X1. [encode] always returns a payload; it has four characters per
    started group of three bytes, made of characters of the 64-symbol
    alphabet followed by as many [=] as bytes are missing in the last
    group. *)
Theorem X1_encode_shape (bytes : list byte) :
  exists body,
    Codec.encode bytes
    = JS.Normal (body ++ replicate ((3 - length bytes mod 3) mod 3) Base64.pad)
    /\ forallb Base64.is_base64_char body = true
    /\ length (body ++ replicate ((3 - length bytes mod 3) mod 3) Base64.pad)
       = (4 * ((length bytes + 2) / 3))%nat.
Proof.
exists (Base64Views.b64_body (map Byte.to_N bytes)).
assert (Hb : Forall (fun b => b < 256) (map Byte.to_N bytes)).
{ apply Forall_forall. intros c Hc. apply list_elem_of_In, in_map_iff in Hc.
  destruct Hc as (b & <- & _). apply to_N_below_256. }
pose proof (b64_padding_count (map Byte.to_N bytes)) as Hpad.
rewrite length_map in Hpad. rewrite <- Hpad, <- b64_encode_split.
split; [apply encode_spec|]. split; [now apply b64_body_chars|].
now rewrite b64_encode_length_groups, length_map.
Qed.

(** X2. [encode] is injective: two byte sequences with the same payload
    are equal. *)
Theorem X2_encode_injective (bytes1 bytes2 : list byte) :
  Codec.encode bytes1 = Codec.encode bytes2 -> bytes1 = bytes2.
Proof.
rewrite !encode_spec. intros H. injection H as H.
pose proof (decode_b64_encode bytes1) as H1.
rewrite H, decode_b64_encode in H1. now injection H1.
Qed.

Lemma X2_witness : [x01; x02] = [x01; x02].
Proof. apply (X2_encode_injective [x01; x02] [x01; x02]). reflexivity. Defined.

(** X3. One character inserted anywhere into the payload of [encode]:
    [decode] still returns the bytes when the character is a tab, a line
    feed, a form feed, a carriage return or a space, and fails with
    InvalidCharacterError for every other character, a vertical tab or a
    letter of the alphabet included. *)
Theorem X3_decode_inserted_character
  (bytes : list byte) (before after : list N) (c : N) :
  Codec.encode bytes = JS.Normal (before ++ after) ->
  Codec.decode (before ++ c :: after)
  = if bool_decide (c ∈ [9; 10; 12; 13; 32]%N) then JS.Normal bytes
    else JS.Throw JS.InvalidCharacterError.
Proof.
rewrite encode_spec. intros H. injection H as H.
assert (Hb : Forall (fun b => b < 256) (map Byte.to_N bytes)).
{ apply Forall_forall. intros x Hx. apply list_elem_of_In, in_map_iff in Hx.
  destruct Hx as (b & <- & _). apply to_N_below_256. }
pose proof (b64_encode_not_whitespace _ Hb) as Hws.
pose proof (b64_encode_length (map Byte.to_N bytes)) as Hlen.
rewrite H in Hws, Hlen. apply Forall_app in Hws. destruct Hws as [Hw1 Hw2].
pose proof (is_ascii_whitespace_spec c) as Hc.
destruct (bool_decide_reflect (c ∈ [9; 10; 12; 13; 32])) as [Hin|Hout].
- rewrite <- (decode_b64_encode bytes), H. apply decode_depends_on_atob.
  unfold Base64.forgiving_base64_decode, Base64.remove_whitespace.
  rewrite !List.filter_app. cbn [List.filter].
  rewrite (proj2 Hc Hin). reflexivity.
- apply decode_throws. unfold Base64.atob, Base64.forgiving_base64_decode.
  assert (Hcw : Base64.is_ascii_whitespace c = false).
  { destruct (Base64.is_ascii_whitespace c); [|reflexivity].
    now destruct Hout; apply Hc. }
  rewrite (remove_whitespace_id (before ++ c :: after))
    by (apply Forall_app; split; [|constructor]; assumption).
  assert (Hlen' : N.of_nat (length (before ++ c :: after)) mod 4 = 1).
  { rewrite length_app in *. cbn [length].
    replace (N.of_nat (length before + S (length after)))
      with (1 + N.of_nat (length before + length after)) by lia.
    rewrite <- N.Div0.add_mod_idemp_r, Hlen. reflexivity. }
  unfold Base64.strip_padding. rewrite Hlen'.
  change (1 =? 0) with false. cbv iota. rewrite Hlen'. reflexivity.
Qed.

Lemma X3_witness :
  Codec.decode (JS.of_ascii_string "TW Fu") = JS.Normal [x4d; x61; x6e]
  /\ Codec.decode [84; 87; 11; 70; 117]%N = JS.Throw JS.InvalidCharacterError.
Proof.
split.
- exact (X3_decode_inserted_character [x4d; x61; x6e]
           (JS.of_ascii_string "TW") (JS.of_ascii_string "Fu") 32 eq_refl).
- exact (X3_decode_inserted_character [x4d; x61; x6e]
           (JS.of_ascii_string "TW") (JS.of_ascii_string "Fu") 11 eq_refl).
Defined.

(** X4. The padding is optional for [decode]: the payload of [encode]
    with its [=] characters removed still decodes to the bytes. *)
Theorem X4_decode_unpadded (bytes : list byte) (text : list N) :
  Codec.encode bytes = JS.Normal text ->
  Codec.decode (List.filter (fun c => negb (c =? Base64.pad)) text)
  = JS.Normal bytes.
Proof.
rewrite encode_spec. intros H. injection H as <-.
assert (Hb : Forall (fun b => b < 256) (map Byte.to_N bytes)).
{ apply Forall_forall. intros c Hc. apply list_elem_of_In, in_map_iff in Hc.
  destruct Hc as (b & <- & _). apply to_N_below_256. }
rewrite (filter_pad_encode _ Hb).
rewrite (decode_spec _ (map Byte.to_N bytes)).
- f_equal. rewrite map_map. rewrite <- (map_id bytes) at 2.
  apply map_ext. intros b. apply ToUint8_to_N.
- unfold Base64.atob. now rewrite forgiving_base64_decode_body.
Qed.

Lemma X4_witness :
  Codec.decode (JS.of_ascii_string "TQ") = JS.Normal [x4d].
Proof.
apply (X4_decode_unpadded [x4d] (JS.of_ascii_string "TQ==")). reflexivity.
Defined.

(** X5. When [decode] succeeds, the number of bytes is three quarters,
    rounded down, of the number of characters left once whitespace and
    padding are removed. *)
Theorem X5_decode_length (text : list N) (bytes : list byte) :
  Codec.decode text = JS.Normal bytes ->
  length bytes
  = (3 * length (Base64.strip_padding (Base64.remove_whitespace text)) / 4)%nat.
Proof.
intros Hdec. destruct (Base64.atob text) as [bin|e] eqn:Hatob.
- rewrite (decode_spec text bin Hatob) in Hdec. injection Hdec as <-.
  rewrite length_map. unfold Base64.atob, Base64.forgiving_base64_decode in Hatob.
  destruct (_ =? 1); [discriminate|].
  destruct (negb _); [discriminate|]. injection Hatob as <-.
  exact (decode_loop_length _ 0 0 ltac:(lia)).
- rewrite (decode_throws text e Hatob) in Hdec. discriminate.
Qed.

Lemma X5_witness : length [x4d; x61] = (3 * 3 / 4)%nat.
Proof.
exact (X5_decode_length (JS.of_ascii_string "TWE=") [x4d; x61] eq_refl).
Defined.

(** ** The audio decoder *)
Section DecodeAudioExtraLemmas.
Import JS WebAudio Codec BufferViews.

Lemma int16_of_le_range (lo hi : byte) :
  (-32768 <= int16_of_le lo hi < 32768)%Z.
Proof.
unfold int16_of_le.
pose proof (to_N_below_256 lo). pose proof (to_N_below_256 hi).
destruct (Z.leb_spec 32768 (Z.of_N (Byte.to_N lo) + 256 * Z.of_N (Byte.to_N hi)));
  lia.
Qed.

Lemma int16s_of_bytes_range (bs : list byte) :
  Forall (fun z => (-32768 <= z < 32768)%Z) (int16s_of_bytes bs).
Proof.
revert bs. fix IH 1. intros [|lo [|hi rest]]; cbn [int16s_of_bytes].
- constructor.
- constructor.
- constructor; [apply int16_of_le_range|apply IH].
Qed.

Lemma even_double (n : nat) :
  Nat.even n = true -> n = (2 * (n / 2))%nat.
Proof.
intros H. apply Nat.even_spec in H. destruct H as [k ->].
now rewrite Nat.mul_comm, Nat.div_mul, Nat.mul_comm by lia.
Qed.

(** Both loops of [decodeAudioData] together, on the whole channel data. *)
Lemma deinterleave_channels (b : AudioBuffer) (n m frames : nat)
  (v : nat -> nat -> number) :
  channelData b = replicate n (replicate frames (Fin 0)) ->
  (frames <= m)%nat ->
  for_loop n (fun b c => for_loop m (fun b i => set_sample b c i (v c i)) b) b
  = with_channels b (map (fun c => map (v c) (seq 0 frames)) (seq 0 n)).
Proof.
intros Hcd Hm.
rewrite (for_loop_ext n _
           (fun b c => with_channels b
              (alter (fun ch => for_loop m (fun ch i => <[i := v c i]> ch) ch) c
                 (channelData b))))
  by (intros; apply channel_loop).
rewrite (channels_loop b n
           (fun c ch => for_loop m (fun ch i => <[i := v c i]> ch) ch)).
f_equal. apply list_eq. intros c.
rewrite for_loop_alter_lookup, Hcd, list_lookup_fmap.
destruct (Nat.ltb_spec c n) as [Hc|Hc].
- rewrite lookup_replicate_2, lookup_seq_lt by assumption. cbn.
  rewrite for_loop_fill_over by now rewrite length_replicate.
  now rewrite length_replicate.
- replace (seq 0 n !! c) with (@None nat)
    by (symmetry; apply lookup_ge_None; rewrite length_seq; lia).
  replace (replicate n (replicate frames (Fin 0)) !! c)
    with (@None (list number))
    by (symmetry; apply lookup_ge_None; rewrite length_replicate; lia).
  reflexivity.
Qed.

(** What a successful [decodeAudioData] has checked and built. *)
Lemma decodeAudioData_Normal_inv
  (data : list byte) (rate : Q) (numChannels : nat) (buffer : AudioBuffer) :
  decodeAudioData data rate numChannels = Normal buffer ->
  let L := (length data / 2)%nat in
  let frames := Z.to_nat (Z.of_nat (L / numChannels) mod 4294967296) in
  length data = (2 * L)%nat
  /\ (1 <= numChannels <= 32)%nat
  /\ (8000 <= rate)%Q /\ (rate <= 96000)%Q
  /\ (1 <= frames <= L / numChannels)%nat
  /\ buffer
     = {| numberOfChannels := numChannels;
          buffer_length := frames;
          sampleRate := rate;
          channelData :=
            map (fun c =>
                   map (fun i =>
                          num_div (int16_at (int16s_of_bytes data)
                                     (i * numChannels + c))
                            (Fin 32768))
                     (seq 0 frames))
              (seq 0 numChannels) |}.
Proof.
intros Hdec L frames. unfold decodeAudioData, new_Int16Array in Hdec.
destruct (Nat.even (length data)) eqn:Heven; [|discriminate].
pose proof (even_double _ Heven) as Hlen. fold L in Hlen.
rewrite bind_Normal, (int16s_of_bytes_length data L Hlen) in Hdec.
destruct (createBuffer numChannels _ rate) as [b|e] eqn:Hcreate; [|discriminate].
rewrite bind_Normal in Hdec. injection Hdec as <-.
destruct (decide (numChannels = 0%nat)) as [->|Hnc];
  [unfold createBuffer in Hcreate; cbn in Hcreate; discriminate|].
rewrite frameCount_Fin in * by exact Hnc.
assert (Hframes :
  ToUint32 (Fin (inject_Z (Z.of_nat L) / inject_Z (Z.of_nat numChannels))) = frames)
  by (unfold ToUint32; now rewrite Qtruncate_div_nat).
unfold createBuffer in Hcreate. cbv zeta in Hcreate. rewrite Hframes in Hcreate.
destruct (_ && _) eqn:Hcond in Hcreate; [|discriminate].
injection Hcreate as <-.
repeat (apply andb_prop in Hcond; destruct Hcond as [Hcond ?]).
repeat match goal with
       | H : (_ <=? _)%nat = true |- _ => apply Nat.leb_le in H
       | H : Qle_bool _ _ = true |- _ => apply Qle_bool_iff in H
       end.
assert (Hfr : (frames <= L / numChannels)%nat).
{ subst frames. apply Nat2Z.inj_le. rewrite Z2Nat.id.
  - apply Z.mod_le; lia.
  - apply Z.mod_pos_bound. lia. }
split; [exact Hlen|]. split; [lia|]. split; [assumption|]. split; [assumption|].
split; [lia|].
rewrite (deinterleave_channels _ numChannels _ frames
           (fun channel i =>
              num_div (int16_at (int16s_of_bytes data) (i * numChannels + channel))
                (Fin 32768))).
- reflexivity.
- reflexivity.
- apply Nat.le_trans with (L / numChannels)%nat; [exact Hfr|].
  change (L / numChannels
          <= count_below (num_div (num_of_nat L) (num_of_nat numChannels)))%nat.
  rewrite frameCount_Fin by exact Hnc. now apply Qceiling_div_nat.
Qed.
End DecodeAudioExtraLemmas.

(** X6. Where every implementation of [createBuffer] agrees, that is for
    a rate between 8000 and 96000 Hz and at most 32 channels, and for a
    buffer below 2^33 bytes: [decodeAudioData] succeeds exactly when the
    byte length is even, there is at least one channel and the data hold
    at least one whole frame; an odd length is a RangeError, every other
    refusal a NotSupportedError: no channel, an empty buffer, fewer
    samples than channels.  Nothing is said of other rates or of more
    channels, which an implementation may accept. *)
Theorem X6_decodeAudioData_success
  (data : list byte) (rate : Q) (numChannels : nat) :
  (Z.of_nat (length data) < 8589934592)%Z ->
  (8000 <= rate)%Q -> (rate <= 96000)%Q -> (numChannels <= 32)%nat ->
  (JS.is_Normal (Codec.decodeAudioData data rate numChannels) = true
   <-> Nat.even (length data) = true
       /\ (1 <= numChannels)%nat
       /\ (numChannels <= length data / 2)%nat)
  /\ (forall e, Codec.decodeAudioData data rate numChannels = JS.Throw e ->
        e = if Nat.even (length data) then JS.NotSupportedError
            else JS.RangeError).
Proof.
intros Hsize Hlo Hhi Hmax. split; [split|].
- destruct (Codec.decodeAudioData data rate numChannels) as [buffer|e] eqn:Hdec;
    [|discriminate].
  intros _. destruct (decodeAudioData_Normal_inv _ _ _ _ Hdec)
    as (Hlen & Hnc & _ & _ & Hfr & _).
  split; [apply Nat.even_spec; eexists; exact Hlen|].
  split; [lia|].
  destruct (Nat.le_gt_cases numChannels (length data / 2)) as [|Hgt]; [assumption|].
  rewrite (Nat.div_small _ _ Hgt) in Hfr. lia.
- intros (Heven & Hnc1 & HL).
  assert (Hnc : (1 <= numChannels <= 32)%nat) by lia.
  pose proof (even_double _ Heven) as Hlen.
  assert (Hlt : (Z.of_nat (length data / 2 / numChannels) < 4294967296)%Z).
  { assert (length data / 2 / numChannels <= length data / 2)%nat
      by (apply Nat.Div0.div_le_upper_bound; nia).
    lia. }
  destruct (decodeAudioData_frames data rate numChannels (length data / 2)
              Hlen Hnc HL Hlt Hlo Hhi) as (buffer & -> & _).
  reflexivity.
- intros e. unfold Codec.decodeAudioData, JS.new_Int16Array.
  destruct (Nat.even (length data)); [|intros H; now injection H].
  rewrite bind_Normal.
  destruct (WebAudio.createBuffer numChannels _ rate) as [b|e'] eqn:Hcreate;
    [discriminate|].
  rewrite bind_Throw. intros H. injection H as <-.
  unfold WebAudio.createBuffer in Hcreate.
  destruct (_ && _) in Hcreate; [discriminate|]. now injection Hcreate.
Qed.

Lemma X6_witness :
  JS.is_Normal (Codec.decodeAudioData [x01; x00] 24000 2) = false
  /\ JS.is_Normal (Codec.decodeAudioData [x01; x00] 24000 1) = true.
Proof.
assert (Hsize : (Z.of_nat (length [x01; x00]) < 8589934592)%Z) by (cbn; lia).
assert (Hlo : (8000 <= 24000)%Q) by discriminate.
assert (Hhi : (24000 <= 96000)%Q) by discriminate.
split.
- apply not_true_iff_false. intros H.
  apply (proj1 (X6_decodeAudioData_success [x01; x00] 24000 2 Hsize Hlo Hhi
                  ltac:(lia))) in H.
  cbn in H. lia.
- apply (proj1 (X6_decodeAudioData_success [x01; x00] 24000 1 Hsize Hlo Hhi
                  ltac:(lia))).
  cbn. repeat split; lia.
Defined.

(** X7. Every buffer [decodeAudioData] returns is full and in range: it
    has one array per channel, each of the buffer's length, and every
    sample is a finite number of [-1, 1). *)
Theorem X7_decodeAudioData_samples_in_range
  (data : list byte) (rate : Q) (numChannels : nat)
  (buffer : WebAudio.AudioBuffer) :
  Codec.decodeAudioData data rate numChannels = JS.Normal buffer ->
  length (WebAudio.channelData buffer) = WebAudio.numberOfChannels buffer
  /\ Forall (fun ch => length ch = WebAudio.buffer_length buffer)
       (WebAudio.channelData buffer)
  /\ forall c i v,
       BufferViews.sample buffer c i = Some v ->
       exists r, v = JS.Fin r /\ (-1 <= r)%Q /\ (r < 1)%Q.
Proof.
intros Hdec.
destruct (decodeAudioData_Normal_inv _ _ _ _ Hdec)
  as (Hlen & Hnc & _ & _ & Hfr & ->).
cbn [WebAudio.channelData WebAudio.numberOfChannels WebAudio.buffer_length].
set (L := (length data / 2)%nat) in *.
set (frames := Z.to_nat _) in *.
split; [now rewrite length_map, length_seq|]. split.
- apply Forall_forall. intros ch Hch.
  apply list_elem_of_In, in_map_iff in Hch. destruct Hch as (c & <- & _).
  now rewrite length_map, length_seq.
- intros c i v Hv. unfold BufferViews.sample in Hv.
  cbn [WebAudio.channelData] in Hv. rewrite list_lookup_fmap in Hv.
  destruct (seq 0 numChannels !! c) as [c'|] eqn:Hc; [|discriminate].
  apply lookup_seq in Hc. destruct Hc as [-> Hc]. cbn in Hv.
  rewrite list_lookup_fmap in Hv.
  destruct (seq 0 frames !! i) as [i'|] eqn:Hi; [|discriminate].
  apply lookup_seq in Hi. destruct Hi as [-> Hi]. cbn in Hv.
  injection Hv as <-.
  assert (Hidx : (i * numChannels + c < L)%nat).
  { assert (Hq : (L / numChannels * numChannels <= L)%nat)
      by (rewrite Nat.mul_comm; apply Nat.Div0.mul_div_le).
    destruct Hfr as [_ Hfr]. revert Hq Hfr Hi Hc.
    generalize (L / numChannels)%nat. clearbody frames L. intros q Hq Hfr Hi Hc.
    nia. }
  pose proof (int16s_of_bytes_length data L Hlen) as Hl16.
  destruct (lookup_lt_is_Some_2 (JS.int16s_of_bytes data) (i * numChannels + c))
    as [s Hs]; [lia|].
  unfold Codec.int16_at. rewrite Hs.
  pose proof (int16s_of_bytes_range data) as Hr.
  rewrite Forall_forall in Hr. specialize (Hr s).
  assert (Hsr : (-32768 <= s < 32768)%Z)
    by (apply Hr; eapply list_elem_of_lookup_2; exact Hs).
  exists (inject_Z s / 32768)%Q. split; [reflexivity|].
  assert (E : (inject_Z s / 32768 == inject_Z s * (1 # 32768))%Q) by reflexivity.
  rewrite E.
  assert (H1 : (inject_Z (-32768) <= inject_Z s)%Q) by (rewrite <- Zle_Qle; lia).
  assert (H2 : (inject_Z s < inject_Z 32768)%Q) by (rewrite <- Zlt_Qlt; lia).
  change (inject_Z (-32768)) with (-32768 # 1)%Q in H1.
  change (inject_Z 32768) with (32768 # 1)%Q in H2.
  generalize dependent (inject_Z s). intros x _ H1 H2. split; lra.
Qed.

Lemma X7_witness :
  let buffer :=
    {| WebAudio.numberOfChannels := 1;
       WebAudio.buffer_length := 1;
       WebAudio.sampleRate := 24000;
       WebAudio.channelData := [[JS.Fin (-32768 # 32768)]] |} in
  Codec.decodeAudioData [x00; x80] 24000 1 = JS.Normal buffer
  /\ exists r,
       BufferViews.sample buffer 0 0 = Some (JS.Fin r)
       /\ (-1 <= r)%Q /\ (r < 1)%Q.
Proof.
intros buffer. split; [reflexivity|].
destruct (X7_decodeAudioData_samples_in_range [x00; x80] 24000 1 buffer eq_refl)
  as (_ & _ & H).
destruct (H 0%nat 0%nat _ eq_refl) as (r & Hr & Hlo & Hhi).
exists r. split; [now rewrite <- Hr|]. split; assumption.
Defined.

(** ** The capture conversion *)
Section QuantizeLemmas.
Import JS Capture.

Lemma Qtruncate_floor_ceiling (q : Q) :
  Qtruncate q = if (0 <=? Qnum q)%Z then Qfloor q else Qceiling q.
Proof.
destruct q as [n d]. unfold Qtruncate, Qceiling, Qfloor, Qopp. cbn [Qnum Qden].
destruct (Z.leb_spec 0 n) as [Hn|Hn].
- apply Z.quot_div_nonneg; lia.
- rewrite <- (Z.opp_involutive n) at 1.
  rewrite Z.quot_opp_l by lia. f_equal. apply Z.quot_div_nonneg; lia.
Qed.

Lemma Qnum_nonneg (q : Q) : (0 <= Qnum q)%Z <-> (0 <= q)%Q.
Proof. destruct q as [n d]. unfold Qle. cbn. lia. Qed.

(** Truncation toward zero is monotone. *)
Lemma Qtruncate_le (q1 q2 : Q) :
  (q1 <= q2)%Q -> (Qtruncate q1 <= Qtruncate q2)%Z.
Proof.
intros Hle. rewrite !Qtruncate_floor_ceiling.
destruct (Z.leb_spec 0 (Qnum q1)) as [H1|H1],
         (Z.leb_spec 0 (Qnum q2)) as [H2|H2].
- now apply Qfloor_resp_le.
- apply Qnum_nonneg in H1.
  assert (0 <= q2)%Q by (eapply Qle_trans; eassumption).
  apply Qnum_nonneg in H. lia.
- apply Z.le_trans with 0%Z.
  + change 0%Z with (Qceiling 0). apply Qceiling_resp_le.
    apply Qlt_le_weak, Qnot_le_lt. intros H. apply Qnum_nonneg in H. lia.
  + change 0%Z with (Qfloor 0). apply Qfloor_resp_le. now apply Qnum_nonneg.
- now apply Qceiling_resp_le.
Qed.

Lemma Qtruncate_comp (q1 q2 : Q) :
  (q1 == q2)%Q -> Qtruncate q1 = Qtruncate q2.
Proof.
intros H. apply Z.le_antisymm; apply Qtruncate_le; rewrite H; apply Qle_refl.
Qed.

Lemma Qtruncate_opp (q : Q) : Qtruncate (- q) = (- Qtruncate q)%Z.
Proof.
destruct q as [n d]. unfold Qtruncate, Qopp. cbn [Qnum Qden].
apply Z.quot_opp_l. lia.
Qed.

Lemma Qtruncate_Z (z : Z) : Qtruncate (inject_Z z) = z.
Proof. unfold Qtruncate, inject_Z. cbn. apply Z.quot_1_r. Qed.

Lemma clamp_le (x y : Q) : (x <= y)%Q -> (Spec.clamp x <= Spec.clamp y)%Q.
Proof.
intros H. unfold Spec.clamp.
apply Q.max_le_compat_l. now apply Q.min_le_compat_l.
Qed.

Lemma clamp_high (x : Q) : (1 <= x)%Q -> (Spec.clamp x == 1)%Q.
Proof.
intros H. unfold Spec.clamp. rewrite (Q.min_l 1 x H). now apply Q.max_r.
Qed.

Lemma clamp_low (x : Q) : (x <= -1)%Q -> (Spec.clamp x == -1)%Q.
Proof.
intros H. unfold Spec.clamp.
assert (Hm : (Qmin 1 x == x)%Q) by (apply Q.min_r; lra).
rewrite Hm. now apply Q.max_l.
Qed.

Lemma clamp_opp (x : Q) : (Spec.clamp (- x) == - Spec.clamp x)%Q.
Proof.
destruct (Qlt_le_dec x (-1)) as [Hlow|Hlow].
- rewrite (clamp_low x) by lra. rewrite (clamp_high (- x)) by lra. reflexivity.
- destruct (Qlt_le_dec 1 x) as [Hhigh|Hhigh].
  + rewrite (clamp_high x) by lra. rewrite (clamp_low (- x)) by lra. reflexivity.
  + rewrite (clamp_in_range x) by lra.
    rewrite (clamp_in_range (- x)) by lra. reflexivity.
Qed.
End QuantizeLemmas.

(** X8. The conversion of a sample to 16 bits is monotone: a louder
    sample never gets a smaller integer. *)
Theorem X8_quantize_monotone (x y : Q) :
  (x <= y)%Q ->
  (Capture.quantize (JS.Fin x) <= Capture.quantize (JS.Fin y))%Z.
Proof.
intros H. destruct (quantize_Fin x) as [-> _]. destruct (quantize_Fin y) as [-> _].
apply Qtruncate_le. apply clamp_le in H. lra.
Qed.

Lemma X8_witness :
  (Capture.quantize (JS.Fin (1 # 4)) <= Capture.quantize (JS.Fin (1 # 2)))%Z.
Proof. apply X8_quantize_monotone. discriminate. Defined.

(** X9. The conversion is symmetric and saturates: [-x] gives the
    opposite integer of [x], a sample at or beyond 1 gives 32767 and one at
    or beyond -1 gives -32767, NaN gives 0, the infinities saturate, and
    -32768 is never produced. *)
Theorem X9_quantize_symmetric_saturating :
  (forall x, Capture.quantize (JS.Fin (- x)) = (- Capture.quantize (JS.Fin x))%Z)
  /\ (forall x, (1 <= x)%Q -> Capture.quantize (JS.Fin x) = 32767%Z)
  /\ (forall x, (x <= -1)%Q -> Capture.quantize (JS.Fin x) = (-32767)%Z)
  /\ Capture.quantize JS.NaN = 0%Z
  /\ Capture.quantize JS.PosInf = 32767%Z
  /\ Capture.quantize JS.NegInf = (-32767)%Z
  /\ (forall v, (-32767 <= Capture.quantize v <= 32767)%Z).
Proof.
split; [|split; [|split; [|split; [|split; [|split]]]]]; try reflexivity.
- intros x. destruct (quantize_Fin x) as [-> _].
  destruct (quantize_Fin (- x)) as [-> _].
  rewrite <- Qtruncate_opp. apply Qtruncate_comp.
  rewrite clamp_opp. ring.
- intros x Hx. destruct (quantize_Fin x) as [-> _].
  rewrite (Qtruncate_comp _ (inject_Z 32767)); [apply Qtruncate_Z|].
  rewrite (clamp_high x Hx). reflexivity.
- intros x Hx. destruct (quantize_Fin x) as [-> _].
  rewrite (Qtruncate_comp _ (inject_Z (-32767))); [apply Qtruncate_Z|].
  rewrite (clamp_low x Hx). reflexivity.
- intros [q| | |]; [|vm_compute; split; discriminate..].
  destruct (quantize_Fin q) as [-> H]. exact H.
Qed.

Lemma X9_witness : Capture.quantize (JS.Fin (3 # 2)) = 32767%Z.
Proof.
apply (proj1 (proj2 X9_quantize_symmetric_saturating) (3 # 2)). discriminate.
Defined.

(** ** The schedule *)
Section ScheduleLemmas.
Import JS WebAudio Codec App AppViews SchedulerViews.

Lemma pairwise_filter {A} (R : A -> A -> Prop) (p : A -> bool) (l : list A) :
  pairwise R l -> pairwise R (List.filter p l).
Proof.
induction l as [|x l IH]; [easy|]. cbn. intros [Hx Hl].
destruct (p x); [|now apply IH]. cbn. split; [|now apply IH].
apply Forall_forall. intros y Hy. rewrite Forall_forall in Hx. apply Hx.
apply list_elem_of_In, filter_In in Hy. apply list_elem_of_In. apply Hy.
Qed.

Lemma pairwise_snoc {A} (R : A -> A -> Prop) (l : list A) (y : A) :
  pairwise R l -> (forall x, x ∈ l -> R x y) -> pairwise R (l ++ [y]).
Proof.
induction l as [|x l IH]; intros Hl Hy.
- cbn. split; [constructor|exact I].
- destruct Hl as [Hx Hl]. cbn. split.
  + apply Forall_app. split; [exact Hx|].
    constructor; [|constructor]. apply Hy. now left.
  + apply IH; [exact Hl|]. intros z Hz. apply Hy. now right.
Qed.

Lemma pairwise_impl {A} (R R' : A -> A -> Prop) (l : list A) :
  (forall x y, x ∈ l -> y ∈ l -> R x y -> R' x y) ->
  pairwise R l -> pairwise R' l.
Proof.
induction l as [|x l IH]; intros Himpl; [easy|]. cbn. intros [Hx Hl]. split.
- apply Forall_forall. intros y Hy. rewrite Forall_forall in Hx.
  apply Himpl; [now left|now right|now apply Hx].
- apply IH; [|exact Hl]. intros a b Ha Hb. apply Himpl; now right.
Qed.

Lemma pairwise_lookup {A} (R : A -> A -> Prop) (l : list A) (i j : nat) (x y : A) :
  pairwise R l -> (i < j)%nat -> l !! i = Some x -> l !! j = Some y -> R x y.
Proof.
revert i j. induction l as [|z l IH]; intros i j Hl Hij Hi Hj; [discriminate|].
destruct Hl as [Hz Hl]. destruct j as [|j]; [lia|]. cbn in Hj.
destruct i as [|i].
- cbn in Hi. injection Hi as ->. rewrite Forall_forall in Hz.
  apply Hz. eapply list_elem_of_lookup_2. exact Hj.
- cbn in Hi. apply (IH i j); try assumption. lia.
Qed.

Lemma NoDup_List_filter {A} (p : A -> bool) (l : list A) :
  NoDup l -> NoDup (List.filter p l).
Proof.
induction 1 as [|x l Hx _ IH]; cbn; [constructor|].
destruct (p x); [|exact IH]. constructor; [|exact IH].
intros Hin. apply Hx. apply list_elem_of_In, filter_In in Hin.
apply list_elem_of_In. apply Hin.
Qed.

(** A source has one start and one duration. *)
Lemma scheduled_unique (ns : list SourceNode) (id : nat) (s d s' d' : Q) :
  scheduled ns id s d -> scheduled ns id s' d' -> s = s' /\ d = d'.
Proof.
intros (n1 & b1 & H1 & H2 & H3 & H4) (n2 & b2 & H1' & H2' & H3' & H4').
rewrite H1 in H1'. injection H1' as <-.
rewrite H2 in H2'. injection H2' as <-.
rewrite H3 in H3'. injection H3' as <-. subst. split; reflexivity.
Qed.

Lemma scheduled_lt (ns : list SourceNode) (id : nat) (s d : Q) :
  scheduled ns id s d -> (id < length ns)%nat.
Proof. intros (n & b & H & _). now apply lookup_lt_Some in H. Qed.

(** Stopping sources and creating a source keep what was scheduled. *)
Lemma scheduled_stopped_nodes (ids : list nat) (ns : list SourceNode)
  (id : nat) (s d : Q) :
  scheduled (stopped_nodes ids ns) id s d <-> scheduled ns id s d.
Proof.
unfold scheduled. rewrite stopped_nodes_lookup.
destruct (decide (id ∈ ids)); [|reflexivity].
split.
- intros (n & b & H1 & H2 & H3 & H4).
  destruct (ns !! id) as [n0|]; [|discriminate]. cbn in H1. injection H1 as <-.
  exists n0, b. auto.
- intros (n & b & H1 & H2 & H3 & H4). rewrite H1.
  exists (mark_stopped n), b. auto.
Qed.

Lemma scheduled_app (ns : list SourceNode) (node : SourceNode)
  (id : nat) (s d : Q) :
  (id < length ns)%nat ->
  scheduled (ns ++ [node]) id s d <-> scheduled ns id s d.
Proof.
intros Hid. unfold scheduled. now rewrite lookup_app_l by exact Hid.
Qed.

Lemma scheduled_new (ns : list SourceNode) (buffer : AudioBuffer) (when : Q) :
  scheduled (ns ++ [scheduled_node buffer when]) (length ns) when (duration buffer).
Proof.
exists (scheduled_node buffer when), buffer.
rewrite lookup_app_r, Nat.sub_diag by lia. auto.
Qed.

Lemma orderly_of_nil (cursor : Q) (ns : list SourceNode) :
  orderly_of cursor [] ns.
Proof.
split; [constructor|]. split; [|exact I].
intros id Hid. now apply not_elem_of_nil in Hid.
Qed.

Lemma orderly_of_raise (c c' : Q) (active : list nat) (ns : list SourceNode) :
  (c <= c')%Q -> orderly_of c active ns -> orderly_of c' active ns.
Proof.
intros Hc (H1 & H2 & H3). split; [exact H1|]. split; [|exact H3].
intros id Hid. destruct (H2 id Hid) as (s & d & Hs & H0 & Hd & Hend).
exists s, d. repeat split; try assumption. now apply Qle_trans with c.
Qed.

Lemma orderly_of_delete (c : Q) (active : list nat) (ns : list SourceNode)
  (source : nat) :
  orderly_of c active ns -> orderly_of c (Set_delete source active) ns.
Proof.
intros (H1 & H2 & H3). unfold Set_delete. split; [now apply NoDup_List_filter|].
split; [|now apply pairwise_filter].
intros id Hid. apply H2. apply list_elem_of_In, filter_In in Hid.
apply list_elem_of_In. apply Hid.
Qed.

(** Scheduling one more source at the cursor keeps the schedule. *)
Lemma orderly_of_schedule (c : Q) (active : list nat) (ns : list SourceNode)
  (buffer : AudioBuffer) :
  (0 <= c)%Q -> Double.is_double c = true -> (0 <= duration buffer)%Q ->
  orderly_of c active ns ->
  orderly_of (Double.add c (duration buffer)) (Set_add (length ns) active)
    (ns ++ [scheduled_node buffer c]).
Proof.
intros Hc Hdc Hd (H1 & H2 & H3).
pose proof (cursor_advance c (duration buffer) Hdc Hd) as Hadv.
assert (Hlt : forall id, id ∈ active -> (id < length ns)%nat).
{ intros id Hid. destruct (H2 id Hid) as (s & d & Hs & _).
  now apply scheduled_lt in Hs. }
assert (Hfresh : length ns ∉ active).
{ intros Hin. apply Hlt in Hin. lia. }
unfold Set_add. destruct (decide (length ns ∈ active)) as [Hin|_]; [contradiction|].
split; [|split].
- apply NoDup_app. split; [exact H1|]. split; [|apply NoDup_singleton].
  intros x Hx Hx'. apply list_elem_of_singleton in Hx'. subst. contradiction.
- intros id Hid. apply elem_of_app in Hid. destruct Hid as [Hid|Hid].
  + destruct (H2 id Hid) as (s & d & Hs & H0 & Hd' & Hend).
    exists s, d. split; [apply scheduled_app; auto|].
    repeat split; try assumption. now apply Qle_trans with c.
  + apply list_elem_of_singleton in Hid. subst id.
    exists c, (duration buffer). split; [apply scheduled_new|].
    repeat split; try assumption. apply Qle_refl.
- apply pairwise_snoc.
  + apply (pairwise_impl (before ns)); [|exact H3].
    intros a b Ha Hb Hab sa da sb db Hsa Hsb.
    apply scheduled_app in Hsa; [|auto]. apply scheduled_app in Hsb; [|auto].
    now apply (Hab sa da sb db).
  + intros a Ha sa da sb db Hsa Hsb.
    apply scheduled_app in Hsa; [|auto].
    destruct (scheduled_unique _ _ _ _ _ _ Hsb (scheduled_new ns buffer c))
      as [-> _].
    destruct (H2 a Ha) as (s & d & Hs & _ & _ & Hend).
    destruct (scheduled_unique _ _ _ _ _ _ Hsa Hs) as [-> ->]. exact Hend.
Qed.
End ScheduleLemmas.

(** ** Inbound messages *)
Section MessageLemmas.
Import JS WebAudio Codec App AppViews SchedulerViews.

Lemma same_session_refl (st : Refs) : same_session st st.
Proof. repeat split. Qed.

Lemma same_session_trans (st1 st2 st3 : Refs) :
  same_session st1 st2 -> same_session st2 st3 -> same_session st1 st3.
Proof.
intros (A1 & A2 & A3 & A4) (B1 & B2 & B3 & B4).
repeat split; congruence.
Qed.

(** The first half of [onAudio] touches the cursor only, and only
    upwards. *)
Lemma onAudio_sync_scheduler (base64 : list N) (st : Refs) :
  let st1 := snd (onAudio_sync base64 st) in
  same_session st st1
  /\ activeSources st1 = activeSources st
  /\ nodes st1 = nodes st
  /\ display st1 = display st
  /\ (nextStartTime st <= nextStartTime st1)%Q.
Proof.
cbv zeta. rewrite onAudio_sync_unfold.
destruct (audioContextOut st) as [ctx|];
  [|repeat split; apply Qle_refl].
cbv zeta.
destruct (decode base64 ≫= _) as [buffer|e]; cbn [snd]; refs_simpl;
  repeat split; apply Q.le_max_l.
Qed.

(** The statements after the call of [onAudio]: an interruption empties
    the schedule, the transcriptions leave it alone. *)
Lemma onmessage_rest_scheduler (c : Q) (message : LiveServerMessage) (st : Refs) :
  above c st ->
  let st' := snd (onmessage_rest message st) in
  same_session st st'
  /\ if interrupted message
     then nextStartTime st' = 0%Q /\ activeSources st' = []
          /\ nodes st' = stopped_nodes (activeSources st) (nodes st)
     else nextStartTime st' = nextStartTime st
          /\ activeSources st' = activeSources st
          /\ nodes st' = nodes st.
Proof.
intros (_ & _ & Hst & _). cbv zeta.
unfold onmessage_rest, mbind, handler_bind.
destruct (interrupted message).
- rewrite (onInterrupted_spec st Hst).
  destruct (inputAudioTranscription message), (outputTranscription message);
    cbn [when_some mret handler_ret onTranscription modify snd]; refs_simpl;
    repeat split.
- cbn [mret handler_ret].
  destruct (inputAudioTranscription message), (outputTranscription message);
    cbn [when_some mret handler_ret onTranscription modify snd]; refs_simpl;
    repeat split.
Qed.

(** A message keeps the schedule orderly and does not touch the contexts
    or the session promise. *)
Lemma onmessage_orderly (message : LiveServerMessage) (st : Refs) :
  above 0 st -> orderly st ->
  orderly (snd (onmessage message st))
  /\ same_session st (snd (onmessage message st)).
Proof.
intros Habove Hord.
destruct (first_payload_cases message) as [[Hthrow _]|Hfirst].
{ rewrite (onmessage_unguarded message st _ Hthrow). cbn [snd].
  split; [exact Hord|apply same_session_refl]. }
rewrite (onmessage_stages message st Hfirst). cbv zeta.
assert (Hrest : forall st1,
  above 0 st1 -> orderly st1 -> same_session st st1 ->
  let st2 := snd (onmessage_rest message st1) in
  above 0 st2 /\ orderly st2 /\ same_session st st2).
{ intros st1 Ha1 Ho1 Hs1 st2.
  destruct (onmessage_rest_above 0 message st1 Ha1) as (_ & Ha2 & _).
  destruct (onmessage_rest_scheduler 0 message st1 Ha1) as (Hs2 & Hsched).
  fold st2 in Ha2, Hs2, Hsched.
  split; [exact (above_zero _ _ Ha2)|].
  split; [|exact (same_session_trans _ _ _ Hs1 Hs2)].
  unfold orderly. destruct (interrupted message).
  - destruct Hsched as (-> & -> & _). apply orderly_of_nil.
  - destruct Hsched as (-> & -> & ->). exact Ho1. }
assert (Hsync : forall b64,
  let r1 := onAudio_sync b64 st in
  let st2 := snd (onmessage_rest message (snd r1)) in
  orderly match fst r1 with
          | Normal (Some buffer) => snd (onAudio_resume buffer st2)
          | _ => st2
          end
  /\ same_session st match fst r1 with
                     | Normal (Some buffer) => snd (onAudio_resume buffer st2)
                     | _ => st2
                     end).
{ intros b64 r1 st2. subst r1.
  destruct (onAudio_sync_above 0 b64 st Habove) as [Ha1 Hbuf].
  apply above_zero in Ha1.
  destruct (onAudio_sync_scheduler b64 st) as (Hs1 & Hact1 & Hn1 & _ & Hc1).
  assert (Ho1 : orderly (snd (onAudio_sync b64 st))).
  { unfold orderly. rewrite Hact1, Hn1.
    exact (orderly_of_raise _ _ _ _ Hc1 Hord). }
  destruct (Hrest _ Ha1 Ho1 Hs1) as (Ha2 & Ho2 & Hs2). fold st2 in Ha2, Ho2, Hs2.
  destruct (fst (onAudio_sync b64 st)) as [[buffer|]|e];
    try (split; assumption).
  destruct (Hbuf buffer eq_refl) as [Hd Hctx].
  assert (Hctx2 : is_Some (audioContextOut st2)).
  { destruct Hs2 as (_ & Hs2 & _). destruct Hs1 as (_ & Hs1 & _).
    rewrite Hs2, <- Hs1. exact Hctx. }
  destruct Ha2 as (_ & Hpos2 & _ & _ & Hdc2 & _).
  rewrite (onAudio_resume_spec buffer st2 Hctx2 Hpos2). cbn [snd]. split.
  - unfold orderly. refs_simpl. now apply orderly_of_schedule.
  - destruct Hs2 as (B1 & B2 & B3 & B4). repeat split; assumption. }
destruct (inlineData message) as [[|ch data]|].
- cbn [fst snd]. destruct (Hrest st Habove Hord (same_session_refl st))
    as (_ & H1 & H2). split; assumption.
- apply Hsync.
- cbn [fst snd]. destruct (Hrest st Habove Hord (same_session_refl st))
    as (_ & H1 & H2). split; assumption.
Qed.

(** Every event keeps the schedule orderly. *)
Lemma after_orderly (ev : event) (st : Refs) :
  above 0 st -> orderly st -> orderly (after ev st).
Proof.
intros Habove Hord.
assert (Hmic : forall stream,
          orderly (snd (startCoach_microphone stream st))).
{ intros stream. unfold startCoach_microphone, mbind, handler_bind, get.
  cbv beta iota. destruct stream as [[]|e], (audioContextIn st); exact Hord. }
destruct ev as [| |message|source|inputData|p|p|dt| |]; unfold after, run;
  try apply Hmic.
- unfold startCoach, initAudio, mbind, handler_bind, modify. cbv beta iota.
  destruct (audioContextOut st); exact Hord.
- destruct Habove as (_ & _ & Hst & _). rewrite (stopCoach_spec st Hst).
  cbn [snd]. apply orderly_of_nil.
- apply (onmessage_orderly message st Habove Hord).
- cbn. now apply orderly_of_delete.
- unfold onaudioprocess, sessionPromise_then, mbind, handler_bind, lift, modify.
  destruct (Capture.capture_payload inputData) as [b64|e]; [|exact Hord].
  cbv beta iota. refs_simpl. destruct (sessionPromise st); exact Hord.
- exact Hord.
- exact Hord.
- cbn. unfold advance_clock. destruct (audioContextOut st); exact Hord.
Qed.

Lemma reachable_orderly (st : Refs) : reachable st -> orderly st.
Proof.
induction 1 as [|ev st Hst IH Hev].
- apply orderly_of_nil.
- apply after_orderly; [now apply reachable_above|exact IH].
Qed.

(** The refs after a message whose audio payload decodes. *)
Lemma onmessage_decoded (message : LiveServerMessage) (base64 : list N)
  (st : Refs) (ctx : AudioContext) (buffer : AudioBuffer) :
  inlineData message = Some base64 -> base64 <> [] ->
  audioContextOut st = Some ctx ->
  decode base64 ≫= (fun bytes => decodeAudioData bytes 24000 1) = Normal buffer ->
  snd (onmessage message st)
  = snd (onAudio_resume buffer
           (snd (onmessage_rest message
                   (set_nextStartTime
                      (Qmax (nextStartTime st) (currentTime ctx)) st)))).
Proof.
intros Hdata Hne Hctx Hdec. destruct base64 as [|c data]; [contradiction|].
rewrite (onmessage_stages message st (first_payload_inlineData message _ Hdata)).
cbv zeta.
rewrite Hdata, onAudio_sync_unfold, Hctx. cbv zeta. rewrite Hdec.
reflexivity.
Qed.

(** A chunk of a message without the interruption flag: what is added to
    the schedule. *)
Lemma onmessage_scheduled (message : LiveServerMessage) (base64 : list N)
  (st : Refs) (ctx : AudioContext) (buffer : AudioBuffer) :
  above 0 st ->
  inlineData message = Some base64 -> base64 <> [] ->
  interrupted message = false ->
  audioContextOut st = Some ctx ->
  decode base64 ≫= (fun bytes => decodeAudioData bytes 24000 1) = Normal buffer ->
  let start := Qmax (nextStartTime st) (currentTime ctx) in
  let st' := snd (onmessage message st) in
  nodes st' = nodes st ++ [scheduled_node buffer start]
  /\ nextStartTime st' = Double.add start (duration buffer)
  /\ activeSources st' = Set_add (length (nodes st)) (activeSources st).
Proof.
intros Habove Hdata Hne Hni Hctx Hdec start st'. subst st'.
rewrite (onmessage_decoded message base64 st ctx buffer Hdata Hne Hctx Hdec).
fold start. set (st1 := set_nextStartTime start st).
pose proof (above_zero _ _ (raise_above 0 st ctx Habove Hctx)) as Ha1.
fold start st1 in Ha1.
destruct (onmessage_rest_scheduler 0 message st1 Ha1) as (Hs & Hsched).
destruct (onmessage_rest_above 0 message st1 Ha1) as (_ & Ha2 & Hctx2).
rewrite Hni in Hsched. destruct Hsched as (Hc & Hact & Hn).
rewrite onAudio_resume_spec.
- cbn [snd]. refs_simpl. rewrite Hc, Hact, Hn. unfold st1. refs_simpl.
  repeat split.
- rewrite Hctx2. unfold st1. refs_simpl. rewrite Hctx. eauto.
- apply Ha2.
Qed.

(** A chunk of a message with the interruption flag: the time given to
    [start] is the cursor the interruption has reset. *)
Lemma onmessage_interrupted_scheduled (message : LiveServerMessage)
  (base64 : list N) (st : Refs) (ctx : AudioContext) (buffer : AudioBuffer) :
  above 0 st ->
  inlineData message = Some base64 -> base64 <> [] ->
  interrupted message = true ->
  audioContextOut st = Some ctx ->
  decode base64 ≫= (fun bytes => decodeAudioData bytes 24000 1) = Normal buffer ->
  nodes (snd (onmessage message st))
  = stopped_nodes (activeSources st) (nodes st) ++ [scheduled_node buffer 0].
Proof.
intros Habove Hdata Hne Hint Hctx Hdec.
rewrite (onmessage_decoded message base64 st ctx buffer Hdata Hne Hctx Hdec).
set (st1 := set_nextStartTime _ st).
pose proof (above_zero _ _ (raise_above 0 st ctx Habove Hctx)) as Ha1.
fold st1 in Ha1.
destruct (onmessage_rest_scheduler 0 message st1 Ha1) as (Hs & Hsched).
rewrite Hint in Hsched. destruct Hsched as (Hc & Hact & Hn).
rewrite onAudio_resume_spec.
- cbn [snd]. refs_simpl. rewrite Hc, Hn. unfold st1. refs_simpl. reflexivity.
- destruct Hs as (_ & -> & _). unfold st1. refs_simpl. rewrite Hctx. eauto.
- rewrite Hc. apply Qle_refl.
Qed.
End MessageLemmas.

(** X10. The schedule the code computes is consistent.  In every
    reachable state the active set has no duplicate; each of its sources
    was given to [start] a time that is not negative, lasts a time that is
    not negative, and has an end, as the code computes it (the start plus
    the duration, rounded to a double), that is not after the cursor; and
    of two active sources the one that joined the set first has its
    computed end not after the start given to the other.  These are the
    times given to [start], not the times at which sound is heard: the
    chunk of a message without the interruption flag is given a start that
    is neither before the output clock nor before the cursor, so that it
    plays when it is scheduled; the chunk of a message with the flag is
    given time zero whatever the clock, a time that is past once the clock
    has moved, so that it plays at once and the schedule does not say when
    it ends. *)
Theorem X10_schedule_consistent (st : App.Refs) :
  App.reachable st ->
  NoDup (App.activeSources st)
  /\ (forall id, id ∈ App.activeSources st ->
        exists s d,
          SchedulerViews.scheduled (App.nodes st) id s d
          /\ (0 <= s)%Q /\ (0 <= d)%Q
          /\ (Double.add s d <= App.nextStartTime st)%Q)
  /\ (forall i j a b sa da sb db,
        (i < j)%nat ->
        App.activeSources st !! i = Some a ->
        App.activeSources st !! j = Some b ->
        SchedulerViews.scheduled (App.nodes st) a sa da ->
        SchedulerViews.scheduled (App.nodes st) b sb db ->
        (Double.add sa da <= sb)%Q)
  /\ (forall message base64 ctx buffer,
        App.inlineData message = Some base64 -> base64 <> [] ->
        App.interrupted message = false ->
        App.audioContextOut st = Some ctx ->
        Codec.decode base64 ≫= (fun bytes => Codec.decodeAudioData bytes 24000 1)
        = JS.Normal buffer ->
        exists start,
          App.nodes (App.after (App.Message message) st)
          = App.nodes st ++ [AppViews.scheduled_node buffer start]
          /\ (App.currentTime ctx <= start)%Q
          /\ (App.nextStartTime st <= start)%Q)
  /\ (forall message base64 ctx buffer,
        App.inlineData message = Some base64 -> base64 <> [] ->
        App.interrupted message = true ->
        App.audioContextOut st = Some ctx ->
        Codec.decode base64 ≫= (fun bytes => Codec.decodeAudioData bytes 24000 1)
        = JS.Normal buffer ->
        App.nodes (App.after (App.Message message) st)
        = AppViews.stopped_nodes (App.activeSources st) (App.nodes st)
          ++ [AppViews.scheduled_node buffer 0]).
Proof.
intros Hreach. destruct (reachable_orderly st Hreach) as (H1 & H2 & H3).
split; [exact H1|]. split; [exact H2|]. split; [|split].
- intros i j a b sa da sb db Hij Ha Hb Hsa Hsb.
  exact (pairwise_lookup _ _ i j a b H3 Hij Ha Hb sa da sb db Hsa Hsb).
- intros message base64 ctx buffer Hdata Hne Hni Hctx Hdec.
  destruct (onmessage_scheduled message base64 st ctx buffer
              (reachable_above st Hreach) Hdata Hne Hni Hctx Hdec)
    as (Hn & _).
  eexists. split; [exact Hn|]. split; [apply Q.le_max_r|apply Q.le_max_l].
- intros message base64 ctx buffer Hdata Hne Hint Hctx Hdec.
  exact (onmessage_interrupted_scheduled message base64 st ctx buffer
           (reachable_above st Hreach) Hdata Hne Hint Hctx Hdec).
Qed.

(** Two chunks a second apart. *)
Lemma X10_witness :
  let chunk := App.Message (App.audio_message (JS.of_ascii_string "AAA=")) in
  let st := AppViews.after_all
              [App.StartCoach; chunk; App.ClockAdvance 1; chunk] in
  App.activeSources st = [0%nat; 1%nat]
  /\ forall sa da sb db,
       SchedulerViews.scheduled (App.nodes st) 0 sa da ->
       SchedulerViews.scheduled (App.nodes st) 1 sb db ->
       (Double.add sa da <= sb)%Q.
Proof.
intros chunk st. split; [reflexivity|].
assert (Hreach : App.reachable st)
  by (apply reachable_after_all; repeat constructor; discriminate).
destruct (X10_schedule_consistent st Hreach) as (_ & _ & H & _ & _).
intros sa da sb db. apply (H 0%nat 1%nat 0%nat 1%nat); [lia|reflexivity|reflexivity].
Defined.

(** X11. Whatever an inbound message carries, handling it in a reachable
    state changes neither of the two audio contexts (so the output clock
    is not touched), nor the session promise, nor any promise or session:
    the server cannot close the session or alter the outbound queue. *)
Theorem X11_message_keeps_session (message : App.LiveServerMessage)
  (st : App.Refs) :
  App.reachable st ->
  let st' := App.after (App.Message message) st in
  App.audioContextIn st' = App.audioContextIn st
  /\ App.audioContextOut st' = App.audioContextOut st
  /\ App.sessionPromise st' = App.sessionPromise st
  /\ App.promises st' = App.promises st.
Proof.
intros Hreach.
exact (proj2 (onmessage_orderly message st (reachable_above st Hreach)
                (reachable_orderly st Hreach))).
Qed.

(** An interruption with a chunk and a transcript, on an open session. *)
Lemma X11_witness :
  let st := AppViews.after_all [App.StartCoach; App.SessionOpened 0] in
  let message :=
    {| App.modelTurn :=
         Some {| App.parts := Some [Some (JS.of_ascii_string "AAA=")] |};
       App.interrupted := true;
       App.inputAudioTranscription := Some (JS.of_ascii_string "stir");
       App.outputTranscription := None |} in
  App.sessionPromise (App.after (App.Message message) st) = Some 0%nat
  /\ App.promises (App.after (App.Message message) st)
     = [App.Fulfilled {| App.closed := false; App.outbound := [] |}].
Proof.
intros st message.
assert (Hreach : App.reachable st)
  by (apply reachable_after_all; repeat constructor).
destruct (X11_message_keeps_session message st Hreach) as (_ & _ & H1 & H2).
split; [rewrite H1|rewrite H2]; reflexivity.
Defined.

(** X12. Without an output context an audio chunk is dropped: the
    message completes normally and leaves every ref as it was, so the
    chunk is neither scheduled nor kept for later. *)
Theorem X12_audio_without_context_is_dropped (base64 : list N)
  (st : App.Refs) :
  App.audioContextOut st = None ->
  App.run (App.Message (App.audio_message base64)) st = (JS.Normal tt, st).
Proof.
intros Hctx. destruct base64 as [|c data]; [reflexivity|].
cbn [App.run]. rewrite onmessage_audio. now apply onAudio_no_context.
Qed.

Lemma X12_witness :
  App.run (App.Message (App.audio_message (JS.of_ascii_string "AAA=")))
    App.initial
  = (JS.Normal tt, App.initial).
Proof.
apply (X12_audio_without_context_is_dropped (JS.of_ascii_string "AAA=")
         App.initial).
reflexivity.
Defined.

(** X13. When the audio payload of a message cannot be decoded (by
    [decode] or by [decodeAudioData]) the error is raised, no source is
    created, and the rest of the message is still handled: the refs are
    those the interruption flag and the transcripts give, from the state
    in which the cursor was raised to the output clock. *)
Theorem X13_undecodable_audio (message : App.LiveServerMessage)
  (base64 : list N) (st : App.Refs) (ctx : App.AudioContext) (e : JS.exn) :
  App.inlineData message = Some base64 -> base64 <> [] ->
  App.audioContextOut st = Some ctx ->
  Codec.decode base64 ≫= (fun bytes => Codec.decodeAudioData bytes 24000 1)
  = JS.Throw e ->
  App.onmessage message st
  = (JS.Throw e,
     snd (App.onmessage_rest message
            (App.set_nextStartTime
               (Qmax (App.nextStartTime st) (App.currentTime ctx)) st))).
Proof.
intros Hdata Hne Hctx Hdec.
destruct base64 as [|c data]; [contradiction|].
unfold App.onmessage, mbind at 1 2 3 4, App.handler_bind, App.attempt, App.lift.
rewrite (first_payload_inlineData message _ Hdata), Hdata.
rewrite onAudio_sync_unfold, Hctx. cbv zeta. rewrite Hdec.
destruct (App.onmessage_rest message _) as [r st2].
cbn [mret App.handler_ret fst snd]. reflexivity.
Qed.

(** A payload of one character, which [atob] refuses. *)
Lemma X13_witness :
  let st := AppViews.after_all [App.StartCoach; App.ClockAdvance 1] in
  App.run (App.Message (App.audio_message (JS.of_ascii_string "A"))) st
  = (JS.Throw JS.InvalidCharacterError, App.set_nextStartTime (0 + 1) st).
Proof.
intros st.
apply (X13_undecodable_audio (App.audio_message (JS.of_ascii_string "A"))
         (JS.of_ascii_string "A") st {| App.currentTime := 0 + 1 |}).
- reflexivity.
- discriminate.
- reflexivity.
- reflexivity.
Defined.


(** X14. A message that carries both the interruption flag and an audio
    chunk: the interruption is handled first and the chunk of the same
    message survives it.  The sources that were active are stopped, the
    new source is the only active one, it is started at time zero (not at
    the output clock), and the cursor ends at the duration of the chunk. *)
Theorem X14_interruption_with_audio (message : App.LiveServerMessage)
  (base64 : list N) (st : App.Refs) (ctx : App.AudioContext)
  (buffer : WebAudio.AudioBuffer) :
  App.reachable st ->
  App.inlineData message = Some base64 -> base64 <> [] ->
  App.interrupted message = true ->
  App.audioContextOut st = Some ctx ->
  Codec.decode base64 ≫= (fun bytes => Codec.decodeAudioData bytes 24000 1)
  = JS.Normal buffer ->
  let st' := App.after (App.Message message) st in
  App.activeSources st' = [length (App.nodes st)]
  /\ App.nodes st'
     = AppViews.stopped_nodes (App.activeSources st) (App.nodes st)
       ++ [AppViews.scheduled_node buffer 0]
  /\ App.nextStartTime st' = (0 + WebAudio.duration buffer)%Q.
Proof.
intros Hreach Hdata Hne Hint Hctx Hdec st'. subst st'.
unfold App.after. cbn [App.run].
rewrite (onmessage_decoded message base64 st ctx buffer Hdata Hne Hctx Hdec).
set (st1 := App.set_nextStartTime _ st).
pose proof (above_zero _ _
              (raise_above 0 st ctx (reachable_above st Hreach) Hctx)) as Ha1.
fold st1 in Ha1.
destruct (onmessage_rest_scheduler 0 message st1 Ha1) as (Hs & Hsched).
rewrite Hint in Hsched. destruct Hsched as (Hc & Hact & Hn).
set (st2 := snd (App.onmessage_rest message st1)) in *.
rewrite onAudio_resume_spec.
- cbn [snd]. refs_simpl. rewrite Hc, Hact, Hn.
  unfold st1. refs_simpl. rewrite stopped_nodes_length.
  split; [reflexivity|]. split; [reflexivity|].
  apply add_zero_l, is_double_duration.
- destruct Hs as (_ & -> & _). unfold st1. refs_simpl. rewrite Hctx. eauto.
- rewrite Hc. apply Qle_refl.
Qed.

(** A second chunk arrives, a second after the first, with the
    interruption flag. *)
Lemma X14_witness :
  let chunk := JS.of_ascii_string "AAA=" in
  let st := AppViews.after_all
              [App.StartCoach; App.Message (App.audio_message chunk);
               App.ClockAdvance 1] in
  let message :=
    {| App.modelTurn := Some {| App.parts := Some [Some chunk] |};
       App.interrupted := true;
       App.inputAudioTranscription := None;
       App.outputTranscription := None |} in
  let st' := App.after (App.Message message) st in
  App.activeSources st' = [1%nat]
  /\ App.startTime <$> App.nodes st' !! 1%nat = Some (Some 0%Q)
  /\ App.stopped <$> App.nodes st' !! 0%nat = Some true.
Proof.
intros chunk st message st'.
assert (Hreach : App.reachable st)
  by (apply reachable_after_all; repeat constructor; discriminate).
assert (Hdec : exists buffer,
  Codec.decode chunk ≫= (fun bytes => Codec.decodeAudioData bytes 24000 1)
  = JS.Normal buffer) by (eexists; reflexivity).
destruct Hdec as [buffer Hdec].
destruct (X14_interruption_with_audio message chunk st
            {| App.currentTime := 0 + 1 |} buffer Hreach)
  as (H1 & H2 & _); try reflexivity; try discriminate; [exact Hdec|].
fold st' in H1, H2. rewrite H1, H2. repeat split.
Defined.

(** ** The session and the capture callback *)
Section SessionLemmas.
Import JS WebAudio Codec Capture App AppViews SchedulerViews.

(** The capture payload never fails. *)
Lemma capture_payload_Normal (inputData : list number) :
  capture_payload inputData
  = Normal (Base64.b64_encode
              (map Byte.to_N (bytes_of_int16s (pcm16_of_block inputData)))).
Proof. apply encode_spec. Qed.

(** A capture block registers one send on the promise the ref holds. *)
Lemma onaudioprocess_spec (inputData : list number) (st : Refs) :
  exists payload,
    capture_payload inputData = Normal payload
    /\ onaudioprocess inputData st
       = (Normal tt,
          match sessionPromise st with
          | Some p =>
              set_promises
                (alter (promise_then (SendRealtimeInput payload)) p (promises st))
                st
          | None => st
          end).
Proof.
eexists. split; [apply capture_payload_Normal|].
unfold onaudioprocess, mbind, handler_bind, lift.
rewrite capture_payload_Normal. reflexivity.
Qed.

Lemma sent_by_app (rs rs' : list reaction) :
  sent_by (rs ++ rs') = sent_by rs ++ sent_by rs'.
Proof. unfold sent_by. apply flat_map_app. Qed.

(** The session a list of waiting callbacks leaves when it opens. *)
Lemma fold_react_to (rs : list reaction) (s : Session) :
  outbound (fold_left (fun s r => react_to r s) rs s) = outbound s ++ sent_by rs
  /\ closed (fold_left (fun s r => react_to r s) rs s)
     = closed s || existsb (fun r => match r with
                                     | CloseSession => true
                                     | SendRealtimeInput _ => false
                                     end) rs.
Proof.
revert s. induction rs as [|r rs IH]; intros s.
- cbn. rewrite app_nil_r, orb_false_r. split; reflexivity.
- cbn [fold_left]. destruct (IH (react_to r s)) as [-> ->].
  destruct r as [|data]; cbn [react_to outbound closed existsb sent_by flat_map].
  + split; [reflexivity|]. now rewrite orb_true_r.
  + rewrite <- app_assoc. split; [reflexivity|]. now rewrite orb_false_l.
Qed.

(** A run of capture blocks on a promise the ref holds. *)
Lemma after_blocks_spec (blocks : list (list number)) (st : Refs) (p : nat) :
  sessionPromise st = Some p ->
  exists payloads,
    Forall2 (fun inputData payload => capture_payload inputData = Normal payload)
      blocks payloads
    /\ after_blocks blocks st
       = set_promises
           (alter (fun pr =>
                     fold_left (fun pr payload =>
                                  promise_then (SendRealtimeInput payload) pr)
                       payloads pr)
              p (promises st))
           st.
Proof.
intros Hp. revert st Hp. induction blocks as [|inputData blocks IH]; intros st Hp.
- exists []. split; [constructor|]. cbn [after_blocks fold_left].
  rewrite (list_alter_id (fun pr => pr)) by reflexivity. now destruct st.
- destruct (onaudioprocess_spec inputData st) as (payload & Hpay & Hrun).
  rewrite Hp in Hrun.
  unfold after_blocks. cbn [fold_left]. unfold after at 2. cbn [run].
  rewrite Hrun. cbn [snd].
  destruct (IH (set_promises
                  (alter (promise_then (SendRealtimeInput payload)) p (promises st))
                  st)) as (payloads & Hall & Hrest); [exact Hp|].
  exists (payload :: payloads). split; [now constructor|].
  unfold after_blocks in Hrest. rewrite Hrest. refs_simpl.
  rewrite list_alter_alter_eq. reflexivity.
Qed.

Lemma fold_promise_then_Pending (payloads : list (list N)) (rs : list reaction) :
  fold_left (fun pr payload => promise_then (SendRealtimeInput payload) pr)
    payloads (Pending rs)
  = Pending (rs ++ map SendRealtimeInput payloads).
Proof.
revert rs. induction payloads as [|b payloads IH]; intros rs.
- cbn. now rewrite app_nil_r.
- cbn [fold_left promise_then map]. rewrite IH, <- app_assoc. reflexivity.
Qed.

Lemma fold_promise_then_Fulfilled (payloads : list (list N)) (s : Session) :
  fold_left (fun pr payload => promise_then (SendRealtimeInput payload) pr)
    payloads (Fulfilled s)
  = Fulfilled {| closed := closed s; outbound := outbound s ++ payloads |}.
Proof.
revert s. induction payloads as [|b payloads IH]; intros s.
- cbn. rewrite app_nil_r. now destruct s.
- cbn [fold_left promise_then react_to]. rewrite IH. cbn [closed outbound].
  now rewrite <- app_assoc.
Qed.

Lemma fold_promise_then_Rejected (payloads : list (list N)) :
  fold_left (fun pr payload => promise_then (SendRealtimeInput payload) pr)
    payloads Rejected
  = Rejected.
Proof. induction payloads as [|b payloads IH]; [reflexivity|exact IH]. Qed.

Lemma sent_by_sends (payloads : list (list N)) :
  sent_by (map SendRealtimeInput payloads) = payloads.
Proof.
induction payloads as [|b payloads IH]; [reflexivity|].
cbn. unfold sent_by in IH. now rewrite IH.
Qed.
End SessionLemmas.

(** X15. Stopping the coach twice is the same as stopping it once, and
    once the coach is stopped the capture callback has no effect: the
    session promise is null, no source is active, and no captured block is
    sent or queued anywhere, however many arrive. *)
Theorem X15_stopCoach_idempotent (st : App.Refs) :
  App.reachable st ->
  let st1 := App.after App.StopCoach st in
  App.sessionPromise st1 = None
  /\ App.activeSources st1 = []
  /\ App.coachActive (App.display st1) = false
  /\ App.run App.StopCoach st1 = (JS.Normal tt, st1)
  /\ forall blocks, SchedulerViews.after_blocks blocks st1 = st1.
Proof.
intros Hreach st1.
destruct (reachable_above st Hreach) as (_ & _ & Hst & _).
assert (E : st1 = snd (App.stopCoach st)) by reflexivity.
rewrite (stopCoach_spec st Hst) in E. cbn [snd] in E.
split; [now rewrite E|]. split; [now rewrite E|]. split; [now rewrite E|].
split.
- cbn [App.run]. rewrite stopCoach_spec.
  + rewrite E. reflexivity.
  + rewrite E. intros id Hid. refs_simpl. now apply not_elem_of_nil in Hid.
- intros blocks. induction blocks as [|inputData blocks IH]; [reflexivity|].
  unfold SchedulerViews.after_blocks. cbn [fold_left].
  destruct (onaudioprocess_spec inputData st1) as (payload & _ & Hrun).
  unfold App.after at 2. cbn [App.run]. rewrite Hrun.
  replace (App.sessionPromise st1) with (@None nat) by now rewrite E.
  exact IH.
Qed.

(** The coach is stopped while a chunk plays on an open session; then two
    blocks are captured. *)
Lemma X15_witness :
  let st := AppViews.after_all
              [App.StartCoach; App.SessionOpened 0;
               App.Message (App.audio_message (JS.of_ascii_string "AAA="))] in
  let st1 := App.after App.StopCoach st in
  App.run App.StopCoach st1 = (JS.Normal tt, st1)
  /\ SchedulerViews.after_blocks [[JS.Fin 1]; [JS.Fin 0]] st1 = st1.
Proof.
intros st st1.
assert (Hreach : App.reachable st)
  by (apply reachable_after_all; repeat constructor).
destruct (X15_stopCoach_idempotent st Hreach) as (_ & _ & _ & H1 & H2).
split; [exact H1|apply H2].
Defined.

(** X16. While the ref holds a session promise, every captured block is
    encoded without error and handed to that promise, in capture order.
    If the session is still connecting the frames wait and are all sent,
    in that order, when it opens; if it is open they are appended to what
    was sent before; if the connection failed they are dropped.  No other
    promise is touched. *)
Theorem X16_frames_in_capture_order (blocks : list (list JS.number))
  (st : App.Refs) (p : nat) :
  App.sessionPromise st = Some p ->
  exists payloads,
    Forall2 (fun inputData payload =>
               Capture.capture_payload inputData = JS.Normal payload)
      blocks payloads
    /\ let st' := SchedulerViews.after_blocks blocks st in
       (forall rs,
          App.promises st !! p = Some (App.Pending rs) ->
          exists s,
            App.promises (App.after (App.SessionOpened p) st') !! p
            = Some (App.Fulfilled s)
            /\ App.outbound s = SchedulerViews.sent_by rs ++ payloads)
       /\ (forall s,
             App.promises st !! p = Some (App.Fulfilled s) ->
             App.promises st' !! p
             = Some (App.Fulfilled {| App.closed := App.closed s;
                                      App.outbound := App.outbound s ++ payloads |}))
       /\ (App.promises st !! p = Some App.Rejected ->
           App.promises st' !! p = Some App.Rejected)
       /\ forall q, q <> p -> App.promises st' !! q = App.promises st !! q.
Proof.
intros Hp. destruct (after_blocks_spec blocks st p Hp) as (payloads & Hall & Hst').
exists payloads. split; [exact Hall|]. cbv zeta. rewrite Hst'.
split; [|split; [|split]].
- intros rs Hrs. unfold App.after. cbn [App.run App.modify snd]. refs_simpl.
  rewrite list_alter_alter_eq, list_lookup_alter_eq, Hrs. cbn [fmap option_fmap option_map compose].
  rewrite fold_promise_then_Pending. cbn [App.promise_fulfil].
  eexists. split; [reflexivity|].
  destruct (fold_react_to (rs ++ map App.SendRealtimeInput payloads)
              {| App.closed := false; App.outbound := [] |}) as [-> _].
  cbn [App.outbound app]. now rewrite sent_by_app, sent_by_sends.
- intros s Hs. refs_simpl.
  rewrite list_lookup_alter_eq, Hs. cbn [fmap option_fmap option_map].
  now rewrite fold_promise_then_Fulfilled.
- intros Hr. refs_simpl.
  rewrite list_lookup_alter_eq, Hr. cbn [fmap option_fmap option_map].
  now rewrite fold_promise_then_Rejected.
- intros q Hq. refs_simpl. now apply list_lookup_alter_ne.
Qed.

(** Two blocks are captured while the session is connecting. *)
Lemma X16_witness :
  let st := AppViews.after_all [App.StartCoach] in
  let st' := App.after (App.SessionOpened 0)
               (SchedulerViews.after_blocks [[JS.Fin 1]; [JS.Fin 0]] st) in
  exists s,
    App.promises st' !! 0%nat = Some (App.Fulfilled s)
    /\ App.outbound s = [JS.of_ascii_string "/38="; JS.of_ascii_string "AAA="].
Proof.
intros st st'.
destruct (X16_frames_in_capture_order [[JS.Fin 1]; [JS.Fin 0]] st 0 eq_refl)
  as (payloads & Hall & Hpending & _).
destruct (Hpending [] eq_refl) as (s & Hs & Hout).
exists s. split; [exact Hs|]. rewrite Hout.
apply Forall2_cons_inv_l in Hall. destruct Hall as (b1 & k1 & H1 & Hall & ->).
apply Forall2_cons_inv_l in Hall. destruct Hall as (b2 & k2 & H2 & Hall & ->).
apply Forall2_nil_inv_l in Hall. subst k2.
vm_compute in H1. vm_compute in H2.
injection H1 as <-. injection H2 as <-. reflexivity.
Defined.





(** ** The audio contexts *)
Section ContextLemmas.
Import JS WebAudio Codec Capture App AppViews SchedulerViews.

(** The two contexts are created together. *)
Lemma after_contexts_paired (ev : event) (st : Refs) :
  reachable st ->
  (audioContextIn st = None <-> audioContextOut st = None) ->
  (audioContextIn (after ev st) = None <-> audioContextOut (after ev st) = None).
Proof.
intros Hreach Hpair.
destruct (reachable_above st Hreach) as (_ & _ & Hst & _).
assert (Hmic : forall stream,
  audioContextIn (snd (startCoach_microphone stream st)) = None
  <-> audioContextOut (snd (startCoach_microphone stream st)) = None).
{ intros stream.
  destruct (startCoach_microphone_frame stream st) as (-> & -> & _).
  exact Hpair. }
destruct ev as [| |message|source|inputData|p|p|dt| |]; unfold after;
  cbn [run]; try apply Hmic.
- unfold startCoach, initAudio, mbind, handler_bind, modify. cbv beta iota.
  refs_simpl. destruct (audioContextOut st) as [ctx|] eqn:Hctx; refs_simpl.
  + rewrite Hctx. exact Hpair.
  + split; discriminate.
- rewrite (stopCoach_spec st Hst). exact Hpair.
- destruct (onmessage_orderly message st (reachable_above st Hreach)
              (reachable_orderly st Hreach)) as (_ & -> & -> & _).
  exact Hpair.
- exact Hpair.
- destruct (onaudioprocess_spec inputData st) as (payload & _ & ->).
  cbn [snd]. destruct (sessionPromise st); exact Hpair.
- exact Hpair.
- exact Hpair.
- cbn [modify snd]. unfold advance_clock.
  destruct (audioContextOut st) as [ctx|] eqn:Hctx; refs_simpl.
  + split; [|discriminate]. intros H. apply Hpair in H. discriminate H.
  + rewrite Hctx. exact Hpair.
Qed.

Lemma reachable_contexts_paired (st : Refs) :
  reachable st -> (audioContextIn st = None <-> audioContextOut st = None).
Proof.
induction 1 as [|ev st Hst IH Hev]; [split; reflexivity|].
now apply after_contexts_paired.
Qed.

(** No event removes a context or takes the output clock back. *)
Lemma after_context_persists (ev : event) (st : Refs) (ctx : AudioContext) :
  reachable st -> possible ev ->
  audioContextOut st = Some ctx ->
  audioContextIn (after ev st) = audioContextIn st
  /\ exists ctx',
       audioContextOut (after ev st) = Some ctx'
       /\ (currentTime ctx <= currentTime ctx')%Q.
Proof.
intros Hreach Hev Hctx.
destruct (reachable_above st Hreach) as (_ & _ & Hst & _ & _ & Hdk).
assert (Hsame : audioContextIn (after ev st) = audioContextIn st ->
                audioContextOut (after ev st) = audioContextOut st ->
                audioContextIn (after ev st) = audioContextIn st
                /\ exists ctx',
                     audioContextOut (after ev st) = Some ctx'
                     /\ (currentTime ctx <= currentTime ctx')%Q).
{ intros E1 E2. split; [exact E1|]. exists ctx. rewrite E2.
  split; [exact Hctx|apply Qle_refl]. }
destruct ev as [| |message|source|inputData|p|p|dt| |]; unfold after in *;
  cbn [run] in *.
- apply Hsame;
    unfold startCoach, initAudio, mbind, handler_bind, modify; cbv beta iota;
    rewrite Hctx; refs_simpl; rewrite ?Hctx; reflexivity.
- apply Hsame; rewrite (stopCoach_spec st Hst); reflexivity.
- destruct (onmessage_orderly message st (reachable_above st Hreach)
              (reachable_orderly st Hreach)) as (_ & E1 & E2 & _).
  now apply Hsame.
- now apply Hsame.
- destruct (onaudioprocess_spec inputData st) as (payload & _ & E).
  apply Hsame; rewrite E; cbn [snd]; destruct (sessionPromise st); reflexivity.
- now apply Hsame.
- now apply Hsame.
- cbn [modify snd]. unfold advance_clock. rewrite Hctx. refs_simpl.
  split; [reflexivity|]. eexists. split; [reflexivity|].
  cbn [currentTime]. cbn in Hev.
  apply round_ge; [exact (Hdk ctx Hctx)|]. lra.
- destruct (startCoach_microphone_frame (Normal tt) st) as (E1 & E2 & _).
  now apply Hsame.
- destruct (startCoach_microphone_frame (Throw NotAllowedError) st)
    as (E1 & E2 & _).
  now apply Hsame.
Qed.
End ContextLemmas.

(** X19. The two audio contexts are created together by the first start
    of the coach and stay for good: in a reachable state either both exist
    or neither does; after [startCoach] the output context exists; and no
    event (stopping the coach included) removes or replaces a context or
    takes the output clock back. *)
Theorem X19_contexts_created_once (ev : App.event) (st : App.Refs) :
  App.reachable st -> App.possible ev ->
  (App.audioContextIn st = None <-> App.audioContextOut st = None)
  /\ is_Some (App.audioContextIn (App.after App.StartCoach st))
  /\ is_Some (App.audioContextOut (App.after App.StartCoach st))
  /\ forall ctx,
       App.audioContextOut st = Some ctx ->
       App.audioContextIn (App.after ev st) = App.audioContextIn st
       /\ exists ctx',
            App.audioContextOut (App.after ev st) = Some ctx'
            /\ (App.currentTime ctx <= App.currentTime ctx')%Q.
Proof.
intros Hreach Hev.
pose proof (reachable_contexts_paired st Hreach) as Hpair.
split; [exact Hpair|].
assert (Hstart : App.reachable (App.after App.StartCoach st))
  by (constructor; [exact Hreach|exact I]).
assert (Hout : is_Some (App.audioContextOut (App.after App.StartCoach st))).
{ unfold App.after. cbn [App.run].
  unfold App.startCoach, App.initAudio, mbind, App.handler_bind, App.modify.
  cbv beta iota. refs_simpl.
  destruct (App.audioContextOut st) as [ctx|] eqn:Hctx; refs_simpl;
    [rewrite Hctx|]; eauto. }
split; [|split; [exact Hout|]].
- pose proof (reachable_contexts_paired _ Hstart) as Hp.
  destruct (App.audioContextIn (App.after App.StartCoach st)); [eauto|].
  destruct Hout as [ctx Hctx]. rewrite (proj1 Hp eq_refl) in Hctx.
  discriminate Hctx.
- intros ctx Hctx. now apply after_context_persists.
Qed.

(** The coach is started, runs for two seconds and is stopped. *)
Lemma X19_witness :
  let st := AppViews.after_all [App.StartCoach; App.ClockAdvance 2] in
  App.audioContextOut (App.after App.StopCoach st)
  = Some {| App.currentTime := 0 + 2 |}
  /\ is_Some (App.audioContextIn (App.after App.StartCoach st)).
Proof.
intros st.
assert (Hreach : App.reachable st)
  by (apply reachable_after_all; repeat constructor; discriminate).
destruct (X19_contexts_created_once App.StopCoach st Hreach I)
  as (_ & Hin & _ & _).
split; [reflexivity|exact Hin].
Defined.

(** ** The image call *)

(** X20. [generateDishImage] returns the data URL of the first part that
    has inline data, whatever follows it and whatever the other candidates
    hold: parts without inline data before it are skipped, later images
    and later candidates are never looked at. *)
Theorem X20_first_image_wins
  (response : Generation.GenerateContentResponse)
  (candidate : Generation.Candidate) (others : list Generation.Candidate)
  (skipped later : list Generation.Part) (blob : Generation.Blob)
  (data : list N) :
  Generation.candidates response = Some (candidate :: others) ->
  Generation.content candidate
  = Some {| Generation.parts :=
              Some (skipped
                    ++ {| Generation.inlineData := Some blob |} :: later) |} ->
  Forall (fun part => Generation.inlineData part = None) skipped ->
  Generation.data blob = Some data ->
  Generation.generateDishImage (JS.Normal response)
  = JS.Normal (JS.of_ascii_string "data:image/png;base64," ++ data).
Proof.
intros Hc Hcontent Hskipped Hdata. unfold Generation.generateDishImage.
rewrite bind_Normal, Hc. cbn [Generation.defined]. rewrite bind_Normal.
cbn [lookup list_lookup Generation.defined]. rewrite bind_Normal, Hcontent.
change (JS.Normal
          (Generation.first_image
             (skipped ++ {| Generation.inlineData := Some blob |} :: later))
        = JS.Normal (JS.of_ascii_string "data:image/png;base64," ++ data)).
f_equal. clear Hcontent.
induction Hskipped as [|part rest Hpart _ IH].
- cbn [app Generation.first_image Generation.inlineData]. now rewrite Hdata.
- cbn [app Generation.first_image]. rewrite Hpart. exact IH.
Qed.

(** A text part, then two images. *)
Lemma X20_witness :
  let image (d : string) := {| Generation.inlineData :=
                      Some {| Generation.data := Some (JS.of_ascii_string d) |} |} in
  Generation.generateDishImage
    (JS.Normal
       {| Generation.text := None;
          Generation.candidates :=
            Some [{| Generation.content :=
                       Some {| Generation.parts :=
                                 Some [{| Generation.inlineData := None |};
                                       image "AAA="%string; image "BBB="%string] |} |}] |})
  = JS.Normal (JS.of_ascii_string "data:image/png;base64,AAA=").
Proof.
intros image.
eapply (X20_first_image_wins _ _ [] [{| Generation.inlineData := None |}]
          [image "BBB="%string]
          {| Generation.data := Some (JS.of_ascii_string "AAA=") |}
          (JS.of_ascii_string "AAA=")).
- reflexivity.
- reflexivity.
- repeat constructor.
- reflexivity.
Defined.

(** X21. [generateDishImage] completes normally exactly when the remote
    call succeeds with a response that has a first candidate with content
    and a list of parts; a failure of the remote call is passed on, and
    every other response raises a TypeError.  When it completes the result
    is never empty. *)
Theorem X21_generateDishImage_outcomes
  (remote : JS.completion Generation.GenerateContentResponse) :
  (JS.is_Normal (Generation.generateDishImage remote) = true
   <-> exists response candidate others content parts,
         remote = JS.Normal response
         /\ Generation.candidates response = Some (candidate :: others)
         /\ Generation.content candidate = Some content
         /\ Generation.parts content = Some parts)
  /\ (forall e, remote = JS.Throw e ->
        Generation.generateDishImage remote = JS.Throw e)
  /\ (forall response e,
        remote = JS.Normal response ->
        Generation.generateDishImage remote = JS.Throw e -> e = JS.TypeError)
  /\ (forall url, Generation.generateDishImage remote = JS.Normal url ->
        url <> []).
Proof.
unfold Generation.generateDishImage.
destruct remote as [[text [[|[[[[ps|]]|]] others]|]]|e0];
  cbn [mbind JS.completion_bind Generation.defined Generation.candidates
       Generation.content Generation.parts lookup list_lookup mret
       JS.completion_ret JS.is_Normal];
  (split; [split; [try discriminate; intros _; eauto 10
                  |intros (r & c & o & ct & pp & H1 & H2 & H3 & H4);
                   try discriminate H1; try reflexivity;
                   injection H1 as <-; cbn in H2; try discriminate H2;
                   injection H2 as <- <-; cbn in H3; try discriminate H3;
                   injection H3 as <-; cbn in H4; discriminate H4]
          |split; [intros e H; try discriminate H; now injection H as ->
                  |split; [intros r e H1 H2; try discriminate H1;
                           try discriminate H2; now injection H2 as <-
                          |intros url H; try discriminate H]]]).
injection H as <-.
induction ps as [|[[[[d|]]|]] rest IH]; cbn; try discriminate. exact IH.
Qed.

(** A response without candidates. *)
Lemma X21_witness :
  Generation.generateDishImage
    (JS.Normal {| Generation.text := None; Generation.candidates := None |})
  = JS.Throw JS.TypeError.
Proof.
destruct (X21_generateDishImage_outcomes
            (JS.Normal {| Generation.text := None;
                          Generation.candidates := None |}))
  as (_ & _ & H & _).
destruct (Generation.generateDishImage _) as [url|e] eqn:E;
  [discriminate E|].
now rewrite (H _ e eq_refl eq_refl).
Defined.

(** ** The planner *)
Ltac view_simpl :=
  cbn [Planner.appState Planner.suggestions Planner.selectedDish
       Planner.recipe Planner.recipeImage Planner.loading Planner.loadingMsg
       Planner.logged Planner.set_appState Planner.set_suggestions
       Planner.set_selectedDish Planner.set_recipe Planner.set_recipeImage
       Planner.set_loading Planner.set_loadingMsg Planner.console_error
       fst snd] in *.

Lemma handleFetchSuggestions_spec
  (JSON_parse : list N -> JS.completion Generation.JSON)
  (remote : JS.completion Generation.GenerateContentResponse)
  (v : Planner.View) :
  let v' := Planner.handleFetchSuggestions JSON_parse remote v in
  Planner.loading v' = false
  /\ Planner.selectedDish v' = Planner.selectedDish v
  /\ Planner.recipe v' = Planner.recipe v
  /\ Planner.recipeImage v' = Planner.recipeImage v
  /\ match Generation.getSuggestions JSON_parse remote with
     | JS.Normal dishes =>
         Planner.appState v' = Planner.SUGGESTING
         /\ Planner.suggestions v' = dishes
         /\ Planner.logged v' = Planner.logged v
     | JS.Throw e =>
         Planner.appState v' = Planner.appState v
         /\ Planner.suggestions v' = Planner.suggestions v
         /\ Planner.logged v' = Planner.logged v ++ [e]
     end.
Proof.
cbv zeta. unfold Planner.handleFetchSuggestions,
  Planner.handleFetchSuggestions_resume, Planner.handleFetchSuggestions_begin.
destruct (Generation.getSuggestions JSON_parse remote) as [dishes|e];
  view_simpl; repeat split.
Qed.

(** X22. However the suggestions call ends, [handleFetchSuggestions]
    ends with the loading flag cleared and leaves the selected dish, the
    recipe and its image alone.  When the call succeeds the view moves to
    SUGGESTING with what the call returned and nothing is logged; when it
    fails (the remote call, the parsing or the property access) the
    screen and the suggestions stay as they were and the error is logged,
    not shown. *)
Theorem X22_handleFetchSuggestions_outcomes
  (JSON_parse : list N -> JS.completion Generation.JSON)
  (remote : JS.completion Generation.GenerateContentResponse)
  (v : Planner.View) :
  let v' := Planner.handleFetchSuggestions JSON_parse remote v in
  Planner.loading v' = false
  /\ Planner.selectedDish v' = Planner.selectedDish v
  /\ Planner.recipe v' = Planner.recipe v
  /\ Planner.recipeImage v' = Planner.recipeImage v
  /\ match Generation.getSuggestions JSON_parse remote with
     | JS.Normal dishes =>
         Planner.appState v' = Planner.SUGGESTING
         /\ Planner.suggestions v' = dishes
         /\ Planner.logged v' = Planner.logged v
     | JS.Throw e =>
         Planner.appState v' = Planner.appState v
         /\ Planner.suggestions v' = Planner.suggestions v
         /\ Planner.logged v' = Planner.logged v ++ [e]
     end.
Proof. exact (handleFetchSuggestions_spec JSON_parse remote v). Qed.

(** X23. The suggestions are not validated.  When the text of the
    response parses to an object without a [dishes] property,
    [getSuggestions] returns [undefined] and [handleFetchSuggestions]
    moves to SUGGESTING with [undefined] as the suggestions; when it
    parses to [null] the property access raises a TypeError, which is
    logged, and the screen stays. *)
Theorem X23_suggestions_not_validated
  (JSON_parse : list N -> JS.completion Generation.JSON)
  (response : Generation.GenerateContentResponse)
  (c : N) (text : list N) (v : Planner.View) :
  Generation.text response = Some (c :: text) ->
  let v' := Planner.handleFetchSuggestions JSON_parse (JS.Normal response) v in
  (forall properties,
     JSON_parse (c :: text) = JS.Normal (Generation.JObject properties) ->
     Forall (fun p => fst p <> JS.of_ascii_string "dishes") properties ->
     Generation.getSuggestions JSON_parse (JS.Normal response) = JS.Normal None
     /\ Planner.appState v' = Planner.SUGGESTING
     /\ Planner.suggestions v' = None)
  /\ (JSON_parse (c :: text) = JS.Normal Generation.JNull ->
      Generation.getSuggestions JSON_parse (JS.Normal response)
      = JS.Throw JS.TypeError
      /\ Planner.appState v' = Planner.appState v
      /\ Planner.logged v' = Planner.logged v ++ [JS.TypeError]).
Proof.
intros Htext v'.
pose proof (handleFetchSuggestions_spec JSON_parse (JS.Normal response) v)
  as H.
cbv zeta in H. fold v' in H. destruct H as (_ & _ & _ & _ & H).
assert (Hget : Generation.getSuggestions JSON_parse (JS.Normal response)
               = JSON_parse (c :: text)
                 ≫= fun value =>
                      Generation.get_property value (JS.of_ascii_string "dishes")).
{ unfold Generation.getSuggestions. rewrite bind_Normal, Htext. reflexivity. }
split.
- intros properties Hparse Hnone.
  assert (E : Generation.getSuggestions JSON_parse (JS.Normal response)
              = JS.Normal None).
  { rewrite Hget, Hparse, bind_Normal. cbn [Generation.get_property].
    replace (List.find _ properties) with (@None (list N * Generation.JSON));
      [reflexivity|].
    symmetry. clear Hparse.
    induction Hnone as [|p rest Hp _ IH]; [reflexivity|].
    cbn [List.find]. rewrite bool_decide_eq_false_2 by exact Hp. exact IH. }
  rewrite E in H. destruct H as (H1 & H2 & _). repeat split; assumption.
- intros Hparse.
  assert (E : Generation.getSuggestions JSON_parse (JS.Normal response)
              = JS.Throw JS.TypeError).
  { rewrite Hget, Hparse, bind_Normal. reflexivity. }
  rewrite E in H. destruct H as (H1 & _ & H2). repeat split; assumption.
Qed.

(** A response whose text is an empty object. *)
Lemma X23_witness :
  let JSON_parse := fun _ : list N => JS.Normal (Generation.JObject []) in
  let response := {| Generation.text := Some (JS.of_ascii_string "{}");
                     Generation.candidates := None |} in
  Planner.suggestions
    (Planner.handleFetchSuggestions JSON_parse (JS.Normal response)
       Planner.initial_view)
  = None.
Proof.
intros JSON_parse response.
destruct (X23_suggestions_not_validated JSON_parse response 123
            (JS.of_ascii_string "}") Planner.initial_view eq_refl) as [H _].
destruct (H [] eq_refl) as (_ & _ & E); [constructor|exact E].
Defined.

Lemma handleSelectDish_spec
  (JSON_parse : list N -> JS.completion Generation.JSON)
  (recipe_remote : JS.completion Generation.GenerateContentResponse)
  (image_remote :
     option Generation.JSON -> JS.completion Generation.GenerateContentResponse)
  (dish : Generation.JSON) (v : Planner.View) :
  dish <> Generation.JNull ->
  let r := Planner.handleSelectDish JSON_parse recipe_remote image_remote dish v in
  let v' := snd r in
  fst r = JS.Normal tt
  /\ Planner.loading v' = false
  /\ Planner.selectedDish v' = dish
  /\ Planner.suggestions v' = Planner.suggestions v
  /\ match Generation.getFullRecipe JSON_parse recipe_remote with
     | JS.Throw e =>
         Planner.appState v' = Planner.appState v
         /\ Planner.recipe v' = Planner.recipe v
         /\ Planner.recipeImage v' = Planner.recipeImage v
         /\ Planner.logged v' = Planner.logged v ++ [e]
     | JS.Normal full =>
         Planner.appState v' = Planner.PLANNING
         /\ Planner.recipe v' = full
         /\ match
              Generation.get_property full (JS.of_ascii_string "imagePrompt")
              ≫= fun prompt => Generation.generateDishImage (image_remote prompt)
            with
            | JS.Normal img =>
                Planner.recipeImage v' = Some img
                /\ Planner.logged v' = Planner.logged v
            | JS.Throw e =>
                Planner.recipeImage v' = Planner.recipeImage v
                /\ Planner.logged v' = Planner.logged v ++ [e]
            end
     end.
Proof.
intros Hdish. cbv zeta.
unfold Planner.handleSelectDish, Planner.handleSelectDish_begin.
assert (Hname : exists name,
          Generation.get_property dish (JS.of_ascii_string "name")
          = JS.Normal name)
  by (destruct dish; try contradiction; eexists; reflexivity).
destruct Hname as [name ->].
unfold Planner.handleSelectDish_recipe.
destruct (Generation.getFullRecipe JSON_parse recipe_remote) as [full|e];
  [|view_simpl; repeat split].
destruct (Generation.get_property full (JS.of_ascii_string "imagePrompt"))
  as [prompt|e]; [|view_simpl; repeat split].
rewrite bind_Normal. unfold Planner.handleSelectDish_image.
destruct (Generation.generateDishImage (image_remote prompt)) as [img|e];
  view_simpl; repeat split.
Qed.

(** X24. For a dish that is not [null], [handleSelectDish] completes
    with the loading flag cleared and the dish selected, and leaves the
    suggestions alone.  If the recipe call fails, the screen, the recipe
    and the image stay as they were and the error is logged.  If it
    succeeds, a failure of the image call (or of reading the image prompt)
    is logged and leaves the view in PLANNING with the recipe and the
    image it had, and a success stores the image.  The move to PLANNING
    comes before the image is asked for: when the recipe has a readable
    image prompt, the view in which the image call is awaited is already
    in PLANNING with the recipe, still loading, with the image and the log
    it had, and the final view is what the end of the image call makes of
    that view. *)
Theorem X24_handleSelectDish_outcomes
  (JSON_parse : list N -> JS.completion Generation.JSON)
  (recipe_remote : JS.completion Generation.GenerateContentResponse)
  (image_remote :
     option Generation.JSON -> JS.completion Generation.GenerateContentResponse)
  (dish : Generation.JSON) (v : Planner.View) :
  dish <> Generation.JNull ->
  let r := Planner.handleSelectDish JSON_parse recipe_remote image_remote dish v in
  let v' := snd r in
  fst r = JS.Normal tt
  /\ Planner.loading v' = false
  /\ Planner.selectedDish v' = dish
  /\ Planner.suggestions v' = Planner.suggestions v
  /\ match Generation.getFullRecipe JSON_parse recipe_remote with
     | JS.Throw e =>
         Planner.appState v' = Planner.appState v
         /\ Planner.recipe v' = Planner.recipe v
         /\ Planner.recipeImage v' = Planner.recipeImage v
         /\ Planner.logged v' = Planner.logged v ++ [e]
     | JS.Normal full =>
         Planner.appState v' = Planner.PLANNING
         /\ Planner.recipe v' = full
         /\ match
              Generation.get_property full (JS.of_ascii_string "imagePrompt")
              ≫= fun prompt => Generation.generateDishImage (image_remote prompt)
            with
            | JS.Normal img =>
                Planner.recipeImage v' = Some img
                /\ Planner.logged v' = Planner.logged v
            | JS.Throw e =>
                Planner.recipeImage v' = Planner.recipeImage v
                /\ Planner.logged v' = Planner.logged v ++ [e]
            end
     end
  /\ (forall full prompt,
        Generation.getFullRecipe JSON_parse recipe_remote = JS.Normal full ->
        Generation.get_property full (JS.of_ascii_string "imagePrompt")
        = JS.Normal prompt ->
        let awaiting :=
          Planner.handleSelectDish_recipe (JS.Normal full)
            (snd (Planner.handleSelectDish_begin dish v)) in
        snd awaiting = Some prompt
        /\ Planner.appState (fst awaiting) = Planner.PLANNING
        /\ Planner.recipe (fst awaiting) = full
        /\ Planner.loading (fst awaiting) = true
        /\ Planner.selectedDish (fst awaiting) = dish
        /\ Planner.recipeImage (fst awaiting) = Planner.recipeImage v
        /\ Planner.logged (fst awaiting) = Planner.logged v
        /\ v' = Planner.handleSelectDish_image
                  (Generation.generateDishImage (image_remote prompt))
                  (fst awaiting)).
Proof.
intros Hdish.
pose proof (handleSelectDish_spec JSON_parse recipe_remote image_remote dish v
              Hdish) as H.
cbv zeta in H |- *. destruct H as (H1 & H2 & H3 & H4 & H5).
do 4 (split; [assumption|]). split; [exact H5|].
intros full prompt Hfull Hprompt.
unfold Planner.handleSelectDish, Planner.handleSelectDish_begin.
assert (Hname : exists name,
          Generation.get_property dish (JS.of_ascii_string "name")
          = JS.Normal name)
  by (destruct dish; try contradiction; eexists; reflexivity).
destruct Hname as [name ->]. rewrite Hfull.
unfold Planner.handleSelectDish_recipe. rewrite Hprompt.
cbn [fst snd]. view_simpl. repeat split.
Qed.

(** The recipe call fails. *)
Lemma X24_witness :
  let JSON_parse := fun _ : list N => JS.Normal (Generation.JObject []) in
  let v := Planner.set_appState Planner.SUGGESTING Planner.initial_view in
  let r := Planner.handleSelectDish JSON_parse (JS.Throw JS.TypeError)
             (fun _ => JS.Throw JS.TypeError) (Generation.JObject []) v in
  Planner.appState (snd r) = Planner.SUGGESTING
  /\ Planner.loading (snd r) = false
  /\ Planner.logged (snd r) = [JS.TypeError].
Proof.
intros JSON_parse v r.
destruct (X24_handleSelectDish_outcomes JSON_parse (JS.Throw JS.TypeError)
            (fun _ => JS.Throw JS.TypeError) (Generation.JObject []) v)
  as (_ & H1 & _ & _ & (H2 & _ & _ & H3) & _); [discriminate|].
repeat split; assumption.
Defined.

(** X25. An image response without a first candidate does not take the
    plan away: whatever the recipe is (as long as it is not [null]), when
    the image call answers without candidates [handleSelectDish] completes
    normally in PLANNING with the recipe shown, the loading flag cleared,
    no image stored, and the TypeError of [generateDishImage] logged. *)
Theorem X25_plan_survives_missing_image
  (JSON_parse : list N -> JS.completion Generation.JSON)
  (recipe_remote : JS.completion Generation.GenerateContentResponse)
  (image_remote :
     option Generation.JSON -> JS.completion Generation.GenerateContentResponse)
  (dish full : Generation.JSON) (v : Planner.View) :
  dish <> Generation.JNull -> full <> Generation.JNull ->
  Generation.getFullRecipe JSON_parse recipe_remote = JS.Normal full ->
  (forall prompt, exists response,
     image_remote prompt = JS.Normal response
     /\ (Generation.candidates response = None
         \/ Generation.candidates response = Some [])) ->
  let r := Planner.handleSelectDish JSON_parse recipe_remote image_remote dish v in
  fst r = JS.Normal tt
  /\ Planner.appState (snd r) = Planner.PLANNING
  /\ Planner.recipe (snd r) = full
  /\ Planner.loading (snd r) = false
  /\ Planner.recipeImage (snd r) = Planner.recipeImage v
  /\ Planner.logged (snd r) = Planner.logged v ++ [JS.TypeError].
Proof.
intros Hdish Hfull Hrecipe Himage r.
destruct (handleSelectDish_spec JSON_parse recipe_remote image_remote dish v Hdish)
  as (H1 & H2 & _ & _ & H3).
fold r in H1, H2, H3. rewrite Hrecipe in H3. destruct H3 as (H3 & H4 & H5).
assert (E : Generation.get_property full (JS.of_ascii_string "imagePrompt")
            ≫= (fun prompt => Generation.generateDishImage (image_remote prompt))
            = JS.Throw JS.TypeError).
{ destruct (Generation.get_property full (JS.of_ascii_string "imagePrompt"))
    as [prompt|e] eqn:Hp; [|destruct full; try discriminate Hp; contradiction].
  rewrite bind_Normal.
  destruct (Himage prompt) as (response & -> & Hc).
  unfold Generation.generateDishImage. rewrite bind_Normal.
  destruct Hc as [-> | ->]; reflexivity. }
rewrite E in H5. destruct H5 as [H5 H6].
repeat split; assumption.
Qed.

(** The recipe is an empty object and the image call answers with an
    empty list of candidates. *)
Lemma X25_witness :
  let JSON_parse := fun _ : list N => JS.Normal (Generation.JObject []) in
  let answer := JS.Normal {| Generation.text := None;
                             Generation.candidates := Some [] |} in
  let r := Planner.handleSelectDish JSON_parse answer (fun _ => answer)
             (Generation.JObject []) Planner.initial_view in
  Planner.appState (snd r) = Planner.PLANNING
  /\ Planner.recipeImage (snd r) = None
  /\ Planner.logged (snd r) = [JS.TypeError].
Proof.
intros JSON_parse answer r.
destruct (X25_plan_survives_missing_image JSON_parse answer (fun _ => answer)
            (Generation.JObject []) (Generation.JObject []) Planner.initial_view)
  as (_ & H1 & _ & _ & H2 & H3); try discriminate; try reflexivity.
- intros prompt. eexists. split; [reflexivity|]. now right.
- repeat split; assumption.
Defined.

(** X26. [reset] in a reachable state of the coach completes normally:
    the view is back at ONBOARDING with no suggestions, dish, recipe or
    image, and the coach is stopped as by [stopCoach].  It neither clears
    the loading flag nor cancels a call in flight: when the suggestions
    arrive after a reset, the view still moves to SUGGESTING. *)
Theorem X26_reset (v : Planner.View) (st : App.Refs) :
  App.reachable st ->
  exists v',
    Planner.reset v st = (JS.Normal tt, (v', App.after App.StopCoach st))
    /\ Planner.appState v' = Planner.ONBOARDING
    /\ Planner.suggestions v' = Some (Generation.JArray [])
    /\ Planner.selectedDish v' = Generation.JNull
    /\ Planner.recipe v' = Generation.JNull
    /\ Planner.recipeImage v' = None
    /\ Planner.loading v' = Planner.loading v
    /\ forall results,
         Planner.appState
           (Planner.handleFetchSuggestions_resume (JS.Normal results) v')
         = Planner.SUGGESTING.
Proof.
intros Hreach.
destruct (reachable_above st Hreach) as (_ & _ & Hst & _).
unfold Planner.reset, App.after. cbn [App.run].
rewrite (stopCoach_spec st Hst). cbn [snd].
eexists. split; [reflexivity|]. view_simpl. repeat split.
Qed.

(** The logo is clicked while the suggestions are awaited and the coach
    is live. *)
Lemma X26_witness :
  let st := AppViews.after_all [App.StartCoach; App.SessionOpened 0] in
  let v := Planner.handleFetchSuggestions_begin Planner.initial_view in
  exists v' st',
    Planner.reset v st = (JS.Normal tt, (v', st'))
    /\ Planner.loading v' = true
    /\ App.sessionPromise st' = None
    /\ Planner.appState
         (Planner.handleFetchSuggestions_resume
            (JS.Normal (Some (Generation.JArray []))) v')
       = Planner.SUGGESTING.
Proof.
intros st v.
assert (Hreach : App.reachable st)
  by (apply reachable_after_all; repeat constructor).
destruct (X26_reset v st Hreach) as (v' & H1 & _ & _ & _ & _ & _ & H2 & H3).
exists v', (App.after App.StopCoach st).
split; [exact H1|]. split; [rewrite H2; reflexivity|].
split; [reflexivity|apply H3].
Defined.

(** ** The display and the errors of the coach *)
Section DispatchLemmas.
Import JS WebAudio Codec Capture App AppViews SchedulerViews.

(** What [onmessage_rest] shows. *)
Lemma onmessage_rest_display (message : LiveServerMessage) (st : Refs) :
  started_sources st ->
  display (snd (onmessage_rest message st))
  = {| coachActive := coachActive (display st);
       isListening :=
         match inputAudioTranscription message with
         | Some _ => false
         | None => isListening (display st)
         end;
       transcription :=
         match outputTranscription message, inputAudioTranscription message with
         | Some text, _ => text
         | None, Some text => text
         | None, None => transcription (display st)
         end |}.
Proof.
intros Hst. unfold onmessage_rest, mbind, handler_bind.
destruct (interrupted message).
- rewrite (onInterrupted_spec st Hst).
  destruct (inputAudioTranscription message), (outputTranscription message);
    cbn [when_some mret handler_ret onTranscription modify snd]; refs_simpl;
    cbn [coachActive isListening transcription];
    try reflexivity; now destruct (display st).
- cbn [mret handler_ret].
  destruct (inputAudioTranscription message), (outputTranscription message);
    cbn [when_some mret handler_ret onTranscription modify snd]; refs_simpl;
    cbn [coachActive isListening transcription];
    try reflexivity; now destruct (display st).
Qed.

(** The state in which the second half of [onAudio] runs. *)
Lemma onmessage_before_resume (message : LiveServerMessage) (base64 : list N)
  (st : Refs) :
  above 0 st ->
  let st1 := snd (onAudio_sync base64 st) in
  let st2 := snd (onmessage_rest message st1) in
  fst (onmessage_rest message st1) = Normal tt
  /\ display st1 = display st
  /\ above 0 st2
  /\ audioContextOut st2 = audioContextOut st.
Proof.
intros Habove st1 st2.
destruct (onAudio_sync_above 0 base64 st Habove) as [Ha1 _].
apply above_zero in Ha1. fold st1 in Ha1.
destruct (onAudio_sync_scheduler base64 st) as (Hs1 & _ & _ & Hd1 & _).
fold st1 in Hs1, Hd1.
destruct (onmessage_rest_above 0 message st1 Ha1) as (Hfst & Ha2 & Hctx2).
fold st2 in Ha2, Hctx2.
split; [exact Hfst|]. split; [exact Hd1|].
split; [exact (above_zero _ _ Ha2)|].
destruct Hs1 as (_ & Hs1 & _). now rewrite Hctx2, Hs1.
Qed.

Lemma onmessage_display (message : LiveServerMessage) (st : Refs) :
  above 0 st ->
  first_payload message = Normal (inlineData message) ->
  display (snd (onmessage message st))
  = {| coachActive := coachActive (display st);
       isListening :=
         match inputAudioTranscription message with
         | Some _ => false
         | None => isListening (display st)
         end;
       transcription :=
         match outputTranscription message, inputAudioTranscription message with
         | Some text, _ => text
         | None, Some text => text
         | None, None => transcription (display st)
         end |}.
Proof.
intros Habove Hfirst. rewrite (onmessage_stages message st Hfirst). cbv zeta.
pose proof Habove as (_ & _ & Hst & _).
destruct (inlineData message) as [[|c data]|]; cbn [fst snd];
  try exact (onmessage_rest_display message st Hst).
destruct (onmessage_before_resume message (c :: data) st Habove)
  as (_ & Hd1 & Ha2 & Hctx2).
destruct (onAudio_sync_above 0 (c :: data) st Habove) as [Ha1 Hbuf].
assert (Hrest := onmessage_rest_display message
                   (snd (onAudio_sync (c :: data) st))
                   (proj1 (proj2 (proj2 Ha1)))).
rewrite Hd1 in Hrest.
destruct (fst (onAudio_sync (c :: data) st)) as [[buffer|]|e];
  try exact Hrest.
destruct (Hbuf buffer eq_refl) as [_ Hctx1].
rewrite onAudio_resume_spec.
- cbn [snd]. refs_simpl. exact Hrest.
- rewrite Hctx2.
  destruct (onAudio_sync_scheduler (c :: data) st) as ((_ & <- & _) & _).
  exact Hctx1.
- apply Ha2.
Qed.

(** Whatever the message, the indicator is not set by it and the coach
    stays shown as it was. *)
Lemma onmessage_display_frame (message : LiveServerMessage) (st : Refs) :
  above 0 st ->
  coachActive (display (snd (onmessage message st))) = coachActive (display st)
  /\ (isListening (display (snd (onmessage message st))) = true ->
      isListening (display st) = true).
Proof.
intros Habove.
destruct (first_payload_cases message) as [[Hthrow _]|Hfirst].
- rewrite (onmessage_unguarded message st _ Hthrow). cbn [snd]. auto.
- rewrite (onmessage_display message st Habove Hfirst).
  cbn [coachActive isListening]. split; [reflexivity|].
  destruct (inputAudioTranscription message); [discriminate|auto].
Qed.

(** The completion of [onmessage]: the first condition and the decoding of
    the audio payload are all that can fail. *)
Lemma onmessage_completion (message : LiveServerMessage) (st : Refs) :
  above 0 st ->
  fst (onmessage message st)
  = match first_payload message with
    | Throw e => Throw e
    | Normal _ =>
        match inlineData message, audioContextOut st with
        | Some (c :: data), Some _ =>
            (decode (c :: data) ≫= (fun bytes => decodeAudioData bytes 24000 1))
            ≫= fun _ => Normal tt
        | _, _ => Normal tt
        end
    end.
Proof.
intros Habove.
destruct (first_payload_cases message) as [[Hthrow _]|Hfirst].
{ rewrite (onmessage_unguarded message st _ Hthrow), Hthrow. reflexivity. }
rewrite Hfirst.
unfold onmessage, mbind at 1 2 3 4, handler_bind, attempt, lift.
rewrite Hfirst.
destruct (inlineData message) as [[|c data]|]; cbn [mret handler_ret].
- destruct (onmessage_rest_above 0 message st Habove) as (Hfst & _).
  destruct (onmessage_rest message st) as [r st2]. cbn in Hfst. subst r.
  reflexivity.
- destruct (onmessage_before_resume message (c :: data) st Habove)
    as (Hfst & _ & Ha2 & Hctx2).
  destruct (onAudio_sync_above 0 (c :: data) st Habove) as [_ Hbuf].
  rewrite onAudio_sync_unfold in *.
  destruct (audioContextOut st) as [ctx|] eqn:Hctx.
  + cbv zeta in *.
    destruct (decode (c :: data) ≫= _) as [buffer|e].
    * cbn [fst snd] in *.
      destruct (onmessage_rest message _) as [r st2]. cbn [fst snd] in *.
      subst r. rewrite onAudio_resume_spec;
        [reflexivity|rewrite Hctx2; eauto|apply Ha2].
    * cbn [fst snd] in *.
      destruct (onmessage_rest message _) as [r st2]. cbn [fst snd] in *.
      subst r. reflexivity.
  + cbn [fst snd] in *.
    destruct (onmessage_rest message st) as [r st2]. cbn [fst snd] in *.
    subst r. reflexivity.
- destruct (onmessage_rest_above 0 message st Habove) as (Hfst & _).
  destruct (onmessage_rest message st) as [r st2]. cbn in Hfst. subst r.
  reflexivity.
Qed.

(** Only the opening of the microphone sets the listening indicator. *)
Lemma after_isListening (ev : event) (st : Refs) :
  above 0 st ->
  isListening (display (after ev st)) = true ->
  isListening (display st) = true \/ ev = MicrophoneOpened.
Proof.
intros Habove H.
destruct ev as [| |message|source|inputData|p|p|dt| |]; unfold after in H;
  cbn [run] in H; auto; left.
- unfold startCoach, initAudio, mbind, handler_bind, modify in H.
  cbv beta iota in H. destruct (audioContextOut st); exact H.
- destruct Habove as (_ & _ & Hst & _).
  rewrite (stopCoach_spec st Hst) in H. exact H.
- now apply (onmessage_display_frame message st Habove).
- destruct (onaudioprocess_spec inputData st) as (payload & _ & E).
  rewrite E in H. cbn [snd] in H. destruct (sessionPromise st); exact H.
- cbn [modify snd] in H. unfold advance_clock in H.
  destruct (audioContextOut st); exact H.
Qed.
End DispatchLemmas.

(** X27. What a message does to the display, in a reachable state.  A
    message whose model turn has no [parts] is not handled at all: the
    TypeError of its first condition ends [onmessage], nothing changes and
    its transcripts are lost.  For any other message the transcript shown
    is the output transcript of the message if it has one, else its input
    transcript, else the one shown before; the listening indicator is
    cleared exactly when the message has an input transcript; and no
    message, audio and interruption included, changes whether the coach is
    shown as active.  The indicator, set when the microphone opens, is set
    by nothing else: once an input transcript has cleared it, it stays
    off until the microphone is opened again. *)
Theorem X27_message_display (message : App.LiveServerMessage) (st : App.Refs) :
  App.reachable st ->
  let shown := App.display (App.after (App.Message message) st) in
  (App.first_payload message = JS.Throw JS.TypeError ->
   App.run (App.Message message) st = (JS.Throw JS.TypeError, st))
  /\ (App.first_payload message = JS.Normal (App.inlineData message) ->
      App.coachActive shown = App.coachActive (App.display st)
      /\ App.isListening shown
         = match App.inputAudioTranscription message with
           | Some _ => false
           | None => App.isListening (App.display st)
           end
      /\ App.transcription shown
         = match App.outputTranscription message,
                 App.inputAudioTranscription message with
           | Some text, _ => text
           | None, Some text => text
           | None, None => App.transcription (App.display st)
           end)
  /\ (is_Some (App.audioContextIn st) ->
      App.isListening (App.display (App.after App.MicrophoneOpened st)) = true)
  /\ (forall ev,
        App.isListening (App.display (App.after ev st)) = true ->
        App.isListening (App.display st) = true \/ ev = App.MicrophoneOpened).
Proof.
intros Hreach shown. subst shown.
pose proof (reachable_above st Hreach) as Habove.
split; [|split; [|split]].
- intros Hthrow. cbn [App.run]. now apply onmessage_unguarded.
- intros Hfirst. unfold App.after. cbn [App.run].
  rewrite (onmessage_display message st Habove Hfirst). repeat split.
- intros [ctx Hctx]. unfold App.after. cbn [App.run].
  rewrite startCoach_microphone_spec, Hctx. reflexivity.
- intros ev. now apply after_isListening.
Qed.

(** The microphone is open; a message with both transcripts arrives. *)
Lemma X27_witness :
  let st := AppViews.after_all [App.StartCoach; App.MicrophoneOpened] in
  let message :=
    {| App.modelTurn := None; App.interrupted := false;
       App.inputAudioTranscription := Some (JS.of_ascii_string "how long");
       App.outputTranscription := Some (JS.of_ascii_string "ten minutes") |} in
  let shown := App.display (App.after (App.Message message) st) in
  App.isListening (App.display st) = true
  /\ App.isListening shown = false
  /\ App.transcription shown = JS.of_ascii_string "ten minutes".
Proof.
intros st message shown.
assert (Hreach : App.reachable st)
  by (apply reachable_after_all; repeat constructor).
destruct (X27_message_display message st Hreach) as (_ & H & _).
destruct (H eq_refl) as (_ & H1 & H2).
split; [reflexivity|]. split; [exact H1|exact H2].
Defined.

(** X28. The end of a source removes that source from the active set
    and no other, keeping the order of the rest, and touches nothing else;
    the end of a source that is not active (one that an interruption or a
    stop has already removed) changes nothing at all. *)
Theorem X28_onended (source : nat) (st : App.Refs) :
  let st' := App.after (App.Ended source) st in
  App.run (App.Ended source) st
  = (JS.Normal tt,
     App.set_activeSources
       (List.filter (fun id => negb (Nat.eqb id source)) (App.activeSources st))
       st)
  /\ (source ∉ App.activeSources st')
  /\ (forall id, id <> source ->
        (id ∈ App.activeSources st' <-> id ∈ App.activeSources st))
  /\ (source ∉ App.activeSources st -> st' = st).
Proof.
cbv zeta. unfold App.after. cbn [App.run App.onended App.modify snd].
unfold App.Set_delete. refs_simpl.
split; [reflexivity|]. split; [|split].
- rewrite list_elem_of_In, filter_In. intros [_ H].
  now rewrite Nat.eqb_refl in H.
- intros id Hid. rewrite !list_elem_of_In, filter_In.
  apply Nat.eqb_neq in Hid. rewrite Hid. tauto.
- intros Hnot.
  replace (List.filter _ (App.activeSources st)) with (App.activeSources st);
    [now destruct st|].
  symmetry. apply forallb_filter_id, forallb_forall. intros id Hid.
  apply negb_true_iff, Nat.eqb_neq. intros ->.
  apply Hnot, list_elem_of_In, Hid.
Qed.

(** A source ends after an interruption has removed it. *)
Lemma X28_witness :
  let st := AppViews.after_all
              [App.StartCoach;
               App.Message (App.audio_message (JS.of_ascii_string "AAA="));
               App.Message App.interruption_message] in
  App.after (App.Ended 0) st = st.
Proof.
intros st.
destruct (X28_onended 0 st) as (_ & _ & _ & H).
apply H. vm_compute. apply not_elem_of_nil.
Defined.

(** X29. In a reachable state a handler of the coach can raise two
    errors only, both on an inbound message: the TypeError of a model turn
    without [parts], read without a guard, and the failure to decode the
    audio payload.  If handling an event raises [e], the event is a
    message, and either its first condition raises [e], or it has a
    payload that is not empty, the output context exists, and [e] is what
    [decode] or [decodeAudioData] raised on that payload.  Starting and
    stopping the coach, the microphone, capture blocks, ended sources,
    interruptions and transcripts never fail. *)
Theorem X29_only_messages_fail (ev : App.event) (st : App.Refs) (e : JS.exn) :
  App.reachable st ->
  fst (App.run ev st) = JS.Throw e ->
  exists message,
    ev = App.Message message
    /\ ((App.first_payload message = JS.Throw e /\ e = JS.TypeError
         /\ App.run ev st = (JS.Throw e, st))
        \/ exists base64,
             App.inlineData message = Some base64
             /\ base64 <> []
             /\ is_Some (App.audioContextOut st)
             /\ Codec.decode base64
                ≫= (fun bytes => Codec.decodeAudioData bytes 24000 1)
                = JS.Throw e).
Proof.
intros Hreach Hthrow.
pose proof (reachable_above st Hreach) as Habove.
destruct ev as [| |message|source|inputData|p|p|dt| |];
  cbn [App.run] in Hthrow; try discriminate Hthrow.
- pose proof Habove as (_ & _ & Hst & _).
  rewrite (stopCoach_spec st Hst) in Hthrow. discriminate Hthrow.
- exists message. split; [reflexivity|].
  rewrite (onmessage_completion message st Habove) in Hthrow.
  destruct (first_payload_cases message) as [[Hf _]|Hf]; rewrite Hf in Hthrow.
  + left. injection Hthrow as <-. split; [exact Hf|]. split; [reflexivity|].
    cbn [App.run]. now apply onmessage_unguarded.
  + right.
    destruct (App.inlineData message) as [[|c data]|] eqn:Hdata;
      try discriminate Hthrow.
    destruct (App.audioContextOut st) as [ctx|]; [|discriminate Hthrow].
    exists (c :: data). split; [reflexivity|].
    split; [discriminate|]. split; [eauto|].
    destruct (Codec.decode (c :: data) ≫= _) as [buffer|e'];
      [discriminate Hthrow|]. cbn in Hthrow. now injection Hthrow as ->.
- destruct (onaudioprocess_spec inputData st) as (payload & _ & E).
  rewrite E in Hthrow. discriminate Hthrow.
- rewrite startCoach_microphone_spec in Hthrow. discriminate Hthrow.
Qed.

(** A model turn without parts, with a transcript that is lost. *)
Lemma X29_witness :
  let st := AppViews.after_all [App.StartCoach] in
  let message :=
    {| App.modelTurn := Some {| App.parts := None |};
       App.interrupted := false;
       App.inputAudioTranscription := None;
       App.outputTranscription := Some (JS.of_ascii_string "stir") |} in
  App.run (App.Message message) st = (JS.Throw JS.TypeError, st).
Proof.
intros st message.
assert (Hreach : App.reachable st)
  by (apply reachable_after_all; repeat constructor).
destruct (X29_only_messages_fail (App.Message message) st JS.TypeError
            Hreach eq_refl) as (m & Hev & [(_ & _ & H)|(b & Hb & _)]).
- exact H.
- injection Hev as <-. discriminate Hb.
Defined.
